(** * EdgeMed agent: the offline synchronisation core

    A shallow embedding of the record validator and repair loop
    ([shared/validator.py], [shared/schemas.py], [shared/constants.py]),
    of the encrypted queue ([local/services/queue_manager.py],
    [local/services/tink_crypto.py]) and of the batch assembly of the sync
    worker ([local/services/sync_worker.py]).

    Conventions.
    - A Python [str] is a [string]; each [ascii] stands for one code point
      (U+0000 to U+00FF).  [bytes] is [list byte].
    - A Python [float] is a binary64 [float] of the kernel; the arithmetic
      below is IEEE 754 arithmetic, not arithmetic on rationals.
    - An ordered [dict] is an association list with Python's update rule
      ([dict_set]).
    - A function that can raise returns [result]. *)

From Stdlib Require Import String Ascii List ZArith QArith Floats Lia Bool.
From Stdlib.Strings Require Import Byte.
From Stdlib Require Import Permutation Sorted.
Import ListNotations.

Set Warnings "-inexact-float,-register-all".

#[local] Close Scope Q_scope.
#[local] Open Scope string_scope.
#[local] Open Scope list_scope.

(* ================================================================== *)
(** * Part I: definitions                                              *)
(* ================================================================== *)

(** ** Python values used by the code *)

Definition bytes := list byte.

(** Exceptions that the embedded code can raise or catch. *)
Inductive exn : Type :=
| TinkError            (* tink.TinkError: decryption or integrity failure *)
| JSONDecodeError      (* json.loads on text that is not JSON *)
| AttributeError       (* a method of dict called on another value *)
| TypeError            (* a mapping was expected *)
| KeyError (k : string)
| ValidationError      (* pydantic: a value does not fit the schema *)
| UnboundLocalError (v : string).

Inductive result (A : Type) : Type :=
| Ok (a : A)
| Raise (e : exn).
Arguments Ok {A} a.
Arguments Raise {A} e.

Definition bind {A B} (r : result A) (k : A -> result B) : result B :=
  match r with
  | Ok a => k a
  | Raise e => Raise e
  end.

Notation "x <- r ;; k" := (bind r (fun x => k))
  (at level 61, r at next level, right associativity).

(** *** Ordered dictionaries *)

Section Dict.
Context {V : Type}.

Definition dict := list (string * V).

Fixpoint dict_get (d : dict) (k : string) : option V :=
  match d with
  | [] => None
  | (k', v) :: d' => if String.eqb k' k then Some v else dict_get d' k
  end.

(** [d[k] = v]: an existing key keeps its position. *)
Fixpoint dict_set (d : dict) (k : string) (v : V) : dict :=
  match d with
  | [] => [(k, v)]
  | (k', v') :: d' =>
      if String.eqb k' k then (k', v) :: d' else (k', v') :: dict_set d' k v
  end.

Definition dict_has (d : dict) (k : string) : bool :=
  match dict_get d k with Some _ => true | None => false end.

Definition dict_keys (d : dict) : list string := map fst d.
Definition dict_values (d : dict) : list V := map snd d.

(** [d.pop(k, None)]. *)
Fixpoint dict_remove (d : dict) (k : string) : dict :=
  match d with
  | [] => []
  | (k', v) :: d' =>
      if String.eqb k' k then dict_remove d' k else (k', v) :: dict_remove d' k
  end.

(** [{**d, **e}]. *)
Definition dict_update (d e : dict) : dict :=
  fold_left (fun acc kv => dict_set acc (fst kv) (snd kv)) e d.
End Dict.
Arguments dict V : clear implicits.

(** *** [str] methods *)

(** [str.isspace] on one code point below U+0100. *)
Definition isspace (c : ascii) : bool :=
  let n := N_of_ascii c in
  (((9 <=? n) && (n <=? 13)) || ((28 <=? n) && (n <=? 32))
   || (n =? 133) || (n =? 160))%N.

Fixpoint lstrip (s : string) : string :=
  match s with
  | EmptyString => EmptyString
  | String c s' => if isspace c then lstrip s' else s
  end.

Fixpoint rstrip (s : string) : string :=
  match s with
  | EmptyString => EmptyString
  | String c s' =>
      match rstrip s' with
      | EmptyString => if isspace c then EmptyString else String c EmptyString
      | t => String c t
      end
  end.

(** [s.strip()]. *)
Definition strip (s : string) : string := lstrip (rstrip s).

(** [s.split()]: the maximal runs of characters that are not whitespace.
    [cur] is the run being read. *)
Fixpoint split_from (cur : string) (s : string) : list string :=
  match s with
  | EmptyString => if String.eqb cur "" then [] else [cur]
  | String c s' =>
      if isspace c
      then (if String.eqb cur "" then split_from "" s'
            else cur :: split_from "" s')
      else split_from (cur ++ String c "") s'
  end.

Definition split (s : string) : list string := split_from "" s.

Definition lower_char (c : ascii) : ascii :=
  let n := N_of_ascii c in
  if (((65 <=? n) && (n <=? 90)) || ((192 <=? n) && (n <=? 214))
      || ((216 <=? n) && (n <=? 222)))%N
  then ascii_of_N (n + 32)
  else c.

(** [s.lower()]. *)
Fixpoint lower (s : string) : string :=
  match s with
  | EmptyString => EmptyString
  | String c s' => String (lower_char c) (lower s')
  end.

(** [sub in s]. *)
Fixpoint str_in (sub s : string) : bool :=
  if String.prefix sub s then true
  else match s with
       | EmptyString => false
       | String _ s' => str_in sub s'
       end.

(** [s.encode("utf-8")]: one byte below U+0080, two bytes from U+0080 to
    U+00FF. *)
Definition utf8_char (c : ascii) : bytes :=
  let n := N_of_ascii c in
  if (n <? 128)%N then [byte_of_ascii c]
  else [byte_of_ascii (ascii_of_N (192 + n / 64));
        byte_of_ascii (ascii_of_N (128 + n mod 64))].

Fixpoint utf8_encode (s : string) : bytes :=
  match s with
  | EmptyString => []
  | String c s' => utf8_char c ++ utf8_encode s'
  end.

(** The first code point of a UTF-8 text, for code points below U+0100. *)
Definition utf8_decode_char (b : bytes) : option (ascii * bytes) :=
  match b with
  | [] => None
  | b1 :: rest =>
      let n1 := N_of_ascii (ascii_of_byte b1) in
      if (n1 <? 128)%N then Some (ascii_of_byte b1, rest)
      else
        match rest with
        | [] => None
        | b2 :: rest' =>
            let n2 := N_of_ascii (ascii_of_byte b2) in
            Some (ascii_of_N ((n1 - 192) * 64 + (n2 - 128)), rest')
        end
  end.

(** *** [float] operations *)

Definition float_of_Z (z : Z) : float :=
  if (z <? 0)%Z then PrimFloat.opp (PrimFloat.of_uint63 (Uint63.of_Z (- z)))
  else PrimFloat.of_uint63 (Uint63.of_Z z).

(** [a / b] on two [int]: the quotient as a float (both are far below
    2^53 here, so their conversion is exact). *)
Definition int_truediv (a b : Z) : float :=
  PrimFloat.div (float_of_Z a) (float_of_Z b).

(** [sum(xs)] on floats: from the left, starting at [0]. *)
Definition float_sum (xs : list float) : float :=
  fold_left PrimFloat.add xs 0%float.

(** [min(a, b)] and [max(a, b)] return their first argument unless the
    second one is strictly smaller (larger). *)
Definition py_min (a b : float) : float := if PrimFloat.ltb b a then b else a.
Definition py_max (a b : float) : float := if PrimFloat.ltb a b then b else a.

(** The integer nearest to [n / d] ([d > 0]), ties to the even one. *)
Definition round_half_even (n d : Z) : Z :=
  let q := (n / d)%Z in
  let r := (n mod d)%Z in
  if (2 * r <? d)%Z then q
  else if (d <? 2 * r)%Z then (q + 1)%Z
  else if Z.even q then q else (q + 1)%Z.

(** [round(x, 3)]: the decimal with three places nearest to the exact value
    of [x] (ties to even), then the float nearest to that decimal.  A
    quotient of two floats that hold integers is correctly rounded, so
    [k / 1000] is that float. *)
Definition thousandths (m : positive) (e : Z) : Z :=
  if (0 <=? e)%Z then (Z.pos m * 2 ^ e * 1000)%Z
  else round_half_even (Z.pos m * 1000) (2 ^ (- e)).

Definition py_round3 (x : float) : float :=
  match Prim2SF x with
  | S754_finite false m e =>
      PrimFloat.div (float_of_Z (thousandths m e)) 1000%float
  | S754_finite true m e =>
      PrimFloat.opp (PrimFloat.div (float_of_Z (thousandths m e)) 1000%float)
  | _ => x
  end.

(** ** Schemas ([shared/schemas.py]) *)

Module Medication.
Record t : Type := mk
  { name : string;
    dose : option string;
    frequency : option string;
    route : option string;
    status : option string }.
End Medication.

Module Allergy.
Record t : Type := mk
  { substance : string;
    reaction : option string;
    severity : option string }.
End Allergy.

Module Problem.
Record t : Type := mk
  { description : string;
    status : option string;
    icd10 : option string;
    confidence : option string }.
End Problem.

Record ClinicalRecord : Type := mkClinicalRecord
  { chief_complaint : option string;
    hpi : option string;
    assessment : list Problem.t;
    plan : option string;
    medications : list Medication.t;
    allergies : list Allergy.t;
    red_flags : list string;
    follow_up : option string;
    patient_summary_plain_language : option string }.

Record Flags : Type := mkFlags
  { missing_fields : list string;
    contradictions : list string;
    confidence_by_field : dict string;
    completeness_score : float }.

(** A Python value as far as the schema tells values apart: what an
    attribute of a record holds, and what an extractor may return for a
    field.  [IOther] and [VOther] stand for any value that fits no field. *)
Inductive item : Type :=
| IProblem (p : Problem.t)
| IMedication (m : Medication.t)
| IAllergy (a : Allergy.t)
| IStr (s : string)
| IOther.

Inductive value : Type :=
| VNone
| VStr (s : string)
| VList (l : list item)
| VOther.

Definition of_optional (o : option string) : value :=
  match o with
  | Some s => VStr s
  | None => VNone
  end.

(** [getattr(record, field, None)]. *)
Definition getattr (record : ClinicalRecord) (field : string) : value :=
  if String.eqb field "chief_complaint" then of_optional (chief_complaint record)
  else if String.eqb field "hpi" then of_optional (hpi record)
  else if String.eqb field "assessment" then VList (map IProblem (assessment record))
  else if String.eqb field "plan" then of_optional (plan record)
  else if String.eqb field "medications" then VList (map IMedication (medications record))
  else if String.eqb field "allergies" then VList (map IAllergy (allergies record))
  else if String.eqb field "red_flags" then VList (map IStr (red_flags record))
  else if String.eqb field "follow_up" then of_optional (follow_up record)
  else if String.eqb field "patient_summary_plain_language"
       then of_optional (patient_summary_plain_language record)
  else VNone.

Definition schema_fields : list string :=
  ["chief_complaint"; "hpi"; "assessment"; "plan"; "medications"; "allergies";
   "red_flags"; "follow_up"; "patient_summary_plain_language"].

(** [record.model_dump()]. *)
Definition model_dump (record : ClinicalRecord) : dict value :=
  map (fun f => (f, getattr record f)) schema_fields.

(** All elements of a list, or the first failure. *)
Fixpoint sequence {A} (l : list (result A)) : result (list A) :=
  match l with
  | [] => Ok []
  | r :: l' => a <- r ;; (t <- sequence l' ;; Ok (a :: t))
  end.

Definition as_optional_str (v : option value) : result (option string) :=
  match v with
  | None | Some VNone => Ok None
  | Some (VStr s) => Ok (Some s)
  | Some _ => Raise ValidationError
  end.

Definition as_list {A} (elem : item -> result A) (v : option value)
  : result (list A) :=
  match v with
  | None => Ok []
  | Some (VList l) => sequence (map elem l)
  | Some _ => Raise ValidationError
  end.

Definition as_problem (i : item) : result Problem.t :=
  match i with IProblem p => Ok p | _ => Raise ValidationError end.
Definition as_medication (i : item) : result Medication.t :=
  match i with IMedication m => Ok m | _ => Raise ValidationError end.
Definition as_allergy (i : item) : result Allergy.t :=
  match i with IAllergy a => Ok a | _ => Raise ValidationError end.
Definition as_str (i : item) : result string :=
  match i with IStr s => Ok s | _ => Raise ValidationError end.

(** [ClinicalRecord.model_validate(data)]: every field is read from [data]
    and checked against its declared type; an absent key takes the
    default. *)
Definition model_validate (data : dict value) : result ClinicalRecord :=
  cc <- as_optional_str (dict_get data "chief_complaint") ;;
  h <- as_optional_str (dict_get data "hpi") ;;
  a <- as_list as_problem (dict_get data "assessment") ;;
  p <- as_optional_str (dict_get data "plan") ;;
  m <- as_list as_medication (dict_get data "medications") ;;
  al <- as_list as_allergy (dict_get data "allergies") ;;
  rf <- as_list as_str (dict_get data "red_flags") ;;
  fu <- as_optional_str (dict_get data "follow_up") ;;
  ps <- as_optional_str (dict_get data "patient_summary_plain_language") ;;
  Ok (mkClinicalRecord cc h a p m al rf fu ps).

(** ** Constants ([shared/constants.py]) *)

Definition REQUIRED_FIELDS : list string :=
  ["chief_complaint"; "hpi"; "assessment"; "plan"; "medications"; "allergies"].

Definition CRITICAL_FIELDS : list string :=
  ["medications"; "allergies"; "assessment"].

Definition CONFIDENCE_NUMERIC : dict float :=
  [("low", 0.33%float); ("medium", 0.66%float); ("high", 1.0%float)].

Definition MAX_REPAIR_ATTEMPTS : Z := 2.
Definition COMPLETENESS_THRESHOLD : float := 0.8%float.

(** ** The validator ([shared/validator.py]) *)

Definition list_in (x : string) (l : list string) : bool :=
  existsb (String.eqb x) l.

(** [set(a) & set(b)] is not empty. *)
Definition share_word (a b : list string) : bool :=
  existsb (fun w => list_in w b) a.

Definition _chief_complaint_addressed (r : ClinicalRecord) : bool :=
  match chief_complaint r, assessment r with
  | None, _ | Some EmptyString, _ | _, [] => true
  | Some cc, ps =>
      let cc_words := split (lower cc) in
      existsb (fun p => share_word cc_words (split (lower (Problem.description p)))) ps
  end.

Definition nonempty {A} (l : list A) : bool :=
  match l with [] => false | _ => true end.

Definition is_some {A} (o : option A) : bool :=
  match o with Some _ => true | None => false end.

Definition ContradictionRule : Type := (ClinicalRecord -> bool) * string.

Definition CONTRADICTION_RULES : list ContradictionRule :=
  [ (fun r =>
       existsb (fun a => str_in "nkda" (lower (Allergy.substance a))) (allergies r)
       && (1 <? length (allergies r))%nat,
     "States NKDA (no known drug allergies) but also lists specific allergies");
    (fun r =>
       existsb (fun m => str_in "none" (lower (Medication.name m))) (medications r)
       && (1 <? length (medications r))%nat,
     "States no medications but also lists specific medications");
    (fun r =>
       is_some (chief_complaint r) && nonempty (assessment r)
       && negb (_chief_complaint_addressed r),
     "Chief complaint not addressed in assessment") ].

Definition _is_field_present (record : ClinicalRecord) (field : string) : bool :=
  match getattr record field with
  | VNone => false
  | VList [] => false
  | VStr s => negb (String.eqb (strip s) "")
  | _ => true
  end.

Definition _compute_confidence (record : ClinicalRecord) : dict string :=
  fold_left
    (fun confidence f =>
       if negb (_is_field_present record f) then dict_set confidence f "low"
       else
         match getattr record f with
         | VList val =>
             dict_set confidence f (if (1 <=? length val)%nat then "high" else "low")
         | VStr val =>
             let word_count := length (split val) in
             if (5 <=? word_count)%nat then dict_set confidence f "high"
             else if (2 <=? word_count)%nat then dict_set confidence f "medium"
             else dict_set confidence f "low"
         | _ => dict_set confidence f "medium"
         end)
    REQUIRED_FIELDS [].

Definition _compute_completeness
  (missing : list string) (confidence : dict string) : float :=
  let total_required := Z.of_nat (length REQUIRED_FIELDS) in
  let fields_present := (total_required - Z.of_nat (length missing))%Z in
  let missing_critical :=
    Z.of_nat (length (filter (fun f => list_in f missing) CRITICAL_FIELDS)) in
  let total_critical := Z.of_nat (length CRITICAL_FIELDS) in
  let conf_values :=
    map (fun v => match dict_get CONFIDENCE_NUMERIC v with
                  | Some x => x
                  | None => 0.33%float
                  end) (dict_values confidence) in
  let avg_confidence :=
    if nonempty conf_values
    then PrimFloat.div (float_sum conf_values)
                       (float_of_Z (Z.of_nat (length conf_values)))
    else 0.0%float in
  let score :=
    (0.5 * int_truediv fields_present total_required
     + 0.3 * (1.0 - int_truediv missing_critical total_critical)
     + 0.2 * avg_confidence)%float in
  py_max 0.0%float (py_min 1.0%float score).

Definition validate (record : ClinicalRecord) : Flags :=
  let missing := filter (fun f => negb (_is_field_present record f)) REQUIRED_FIELDS in
  let contradictions :=
    map snd (filter (fun rule => fst rule record) CONTRADICTION_RULES) in
  let confidence := _compute_confidence record in
  let score := _compute_completeness missing confidence in
  {| missing_fields := missing;
     contradictions := contradictions;
     confidence_by_field := confidence;
     completeness_score := py_round3 score |}.

(** *** The completeness score in the words of the specification

    The same quantities in exact arithmetic on rationals: the number of
    required fields that are present, the number of critical fields that are
    missing, and the confidence of each required field as a number. *)

Definition count_if {A} (p : A -> bool) (l : list A) : Z :=
  Z.of_nat (length (filter p l)).

Definition confidence_numeric (label : string) : Q :=
  if String.eqb label "high" then 1%Q
  else if String.eqb label "medium" then (66 # 100)%Q
  else (33 # 100)%Q.

Definition present_required_fields (record : ClinicalRecord) : Z :=
  count_if (_is_field_present record) REQUIRED_FIELDS.

Definition missing_critical_fields (record : ClinicalRecord) : Z :=
  count_if (fun f => negb (_is_field_present record f)) CRITICAL_FIELDS.

Definition required_confidences (record : ClinicalRecord) : list Q :=
  map (fun f =>
         match dict_get (confidence_by_field (validate record)) f with
         | Some label => confidence_numeric label
         | None => 0%Q
         end) REQUIRED_FIELDS.

Definition Qsum (l : list Q) : Q := fold_right Qplus 0%Q l.

Definition Qmean (l : list Q) : Q :=
  (Qsum l / inject_Z (Z.of_nat (length l)))%Q.

Definition spec_score (present missing_critical : Z) (confidences : list Q) : Q :=
  ((5 # 10) * (inject_Z present / 6)
   + (3 # 10) * (1 - inject_Z missing_critical / 3)
   + (2 # 10) * Qmean confidences)%Q.

Definition clamp01 (q : Q) : Q :=
  if Qle_bool q 0 then 0%Q else if Qle_bool 1 q then 1%Q else q.

(** The decimal with three places nearest to [q], as a float. *)
Definition decimal3 (q : Q) : float :=
  PrimFloat.div
    (float_of_Z (round_half_even (1000 * Qnum q) (Z.pos (Qden q)))) 1000%float.

Definition spec_completeness (record : ClinicalRecord) : float :=
  decimal3
    (clamp01
       (spec_score (present_required_fields record)
          (missing_critical_fields record) (required_confidences record))).

(** *** What the score depends on

    The score of a record is a function of six levels, one for each required
    field. *)
Inductive level : Type := Absent | Low | Medium | High.

Definition label_of (l : level) : string :=
  match l with
  | High => "high"
  | Medium => "medium"
  | Low | Absent => "low"
  end.

Definition is_absent (l : level) : bool :=
  match l with Absent => true | _ => false end.

Definition field_level (record : ClinicalRecord) (f : string) : level :=
  if negb (_is_field_present record f) then Absent
  else
    match getattr record f with
    | VList val => if (1 <=? length val)%nat then High else Low
    | VStr val =>
        let word_count := length (split val) in
        if (5 <=? word_count)%nat then High
        else if (2 <=? word_count)%nat then Medium
        else Low
    | _ => Medium
    end.

Definition missing_of (fl : list (string * level)) : list string :=
  map fst (filter (fun p => is_absent (snd p)) fl).

Definition confidence_of (fl : list (string * level)) : dict string :=
  map (fun p => (fst p, label_of (snd p))) fl.

Definition score_of_levels (ls : list level) : float :=
  let fl := combine REQUIRED_FIELDS ls in
  py_round3 (_compute_completeness (missing_of fl) (confidence_of fl)).

Definition spec_of_levels (ls : list level) : float :=
  let fl := combine REQUIRED_FIELDS ls in
  decimal3
    (clamp01
       (spec_score
          (count_if (fun p => negb (is_absent (snd p))) fl)
          (count_if (fun f => match dict_get fl f with
                              | Some l => is_absent l
                              | None => false
                              end) CRITICAL_FIELDS)
          (map (fun p => confidence_numeric (label_of (snd p))) fl))).

Definition all_levels : list level := [Absent; Low; Medium; High].

Definition for_all_levels (p : level -> bool) : bool := forallb p all_levels.

Definition for_all_six
  (p : level -> level -> level -> level -> level -> level -> bool) : bool :=
  for_all_levels (fun l1 => for_all_levels (fun l2 => for_all_levels (fun l3 =>
  for_all_levels (fun l4 => for_all_levels (fun l5 => for_all_levels (fun l6 =>
    p l1 l2 l3 l4 l5 l6)))))).

(** The two scores agree at six given levels. *)
Definition scores_agree (l1 l2 l3 l4 l5 l6 : level) : bool :=
  PrimFloat.Leibniz.eqb
    (score_of_levels [l1; l2; l3; l4; l5; l6])
    (spec_of_levels [l1; l2; l3; l4; l5; l6]).

(** [l] is [l'] with some elements left out, the others in their order. *)
Inductive Subsequence {A : Type} : list A -> list A -> Prop :=
| sub_nil : Subsequence [] []
| sub_skip (x : A) (l l' : list A) : Subsequence l l' -> Subsequence l (x :: l')
| sub_keep (x : A) (l l' : list A) : Subsequence l l' -> Subsequence (x :: l) (x :: l').

(** ** The repair loop ([shared/validator.py]) *)

(** The [Extractor] protocol.  The first argument is the number of calls made
    before this one, so that an extractor may answer each call differently;
    [Raise] is an exception escaping [repair_fields]. *)
Definition Extractor : Type :=
  nat -> string -> ClinicalRecord -> list string -> string -> result (dict value).

Definition is_unknown (v : value) : bool :=
  match v with
  | VStr s => String.eqb (lower (strip s)) "unknown"
  | _ => false
  end.

Definition is_none (v : value) : bool :=
  match v with VNone => true | _ => false end.

Definition merge_field (data : dict value) (fv : string * value) : dict value :=
  let (field, v) := fv in
  if dict_has data field && negb (is_none v)
  then (if is_unknown v then data else dict_set data field v)
  else data.

Definition _apply_repair
  (record : ClinicalRecord) (note_text : string) (fields_to_fix : list string)
  (repair_fields : string -> ClinicalRecord -> list string -> string -> result (dict value))
  (locale : string) : result ClinicalRecord :=
  match repair_fields note_text record fields_to_fix locale with
  | Raise _ => Ok record
  | Ok repaired => model_validate (fold_left merge_field repaired (model_dump record))
  end.

(** What one call of [validate_and_repair] did: its result, the number of
    calls of [validate] and the number of calls of the extractor. *)
Record Run : Type := mkRun
  { outcome : result (ClinicalRecord * Flags);
    validations : nat;
    extractor_calls : nat }.

Definition fields_to_fix_of (flags : Flags) : list string :=
  if nonempty (contradictions flags)
  then missing_fields flags ++ ["contradictions"]
  else missing_fields flags.

Definition good_enough (flags : Flags) : bool :=
  PrimFloat.leb COMPLETENESS_THRESHOLD (completeness_score flags)
  && negb (nonempty (contradictions flags)).

(** The body of [for attempt in range(max_repairs + 1)], [remaining]
    iterations from [attempt] on.  [flags] is the variable of that name
    ([None] while it is unbound); [nv] and [nc] count the calls so far. *)
Fixpoint repair_loop
  (extractor : option Extractor) (note_text locale : string) (max_repairs : Z)
  (remaining : nat) (attempt : Z) (record : ClinicalRecord)
  (flags : option Flags) (nv nc : nat) : Run :=
  match remaining with
  | O =>
      match flags with
      | Some fl => mkRun (Ok (record, fl)) nv nc
      | None => mkRun (Raise (UnboundLocalError "flags")) nv nc
      end
  | S remaining' =>
      let fl := validate record in
      if good_enough fl then mkRun (Ok (record, fl)) (S nv) nc
      else
        match extractor with
        | Some ext =>
            if (attempt <? max_repairs)%Z then
              let fields_to_fix := fields_to_fix_of fl in
              if negb (nonempty fields_to_fix) then mkRun (Ok (record, fl)) (S nv) nc
              else
                match _apply_repair record note_text fields_to_fix (ext nc) locale with
                | Raise e => mkRun (Raise e) (S nv) (S nc)
                | Ok record' =>
                    repair_loop extractor note_text locale max_repairs
                      remaining' (attempt + 1)%Z record' (Some fl) (S nv) (S nc)
                end
            else
              repair_loop extractor note_text locale max_repairs
                remaining' (attempt + 1)%Z record (Some fl) (S nv) nc
        | None =>
            repair_loop extractor note_text locale max_repairs
              remaining' (attempt + 1)%Z record (Some fl) (S nv) nc
        end
  end.

Definition validate_and_repair
  (record : ClinicalRecord) (note_text : string) (extractor : option Extractor)
  (locale : string) (max_repairs : Z) : Run :=
  repair_loop extractor note_text locale max_repairs
    (Z.to_nat (max_repairs + 1)) 0%Z record None 0 0.

Definition ClinicalRecord_default : ClinicalRecord :=
  mkClinicalRecord None None [] None [] [] [] None None.

(** An extractor that finds nothing: every call returns the empty map. *)
Definition idle_extractor : Extractor := fun _ _ _ _ _ => Ok [].

(** ** The encrypted queue ([local/services/queue_manager.py]) *)

(** A decoded JSON document. *)
Inductive json : Type :=
| JNull
| JBool (b : bool)
| JInt (z : Z)
| JFloat (f : float)
| JStr (s : string)
| JArr (l : list json)
| JObj (d : list (string * json)).

Record LocalSettings : Type := mkLocalSettings
  { MODE : string;
    DEVICE_ID : string;
    SYNC_BATCH_SIZE : Z }.

(** Modelled from the spec: the table declarations of [local/db/schema.sql]
    are not among the sources.  A row of [queue_items] has the attributes
    the spec lists for a QueueItem, [note_id] is its key, a new row starts
    with no [fail_reason] and a [retry_count] of 0.  Timestamps are the text
    SQLite's [datetime('now')] returns. *)
Module QueueItem.
Record t : Type := mk
  { note_id : string;
    idempotency_key : string;
    mode : string;
    ciphertext : bytes;
    status : string;
    fail_reason : option string;
    retry_count : Z;
    created_at : string;
    updated_at : string }.
End QueueItem.

(** Modelled from the spec: a row of [sync_attempts], with the columns that
    [log_sync_attempt] writes. *)
Record SyncAttempt : Type := mkSyncAttempt
  { attempt_note_id : string;
    success : Z;
    response_code : option Z;
    error_message : option string;
    duration_ms : option Z }.

(** The database: a table is the list of its rows, oldest insertion first. *)
Record Store : Type := mkStore
  { queue_items : list QueueItem.t;
    sync_attempts : list SyncAttempt }.

Definition init_db : Store := mkStore [] [].

Definition with_queue_items (s : Store) (rows : list QueueItem.t) : Store :=
  mkStore rows (sync_attempts s).

(** [INSERT OR REPLACE]: a row with the same key is deleted, then the new
    row is inserted. *)
Definition insert_or_replace (row : QueueItem.t) (rows : list QueueItem.t)
  : list QueueItem.t :=
  filter (fun r => negb (String.eqb (QueueItem.note_id r) (QueueItem.note_id row))) rows
  ++ [row].

(** [UPDATE queue_items SET ... WHERE note_id = ?]. *)
Definition update_where (note_id : string) (set : QueueItem.t -> QueueItem.t)
  (rows : list QueueItem.t) : list QueueItem.t :=
  map (fun r => if String.eqb (QueueItem.note_id r) note_id then set r else r) rows.

(** [ORDER BY created_at ASC] and [DESC]: text comparison; rows with equal
    keys stay in table order. *)
Fixpoint insert_asc (x : QueueItem.t) (l : list QueueItem.t) : list QueueItem.t :=
  match l with
  | [] => [x]
  | y :: l' =>
      if String.ltb (QueueItem.created_at x) (QueueItem.created_at y)
      then x :: l else y :: insert_asc x l'
  end.

Fixpoint insert_desc (x : QueueItem.t) (l : list QueueItem.t) : list QueueItem.t :=
  match l with
  | [] => [x]
  | y :: l' =>
      if String.ltb (QueueItem.created_at y) (QueueItem.created_at x)
      then x :: l else y :: insert_desc x l'
  end.

Definition order_by_created_at_asc (rows : list QueueItem.t) : list QueueItem.t :=
  fold_right (fun x acc => insert_asc x acc) [] (rev rows).

Definition order_by_created_at_desc (rows : list QueueItem.t) : list QueueItem.t :=
  fold_right (fun x acc => insert_desc x acc) [] (rev rows).

(** [LIMIT ?]: a negative limit is no limit. *)
Definition sql_limit {A} (limit : Z) (rows : list A) : list A :=
  if (limit <? 0)%Z then rows else firstn (Z.to_nat limit) rows.

(** The wire schema of a batch ([shared/schemas.py]). *)
Module SyncItem.
Record t : Type := mk
  { note_id : string;
    record : ClinicalRecord;
    flags : Flags;
    created_at : string;
    schema_version : string;
    idempotency_key : string;
    raw_note_text : option string }.
End SyncItem.

Module SyncRequest.
Record t : Type := mk
  { device_id : string;
    mode : string;
    items : list SyncItem.t }.
End SyncRequest.

(** What the call of [POST /v1/sync] comes to: an exception (no connection,
    a timeout, a body that is not JSON), or a status code with the two lists
    of the body.  An entry of [failed] may lack its [note_id] or its
    [reason]. *)
Inductive http_result : Type :=
| HttpError (e : exn)
| HttpResponse (status_code : Z) (synced : list string)
    (failed : list (option string * option string)).

(** The summary that [sync_batch] returns. *)
Record Summary : Type := mkSummary
  { synced_count : Z;
    failed_count : Z;
    message : option string;
    timing_ms : option Z;
    error : option string }.

(** A stand-in for the AEAD primitive, used to instantiate the contract of
    the crypto provider below: the ciphertext spells out the associated
    data, byte by byte, before the plaintext.  It keeps nothing secret; it
    only shows that the contract can be met. *)
Module PlainAEAD.
Definition encrypt (iv plaintext associated_data : bytes) : bytes :=
  flat_map (fun b => ["001"%byte; b]) associated_data ++ "000"%byte :: plaintext.

Fixpoint decrypt (ciphertext associated_data : bytes) : option bytes :=
  match associated_data, ciphertext with
  | [], t :: rest => if Byte.eqb t "000"%byte then Some rest else None
  | a :: aad', t :: b :: rest =>
      if Byte.eqb t "001"%byte && Byte.eqb a b then decrypt rest aad' else None
  | _, _ => None
  end.
End PlainAEAD.

(** *** Checks on the six levels

    Each is decided on all the choices of six levels by computation. *)

Definition score_in_range (l1 l2 l3 l4 l5 l6 : level) : bool :=
  let score := score_of_levels [l1; l2; l3; l4; l5; l6] in
  PrimFloat.leb 0.066%float score && PrimFloat.leb score 1%float.

(** A critical field ([assessment], [medications], [allergies]: the third,
    fifth and sixth required field) is absent: the score is below the
    threshold. *)
Definition critical_absent_below (l1 l2 l3 l4 l5 l6 : level) : bool :=
  if is_absent l3 || is_absent l5 || is_absent l6
  then PrimFloat.ltb (score_of_levels [l1; l2; l3; l4; l5; l6]) COMPLETENESS_THRESHOLD
       && negb (PrimFloat.leb COMPLETENESS_THRESHOLD
                  (score_of_levels [l1; l2; l3; l4; l5; l6]))
  else true.

(** The level of a list field: absent, or high. *)
Definition list_level (l : level) : bool :=
  match l with Absent | High => true | _ => false end.

(** No field is absent (the third, fifth and sixth are list fields): the
    score is 0.933 or more. *)
Definition all_present_above (l1 l2 l3 l4 l5 l6 : level) : bool :=
  if is_absent l1 || is_absent l2 || is_absent l3
     || is_absent l4 || is_absent l5 || is_absent l6
     || negb (list_level l3 && list_level l5 && list_level l6)
  then true
  else PrimFloat.leb 0.933%float (score_of_levels [l1; l2; l3; l4; l5; l6])
       && PrimFloat.leb COMPLETENESS_THRESHOLD (score_of_levels [l1; l2; l3; l4; l5; l6]).


(** ** The local extractor ([local/services/local_extraction.py]) *)

(** [LocalExtractor.repair_fields].  [extract] is the method of that name
    (the rule-based extraction of a whole record; [Raise] if it fails).  A
    list value is copied element by element, which leaves it the same list
    of items. *)
Definition local_repair_fields
  (extract : string -> string -> result ClinicalRecord)
  (note_text : string) (current_record : ClinicalRecord)
  (fields_to_repair : list string) (locale : string) : result (dict value) :=
  full <- extract note_text locale ;;
  Ok (fold_left
        (fun result field =>
           if String.eqb field "contradictions" then result
           else
             match getattr full field with
             | VNone => result
             | val => dict_set result field val
             end)
        fields_to_repair []).

(** The local extractor as an [Extractor]: every call answers alike. *)
Definition LocalExtractor (extract : string -> string -> result ClinicalRecord)
  : Extractor :=
  fun _ => local_repair_fields extract.

(** [r] with its field [f] taken from [full]. *)
Definition copy_field (full r : ClinicalRecord) (f : string) : ClinicalRecord :=
  if String.eqb f "chief_complaint" then
    mkClinicalRecord (chief_complaint full) (hpi r) (assessment r) (plan r)
      (medications r) (allergies r) (red_flags r) (follow_up r)
      (patient_summary_plain_language r)
  else if String.eqb f "hpi" then
    mkClinicalRecord (chief_complaint r) (hpi full) (assessment r) (plan r)
      (medications r) (allergies r) (red_flags r) (follow_up r)
      (patient_summary_plain_language r)
  else if String.eqb f "assessment" then
    mkClinicalRecord (chief_complaint r) (hpi r) (assessment full) (plan r)
      (medications r) (allergies r) (red_flags r) (follow_up r)
      (patient_summary_plain_language r)
  else if String.eqb f "plan" then
    mkClinicalRecord (chief_complaint r) (hpi r) (assessment r) (plan full)
      (medications r) (allergies r) (red_flags r) (follow_up r)
      (patient_summary_plain_language r)
  else if String.eqb f "medications" then
    mkClinicalRecord (chief_complaint r) (hpi r) (assessment r) (plan r)
      (medications full) (allergies r) (red_flags r) (follow_up r)
      (patient_summary_plain_language r)
  else if String.eqb f "allergies" then
    mkClinicalRecord (chief_complaint r) (hpi r) (assessment r) (plan r)
      (medications r) (allergies full) (red_flags r) (follow_up r)
      (patient_summary_plain_language r)
  else if String.eqb f "red_flags" then
    mkClinicalRecord (chief_complaint r) (hpi r) (assessment r) (plan r)
      (medications r) (allergies r) (red_flags full) (follow_up r)
      (patient_summary_plain_language r)
  else if String.eqb f "follow_up" then
    mkClinicalRecord (chief_complaint r) (hpi r) (assessment r) (plan r)
      (medications r) (allergies r) (red_flags r) (follow_up full)
      (patient_summary_plain_language r)
  else if String.eqb f "patient_summary_plain_language" then
    mkClinicalRecord (chief_complaint r) (hpi r) (assessment r) (plan r)
      (medications r) (allergies r) (red_flags r) (follow_up r)
      (patient_summary_plain_language full)
  else r.

(** An entry of a repair answer that [_apply_repair] passes over: a key
    that is no field of the schema, the value [None], or the text
    [unknown]. *)
Definition ignored_entry (fv : string * value) : Prop :=
  ~ In (fst fv) schema_fields \/ snd fv = VNone \/ is_unknown (snd fv) = true.

(** A record with every required field filled in. *)
Definition complete_record : ClinicalRecord :=
  mkClinicalRecord
    (Some "Chest pain") (Some "55yo male with chest pain for 2 hours")
    [Problem.mk "Chest pain, rule out acute coronary syndrome" (Some "active") None None]
    (Some "EKG stat, troponins q6h") [Medication.mk "Aspirin" (Some "325mg") None None None]
    [Allergy.mk "Penicillin" (Some "rash") None] [] None None.


(** ** The sync endpoint ([cloud/routers/sync.py]) and its store
    ([cloud/services/firestore_service.py]) *)

Inductive Mode : Type := demo | prod.

Definition Mode_value (m : Mode) : string :=
  match m with demo => "demo" | prod => "prod" end.

(** [Mode(text)], as the field [mode] of a request is read: a text that is
    no value of the enumeration is refused. *)
Definition Mode_of_value (text : string) : option Mode :=
  if String.eqb text "demo" then Some demo
  else if String.eqb text "prod" then Some prod
  else None.

Module ModelInfo.
Record t : Type := mk
  { name : string;
    version : string;
    runtime : string }.
End ModelInfo.

Module StructuredResult.
Record t : Type := mk
  { note_id : string;
    created_at : string;
    schema_version : string;
    record : ClinicalRecord;
    flags : Flags;
    model_info : ModelInfo.t }.
End StructuredResult.

(** The documents that the endpoint writes.  An encounter is the dump of a
    [StructuredResult], which has no field for the text of the note. *)
Inductive document : Type :=
| EncounterDoc (result : StructuredResult.t)
| RawNoteDoc (note_id note_text created_at : string)
| KeyDoc (note_id created_at : string).

(** Firestore: documents under their paths
    [collection / document / collection / document].  [set] overwrites:
    the binding that was added last is the one that [get] finds. *)
Definition path : Type := list string.

Fixpoint path_eqb (p q : path) : bool :=
  match p, q with
  | [], [] => true
  | a :: p', b :: q' => String.eqb a b && path_eqb p' q'
  | _, _ => false
  end.

Definition Firestore : Type := list (path * document).

Fixpoint doc_get (fs : Firestore) (p : path) : option document :=
  match fs with
  | [] => None
  | (q, d) :: fs' => if path_eqb q p then Some d else doc_get fs' p
  end.

Definition doc_set (fs : Firestore) (p : path) (d : document) : Firestore :=
  (p, d) :: fs.

Definition encounter_path (uid : string) (mode : Mode) (note_id : string) : path :=
  [(Mode_value mode ++ "_users")%string; uid; "encounters"; note_id].

Definition raw_note_path (uid note_id : string) : path :=
  ["prod_users"; uid; "raw_notes"; note_id].

Definition key_path (uid idempotency_key : string) : path :=
  ["idempotency_keys"; uid; "keys"; idempotency_key].

(** The calls of Firestore that the endpoint makes for an item.  Each of
    them may raise: [fault] is [Some text] when the call raises an
    exception [e] with [str(e) = text], and then the call has written
    nothing.  [now] is [datetime.now(timezone.utc).isoformat()] at the
    call. *)
Inductive firestore_call : Type := CheckKey | SaveEncounter | SaveRawNote | SaveKey.

Definition attempt {A : Type} (fault : option string) (a : A) : A + string :=
  match fault with
  | Some text => inr text
  | None => inl a
  end.

Definition save_encounter (fault : option string) (fs : Firestore) (uid : string)
  (mode : Mode) (result : StructuredResult.t) : Firestore + string :=
  attempt fault
    (doc_set fs (encounter_path uid mode (StructuredResult.note_id result))
       (EncounterDoc result)).

Definition save_encounter_from_sync (fault : option string) (fs : Firestore)
  (uid : string) (mode : Mode) (result : StructuredResult.t) : Firestore + string :=
  save_encounter fault fs uid mode result.

Definition save_raw_note (fault : option string) (now : string) (fs : Firestore)
  (uid note_id note_text : string) : Firestore + string :=
  attempt fault
    (doc_set fs (raw_note_path uid note_id) (RawNoteDoc note_id note_text now)).

Definition check_idempotency_key (fault : option string) (fs : Firestore)
  (uid idempotency_key : string) : bool + string :=
  attempt fault (is_some (doc_get fs (key_path uid idempotency_key))).

Definition save_idempotency_key (fault : option string) (now : string)
  (fs : Firestore) (uid idempotency_key note_id : string) : Firestore + string :=
  attempt fault (doc_set fs (key_path uid idempotency_key) (KeyDoc note_id now)).

(** The user that [get_current_user] hands to the endpoint. *)
Record User : Type := mkUser
  { uid : string;
    uid_hash : string;
    is_anonymous : bool }.

(** The [try] block of the loop of [sync] for one item: the store it leaves
    and, if it raised, the text of the exception.  What was written before
    an exception stays written. *)
Definition sync_item_try (STORE_RAW_NOTES_PROD : bool)
  (fault : firestore_call -> option string) (now : firestore_call -> string)
  (mode : Mode) (uid : string) (item : SyncItem.t) (fs : Firestore)
  : Firestore * option string :=
  match check_idempotency_key (fault CheckKey) fs uid (SyncItem.idempotency_key item) with
  | inr text => (fs, Some text)
  | inl true => (fs, None)
  | inl false =>
      let result :=
        StructuredResult.mk (SyncItem.note_id item) (SyncItem.created_at item)
          (SyncItem.schema_version item) (SyncItem.record item) (SyncItem.flags item)
          (ModelInfo.mk "medgemma" "4b-v1.5" "local") in
      match save_encounter_from_sync (fault SaveEncounter) fs uid mode result with
      | inr text => (fs, Some text)
      | inl fs1 =>
          match
            match mode, STORE_RAW_NOTES_PROD, SyncItem.raw_note_text item with
            | prod, true, Some note_text =>
                save_raw_note (fault SaveRawNote) (now SaveRawNote) fs1 uid
                  (SyncItem.note_id item) note_text
            | _, _, _ => inl fs1
            end
          with
          | inr text => (fs1, Some text)
          | inl fs2 =>
              match save_idempotency_key (fault SaveKey) (now SaveKey) fs2 uid
                      (SyncItem.idempotency_key item) (SyncItem.note_id item) with
              | inr text => (fs2, Some text)
              | inl fs3 => (fs3, None)
              end
          end
      end
  end.

(** The state of the loop: the two lists of the answer and the store. *)
Record SyncState : Type := mkSyncState
  { synced : list string;
    failed : list (string * string);
    firestore : Firestore }.

(** An item that the endpoint refuses before it touches the store. *)
Definition refused (mode : Mode) (item : SyncItem.t) : bool :=
  match mode, SyncItem.raw_note_text item with
  | demo, Some _ => true
  | _, _ => false
  end.

(** One turn of the loop of [sync]. *)
Definition sync_item (STORE_RAW_NOTES_PROD : bool)
  (fault : firestore_call -> option string) (now : firestore_call -> string)
  (mode : Mode) (uid : string) (st : SyncState) (item : SyncItem.t) : SyncState :=
  if refused mode item
  then mkSyncState (synced st)
         (failed st ++ [(SyncItem.note_id item, "raw_note_text must be null in demo mode")])
         (firestore st)
  else
    match sync_item_try STORE_RAW_NOTES_PROD fault now mode uid item (firestore st) with
    | (fs, None) => mkSyncState (synced st ++ [SyncItem.note_id item]) (failed st) fs
    | (fs, Some text) =>
        mkSyncState (synced st) (failed st ++ [(SyncItem.note_id item, text)]) fs
    end.

(** The loop over [req.items]; the faults and the clock of the [i]-th item
    are [faults i] and [clock i]. *)
Fixpoint sync_items (STORE_RAW_NOTES_PROD : bool)
  (faults : nat -> firestore_call -> option string)
  (clock : nat -> firestore_call -> string)
  (mode : Mode) (uid : string) (i : nat) (items : list SyncItem.t) (st : SyncState)
  : SyncState :=
  match items with
  | [] => st
  | item :: rest =>
      sync_items STORE_RAW_NOTES_PROD faults clock mode uid (S i) rest
        (sync_item STORE_RAW_NOTES_PROD (faults i) (clock i) mode uid st item)
  end.

(** [sync]: [None] is the [HTTPException] with status 403.  The metrics
    that the endpoint logs afterwards are outside the model: a failure
    there is caught and changes nothing of the answer. *)
Definition sync (STORE_RAW_NOTES_PROD : bool)
  (faults : nat -> firestore_call -> option string)
  (clock : nat -> firestore_call -> string)
  (mode : Mode) (items : list SyncItem.t) (user : User) (fs : Firestore)
  : option SyncState :=
  match mode, is_anonymous user with
  | prod, true => None
  | _, _ =>
      Some (sync_items STORE_RAW_NOTES_PROD faults clock mode (uid user) 0 items
              (mkSyncState [] [] fs))
  end.

Definition no_faults : nat -> firestore_call -> option string := fun _ _ => None.

(** [POST /v1/sync] as the worker sees it: the body is validated against
    [SyncRequest] (a [mode] of the enumeration, at most 50 items) and
    refused with 422 otherwise; a refusal has neither [synced] nor
    [failed] in its body. *)
Definition post_sync (STORE_RAW_NOTES_PROD : bool)
  (faults : nat -> firestore_call -> option string)
  (clock : nat -> firestore_call -> string)
  (user : User) (fs : Firestore) (req : SyncRequest.t) : http_result :=
  match Mode_of_value (SyncRequest.mode req) with
  | None => HttpResponse 422 [] []
  | Some mode =>
      if (50 <? length (SyncRequest.items req))%nat
      then HttpResponse 422 [] []
      else
        match sync STORE_RAW_NOTES_PROD faults clock mode (SyncRequest.items req)
                user fs with
        | None => HttpResponse 403 [] []
        | Some st =>
            HttpResponse 200 (synced st)
              (map (fun fail => (Some (fst fail), Some (snd fail))) (failed st))
        end
  end.

(** Where a document of the store after a request comes from: an encounter,
    a raw note or a key written for [item] under [uid] and [mode]. *)
Definition written_for (STORE_RAW_NOTES_PROD : bool) (mode : Mode) (uid : string)
  (item : SyncItem.t) (p : path) (d : document) : Prop :=
  refused mode item = false
  /\ match d with
     | EncounterDoc result =>
         p = encounter_path uid mode (SyncItem.note_id item)
         /\ StructuredResult.note_id result = SyncItem.note_id item
         /\ StructuredResult.record result = SyncItem.record item
         /\ StructuredResult.flags result = SyncItem.flags item
     | RawNoteDoc note_id note_text _ =>
         p = raw_note_path uid (SyncItem.note_id item)
         /\ mode = prod /\ STORE_RAW_NOTES_PROD = true
         /\ note_id = SyncItem.note_id item
         /\ SyncItem.raw_note_text item = Some note_text
     | KeyDoc note_id _ =>
         p = key_path uid (SyncItem.idempotency_key item)
         /\ note_id = SyncItem.note_id item
     end.


(** The answer of the endpoint when no call of Firestore fails. *)
Definition accepted (mode : Mode) (items : list SyncItem.t) : list string :=
  map SyncItem.note_id (filter (fun item => negb (refused mode item)) items).

Definition refusals (mode : Mode) (items : list SyncItem.t) : list (string * string) :=
  map (fun item => (SyncItem.note_id item, "raw_note_text must be null in demo mode"))
    (filter (refused mode) items).


(** Sample collaborators and data for the instances below: a device, a
    payload with raw note text, a JSON codec that knows this one payload,
    and a schema validation that accepts it. *)
Module Sample.
Definition settings : LocalSettings := mkLocalSettings "prod" "local-dev-001" 10.

Definition payload : json :=
  JObj [("record", JObj [("chief_complaint", JStr "Test")]);
        ("flags", JObj []);
        ("raw_note_text", JStr "Patient reports chest pain")].

Definition json_dumps (j : json) : string := "payload".

Fixpoint bytes_eqb (a b : bytes) : bool :=
  match a, b with
  | [], [] => true
  | x :: a', y :: b' => Byte.eqb x y && bytes_eqb a' b'
  | _, _ => false
  end.

Definition json_loads (b : bytes) : option json :=
  if bytes_eqb b (utf8_encode "payload") then Some payload else None.

Definition parse_record (j : json) : result ClinicalRecord :=
  match j with
  | JObj _ => Ok (mkClinicalRecord (Some "Test") None [] None [] [] [] None None)
  | _ => Raise ValidationError
  end.

Definition parse_flags (j : json) : result Flags :=
  match j with
  | JObj _ => Ok (mkFlags [] [] [] 0%float)
  | _ => Raise ValidationError
  end.

Definition exn_str (e : exn) : string := "error".

Definition row (note_id status : string) : QueueItem.t :=
  QueueItem.mk note_id ("local-dev-001:" ++ note_id ++ ":0001") "prod"
    (PlainAEAD.encrypt [] (utf8_encode "payload") (utf8_encode note_id))
    status None 0 "2026-01-01 00:00:00" "2026-01-01 00:00:05".

Definition synced_store : Store := mkStore [row "note-001" "synced"] [].
Definition queued_store : Store := mkStore [row "note-001" "queued"] [].
End Sample.

Section Local.

(** *** External collaborators *)

(** Tink's AEAD primitive ([aead.Aead], AES128_GCM) for the persisted
    keyset.  Encryption draws a random nonce: it is the first argument.
    [None] is a [TinkError]. *)
Variable aead_encrypt : bytes -> bytes -> bytes -> bytes.
Variable aead_decrypt : bytes -> bytes -> option bytes.

(** [json.dumps] and [json.loads]. *)
Variable json_dumps : json -> string.
Variable json_loads : bytes -> option json.

(** pydantic's validation of the [record] and [flags] of a [SyncItem]. *)
Variable parse_record : json -> result ClinicalRecord.
Variable parse_flags : json -> result Flags.

(** [str(e)] for an exception. *)
Variable exn_str : exn -> string.

(** [get_local_settings()]. *)
Variable settings : LocalSettings.

(** *** [TinkAEAD] ([local/services/tink_crypto.py]) *)

Definition TinkAEAD_encrypt (iv plaintext associated_data : bytes) : bytes :=
  aead_encrypt iv plaintext associated_data.

Definition TinkAEAD_decrypt (ciphertext associated_data : bytes) : result bytes :=
  match aead_decrypt ciphertext associated_data with
  | Some plaintext => Ok plaintext
  | None => Raise TinkError
  end.

(** *** [QueueManager] *)

(** [uuid] is the value of [uuid.uuid4()], [iv] the nonce of the
    encryption and [now] the clock of the database. *)
Definition enqueue (note_id : string) (payload : json) (mode : string)
  (uuid : string) (iv : bytes) (now : string) (s : Store) : string * Store :=
  let idempotency_key :=
    (DEVICE_ID settings ++ ":" ++ note_id ++ ":" ++ uuid)%string in
  let plaintext := utf8_encode (json_dumps payload) in
  let associated_data := utf8_encode note_id in
  let ciphertext := TinkAEAD_encrypt iv plaintext associated_data in
  (idempotency_key,
   with_queue_items s
     (insert_or_replace
        (QueueItem.mk note_id idempotency_key mode ciphertext "queued"
                      None 0 now now)
        (queue_items s))).

(** The rows are returned whole; the callers read the selected columns
    only. *)
Definition get_pending (limit : Z) (s : Store) : list QueueItem.t :=
  sql_limit limit
    (order_by_created_at_asc
       (filter (fun r => String.eqb (QueueItem.status r) "queued") (queue_items s))).

Definition decrypt_payload (note_id : string) (ciphertext : bytes) : result json :=
  let associated_data := utf8_encode note_id in
  plaintext <- TinkAEAD_decrypt ciphertext associated_data ;;
  match json_loads plaintext with
  | Some j => Ok j
  | None => Raise JSONDecodeError
  end.

Definition set_status (st : string) (now : string) (r : QueueItem.t) : QueueItem.t :=
  QueueItem.mk (QueueItem.note_id r) (QueueItem.idempotency_key r)
    (QueueItem.mode r) (QueueItem.ciphertext r) st (QueueItem.fail_reason r)
    (QueueItem.retry_count r) (QueueItem.created_at r) now.

Definition mark_syncing (note_id : string) (now : string) (s : Store) : Store :=
  with_queue_items s (update_where note_id (set_status "syncing" now) (queue_items s)).

Definition mark_synced (note_id : string) (now : string) (s : Store) : Store :=
  with_queue_items s (update_where note_id (set_status "synced" now) (queue_items s)).

Definition mark_failed (note_id : string) (reason : string) (now : string)
  (s : Store) : Store :=
  with_queue_items s
    (update_where note_id
       (fun r =>
          QueueItem.mk (QueueItem.note_id r) (QueueItem.idempotency_key r)
            (QueueItem.mode r) (QueueItem.ciphertext r) "failed" (Some reason)
            (QueueItem.retry_count r + 1)%Z (QueueItem.created_at r) now)
       (queue_items s)).

Definition reset_for_retry (note_id : string) (now : string) (s : Store) : Store :=
  with_queue_items s (update_where note_id (set_status "queued" now) (queue_items s)).

Definition log_sync_attempt (note_id : string) (ok : bool)
  (response_code : option Z) (error_message : option string)
  (duration_ms : option Z) (s : Store) : Store :=
  mkStore (queue_items s)
    (sync_attempts s
     ++ [mkSyncAttempt note_id (if ok then 1 else 0)%Z response_code
           error_message duration_ms]).

Definition row_metadata (r : QueueItem.t) : dict json :=
  [("note_id", JStr (QueueItem.note_id r));
   ("mode", JStr (QueueItem.mode r));
   ("status", JStr (QueueItem.status r));
   ("created_at", JStr (QueueItem.created_at r))].

(** The body of the loop of [get_all_decrypted]: the entry of one row.
    Unpacking a payload that is not an object raises a [TypeError], which
    the handler catches like any other exception. *)
Definition decrypted_entry (r : QueueItem.t) : dict json :=
  match decrypt_payload (QueueItem.note_id r) (QueueItem.ciphertext r) with
  | Ok (JObj payload) => dict_update (row_metadata r) payload
  | Ok _ | Raise _ => row_metadata r ++ [("error", JStr "Decryption failed")]
  end.

Definition get_all_decrypted (s : Store) : list (dict json) :=
  map decrypted_entry (order_by_created_at_desc (queue_items s)).

(** ** The sync worker ([local/services/sync_worker.py]) *)

(** [payload.pop("raw_note_text", None)] with the payload it leaves. *)
Definition pop_raw_note_text (payload : json) : result (json * dict json) :=
  match payload with
  | JObj d =>
      Ok (match dict_get d "raw_note_text" with Some v => v | None => JNull end,
          dict_remove d "raw_note_text")
  | JArr _ => Raise TypeError
  | _ => Raise AttributeError
  end.

Definition getitem (d : dict json) (k : string) : result json :=
  match dict_get d k with
  | Some v => Ok v
  | None => Raise (KeyError k)
  end.

(** pydantic's validation of an [Optional[str]]. *)
Definition parse_optional_str (v : json) : result (option string) :=
  match v with
  | JNull => Ok None
  | JStr s => Ok (Some s)
  | _ => Raise ValidationError
  end.

(** The body of the [try] in the loop of [sync_batch]: the [SyncItem] of
    one pending row. *)
Definition prepare_item (row : QueueItem.t) : result SyncItem.t :=
  payload <- decrypt_payload (QueueItem.note_id row) (QueueItem.ciphertext row) ;;
  popped <- pop_raw_note_text payload ;;
  let raw_text := fst popped in
  let payload := snd popped in
  let raw_text :=
    if String.eqb (QueueItem.mode row) "demo" then JNull else raw_text in
  record_json <- getitem payload "record" ;;
  flags_json <- getitem payload "flags" ;;
  record <- parse_record record_json ;;
  flags <- parse_flags flags_json ;;
  raw_note_text <- parse_optional_str raw_text ;;
  Ok (SyncItem.mk (QueueItem.note_id row) record flags (QueueItem.created_at row)
        "1.0.0" (QueueItem.idempotency_key row) raw_note_text).

(** The state of the first loop of [sync_batch]. *)
Record Batch : Type := mkBatch
  { batch_store : Store;
    batch_items : list SyncItem.t;
    batch_note_ids : list string }.

Definition prepare_row (now : string) (b : Batch) (row : QueueItem.t) : Batch :=
  let s := mark_syncing (QueueItem.note_id row) now (batch_store b) in
  match prepare_item row with
  | Ok item =>
      mkBatch s (batch_items b ++ [item])
        (batch_note_ids b ++ [QueueItem.note_id row])
  | Raise e =>
      mkBatch (mark_failed (QueueItem.note_id row) (exn_str e) now s)
        (batch_items b) (batch_note_ids b)
  end.

Definition prepare_batch (pending : list QueueItem.t) (now : string) (s : Store)
  : Batch :=
  fold_left (prepare_row now) pending (mkBatch s [] []).

Definition apply_synced (status_code duration_ms : Z) (now : string)
  (s : Store) (nid : string) : Store :=
  log_sync_attempt nid true (Some status_code) None (Some duration_ms)
    (mark_synced nid now s).

Definition apply_failed (status_code duration_ms : Z) (now : string)
  (s : Store) (fail : option string * option string) : Store :=
  let nid := match fst fail with Some n => n | None => "" end in
  let reason := match snd fail with Some r => r | None => "unknown" end in
  log_sync_attempt nid false (Some status_code) (Some reason) (Some duration_ms)
    (mark_failed nid reason now s).

Definition apply_error (e : exn) (duration_ms : Z) (now : string)
  (s : Store) (nid : string) : Store :=
  log_sync_attempt nid false None (Some (exn_str e)) (Some duration_ms)
    (mark_failed nid (exn_str e) now s).

(** [sync_batch].  [post] is the remote endpoint, [now] the clock of the
    database while the batch is assembled and [now'] while the answer is
    applied, [duration_ms] the measured time of the request.  The request
    that was sent, if any, is returned with the summary. *)
Definition sync_batch (post : SyncRequest.t -> http_result)
  (now now' : string) (duration_ms : Z) (s : Store)
  : Summary * option SyncRequest.t * Store :=
  let pending := get_pending (SYNC_BATCH_SIZE settings) s in
  if negb (nonempty pending)
  then (mkSummary 0 0 (Some "No pending items") None None, None, s)
  else
    let b := prepare_batch pending now s in
    if negb (nonempty (batch_items b))
    then (mkSummary 0 (Z.of_nat (length pending)) None None None, None, batch_store b)
    else
      let req := SyncRequest.mk (DEVICE_ID settings) (MODE settings) (batch_items b) in
      match post req with
      | HttpResponse status_code synced failed =>
          let s1 := fold_left (apply_synced status_code duration_ms now')
                      synced (batch_store b) in
          let s2 := fold_left (apply_failed status_code duration_ms now')
                      failed s1 in
          (mkSummary (Z.of_nat (length synced)) (Z.of_nat (length failed))
             None (Some duration_ms) None,
           Some req, s2)
      | HttpError e =>
          let s1 := fold_left (apply_error e duration_ms now')
                      (batch_note_ids b) (batch_store b) in
          (mkSummary 0 (Z.of_nat (length (batch_note_ids b))) None None
             (Some (exn_str e)),
           Some req, s1)
      end.

(** The batch that [sync_batch] assembles from a store. *)
Definition outbound_batch (now : string) (s : Store) : Batch :=
  prepare_batch (get_pending (SYNC_BATCH_SIZE settings) s) now s.

(** The items of a batch, row by row: a row that cannot be prepared gives
    no item. *)
Definition prepared_items (pending : list QueueItem.t) : list SyncItem.t :=
  flat_map (fun row => match prepare_item row with
                       | Ok item => [item]
                       | Raise _ => []
                       end) pending.

Definition prepares (row : QueueItem.t) : bool :=
  match prepare_item row with Ok _ => true | Raise _ => false end.

(** [item] is the outbound item of [row]; it carries no raw note text when
    the row is in [demo] mode. *)
Definition built_from (row : QueueItem.t) (item : SyncItem.t) : Prop :=
  prepare_item row = Ok item
  /\ SyncItem.note_id item = QueueItem.note_id row
  /\ SyncItem.idempotency_key item = QueueItem.idempotency_key row
  /\ (QueueItem.mode row = "demo" -> SyncItem.raw_note_text item = None).

(** The rows of a note and their statuses. *)
Definition rows_with (note_id : string) (s : Store) : list QueueItem.t :=
  filter (fun r => String.eqb (QueueItem.note_id r) note_id) (queue_items s).

Definition statuses_of (note_id : string) (s : Store) : list string :=
  map QueueItem.status (rows_with note_id s).

(** What [get_all_decrypted] reports for a row: the metadata of the row
    updated with the fields of its payload (of two equal keys the later one
    counts), or the metadata with the error marker. *)
Definition entry_of_row (row : QueueItem.t) (entry : dict json) : Prop :=
  match decrypt_payload (QueueItem.note_id row) (QueueItem.ciphertext row) with
  | Ok (JObj payload) =>
      entry = dict_update (row_metadata row) payload
      /\ forall k, dict_get entry k
                   = match dict_get (rev payload) k with
                     | Some v => Some v
                     | None => dict_get (row_metadata row) k
                     end
  | Ok _ | Raise _ =>
      entry = row_metadata row ++ [("error", JStr "Decryption failed")]
  end.

(** *** Reading the queue: counts and metadata *)

(** [get_status_counts]: [SELECT status, COUNT( * ) ... GROUP BY status] read
    into a dict.  The groups come in the order the database chooses (here:
    of their first row); only lookups are stated below. *)
Definition get_status_counts (s : Store) : dict Z :=
  fold_left
    (fun counts r =>
       dict_set counts (QueueItem.status r)
         (match dict_get counts (QueueItem.status r) with
          | Some n => n + 1
          | None => 1
          end)%Z)
    (queue_items s) [].

Definition json_of_optional (o : option string) : json :=
  match o with
  | Some t => JStr t
  | None => JNull
  end.

(** [get_all_items_metadata]: the eight selected columns of every row,
    newest first. *)
Definition items_metadata_row (r : QueueItem.t) : dict json :=
  [("note_id", JStr (QueueItem.note_id r));
   ("idempotency_key", JStr (QueueItem.idempotency_key r));
   ("mode", JStr (QueueItem.mode r));
   ("status", JStr (QueueItem.status r));
   ("fail_reason", json_of_optional (QueueItem.fail_reason r));
   ("created_at", JStr (QueueItem.created_at r));
   ("updated_at", JStr (QueueItem.updated_at r));
   ("retry_count", JInt (QueueItem.retry_count r))].

Definition get_all_items_metadata (s : Store) : list (dict json) :=
  map items_metadata_row (order_by_created_at_desc (queue_items s)).

(** The columns that only [enqueue] writes. *)
Definition row_identity (r : QueueItem.t)
  : string * string * string * bytes * string :=
  (QueueItem.note_id r, QueueItem.idempotency_key r, QueueItem.mode r,
   QueueItem.ciphertext r, QueueItem.created_at r).

Definition oldest_first (a b : QueueItem.t) : Prop :=
  String.leb (QueueItem.created_at a) (QueueItem.created_at b) = true.

Definition newest_first (a b : QueueItem.t) : Prop :=
  String.leb (QueueItem.created_at b) (QueueItem.created_at a) = true.

(** One failed delivery of a note followed by its retry. *)
Definition fail_and_retry (note_id reason now : string) (s : Store) : Store :=
  reset_for_retry note_id now (mark_failed note_id reason now s).

Definition count_status (st : string) (s : Store) : Z :=
  Z.of_nat (length (filter (fun r => String.eqb (QueueItem.status r) st) (queue_items s))).


(** *** The statuses that [sync_batch] writes

    A write is a [note_id] with the status set for it; the status of a row
    after a list of writes is the last one written for its [note_id]. *)
Definition apply_writes (writes : list (string * string)) (st note_id : string)
  : string :=
  fold_left (fun st w => if String.eqb note_id (fst w) then snd w else st) writes st.

(** The writes of the first loop: [syncing] for every pending row, then
    [failed] if the row cannot be prepared. *)
Definition prepare_writes (pending : list QueueItem.t) : list (string * string) :=
  flat_map (fun row =>
              (QueueItem.note_id row, "syncing")
              :: (if prepares row then [] else [(QueueItem.note_id row, "failed")]))
    pending.

(** The writes that the answer of the endpoint causes. *)
Definition answer_writes (answer : http_result) (note_ids : list string)
  : list (string * string) :=
  match answer with
  | HttpResponse _ synced failed =>
      map (fun nid => (nid, "synced")) synced
      ++ map (fun fail => (match fst fail with Some n => n | None => "" end, "failed"))
           failed
  | HttpError _ => map (fun nid => (nid, "failed")) note_ids
  end.

Definition sync_batch_writes (post : SyncRequest.t -> http_result) (s : Store)
  : list (string * string) :=
  let pending := get_pending (SYNC_BATCH_SIZE settings) s in
  let items := prepared_items pending in
  prepare_writes pending
  ++ (if nonempty items
      then answer_writes
             (post (SyncRequest.mk (DEVICE_ID settings) (MODE settings) items))
             (map QueueItem.note_id (filter prepares pending))
      else []).

Definition id_status (r : QueueItem.t) : string * string :=
  (QueueItem.note_id r, QueueItem.status r).


(** ** [local_save] ([local/local_api.py]) *)

(** [model_dump(mode="json")] of the classes of the schema. *)
Definition Problem_dump (p : Problem.t) : json :=
  JObj [("description", JStr (Problem.description p));
        ("status", json_of_optional (Problem.status p));
        ("icd10", json_of_optional (Problem.icd10 p));
        ("confidence", json_of_optional (Problem.confidence p))].

Definition Medication_dump (m : Medication.t) : json :=
  JObj [("name", JStr (Medication.name m));
        ("dose", json_of_optional (Medication.dose m));
        ("frequency", json_of_optional (Medication.frequency m));
        ("route", json_of_optional (Medication.route m));
        ("status", json_of_optional (Medication.status m))].

Definition Allergy_dump (a : Allergy.t) : json :=
  JObj [("substance", JStr (Allergy.substance a));
        ("reaction", json_of_optional (Allergy.reaction a));
        ("severity", json_of_optional (Allergy.severity a))].

Definition ClinicalRecord_dump (r : ClinicalRecord) : json :=
  JObj [("chief_complaint", json_of_optional (chief_complaint r));
        ("hpi", json_of_optional (hpi r));
        ("assessment", JArr (map Problem_dump (assessment r)));
        ("plan", json_of_optional (plan r));
        ("medications", JArr (map Medication_dump (medications r)));
        ("allergies", JArr (map Allergy_dump (allergies r)));
        ("red_flags", JArr (map JStr (red_flags r)));
        ("follow_up", json_of_optional (follow_up r));
        ("patient_summary_plain_language",
         json_of_optional (patient_summary_plain_language r))].

Definition Flags_dump (f : Flags) : json :=
  JObj [("missing_fields", JArr (map JStr (missing_fields f)));
        ("contradictions", JArr (map JStr (contradictions f)));
        ("confidence_by_field",
         JObj (map (fun kv => (fst kv, JStr (snd kv))) (confidence_by_field f)));
        ("completeness_score", JFloat (completeness_score f))].

(** The payload that [local_save] hands to [enqueue].  [STORE_RAW_NOTES] is
    the setting of that name; a text that is [None] or empty is falsy. *)
Definition save_payload (STORE_RAW_NOTES : bool) (record : ClinicalRecord)
  (flags : Flags) (note_text : option string) : dict json :=
  let payload := [("record", ClinicalRecord_dump record);
                  ("flags", Flags_dump flags)] in
  match note_text with
  | Some text =>
      if String.eqb (MODE settings) "prod" && STORE_RAW_NOTES
         && negb (String.eqb text "")
      then dict_set payload "raw_note_text" (JStr text)
      else payload
  | None => payload
  end.

(** [local_save]: [None] is the [HTTPException] with status 503 of a queue
    that is not initialised. *)
Definition local_save (STORE_RAW_NOTES : bool) (queue_mgr : option Store)
  (note_id : string) (record : ClinicalRecord) (flags : Flags)
  (note_text : option string) (uuid : string) (iv : bytes) (now : string)
  : option (dict json * Store) :=
  match queue_mgr with
  | None => None
  | Some s =>
      let mode := MODE settings in
      let payload := save_payload STORE_RAW_NOTES record flags note_text in
      let saved := enqueue note_id (JObj payload) mode uuid iv now s in
      Some ([("status", JStr "queued"); ("note_id", JStr note_id);
             ("idempotency_key", JStr (fst saved))],
            snd saved)
  end.

(** The text of the note that the worker sends for a note saved by
    [local_save]. *)
Definition sent_note_text (STORE_RAW_NOTES : bool) (note_text : option string)
  : option string :=
  match note_text with
  | Some text =>
      if String.eqb (MODE settings) "prod" && STORE_RAW_NOTES
         && negb (String.eqb text "")
      then Some text else None
  | None => None
  end.


(* ================================================================== *)
(** * Part II: properties                                              *)
(* ================================================================== *)

(** ** The validator *)

Lemma is_absent_field_level (r : ClinicalRecord) (f : string) :
  is_absent (field_level r f) = negb (_is_field_present r f).
Proof.
  unfold field_level.
  destruct (_is_field_present r f); cbn [negb]; [ | reflexivity ].
  destruct (getattr r f) as [ | val | val | ]; try reflexivity.
  - cbv zeta.
    destruct (5 <=? length (split val))%nat; [ reflexivity | ].
    destruct (2 <=? length (split val))%nat; reflexivity.
  - destruct (1 <=? length val)%nat; reflexivity.
Qed.

Lemma missing_fields_levels (r : ClinicalRecord) (l : list string) :
  filter (fun f => negb (_is_field_present r f)) l
  = missing_of (map (fun f => (f, field_level r f)) l).
Proof.
  unfold missing_of.
  induction l as [ | f l IH ]; [ reflexivity | ].
  cbn [filter map snd fst].
  rewrite is_absent_field_level.
  destruct (negb (_is_field_present r f)); cbn [map fst]; now rewrite IH.
Qed.

Lemma confidence_step (r : ClinicalRecord) (c : dict string) (f : string) :
  (if negb (_is_field_present r f) then dict_set c f "low"
   else
     match getattr r f with
     | VList val =>
         dict_set c f (if (1 <=? length val)%nat then "high" else "low")
     | VStr val =>
         let word_count := length (split val) in
         if (5 <=? word_count)%nat then dict_set c f "high"
         else if (2 <=? word_count)%nat then dict_set c f "medium"
         else dict_set c f "low"
     | _ => dict_set c f "medium"
     end)
  = dict_set c f (label_of (field_level r f)).
Proof.
  unfold field_level.
  destruct (_is_field_present r f); cbn [negb]; [ | reflexivity ].
  destruct (getattr r f) as [ | val | val | ]; try reflexivity.
  - cbv zeta.
    destruct (5 <=? length (split val))%nat; [ reflexivity | ].
    destruct (2 <=? length (split val))%nat; reflexivity.
  - destruct (1 <=? length val)%nat; reflexivity.
Qed.

Lemma compute_confidence_fold (r : ClinicalRecord) (l : list string) (c : dict string) :
  fold_left
    (fun confidence f =>
       if negb (_is_field_present r f) then dict_set confidence f "low"
       else
         match getattr r f with
         | VList val =>
             dict_set confidence f (if (1 <=? length val)%nat then "high" else "low")
         | VStr val =>
             let word_count := length (split val) in
             if (5 <=? word_count)%nat then dict_set confidence f "high"
             else if (2 <=? word_count)%nat then dict_set confidence f "medium"
             else dict_set confidence f "low"
         | _ => dict_set confidence f "medium"
         end) l c
  = fold_left (fun confidence f => dict_set confidence f (label_of (field_level r f))) l c.
Proof.
  revert c. induction l as [ | f l IH ]; intros c; [ reflexivity | ].
  cbn [fold_left]. now rewrite confidence_step, IH.
Qed.

Lemma compute_confidence_levels (r : ClinicalRecord) :
  _compute_confidence r
  = confidence_of (map (fun f => (f, field_level r f)) REQUIRED_FIELDS).
Proof.
  unfold _compute_confidence. rewrite compute_confidence_fold. reflexivity.
Qed.

Lemma combine_levels (r : ClinicalRecord) (l : list string) :
  combine l (map (field_level r) l) = map (fun f => (f, field_level r f)) l.
Proof.
  induction l as [ | f l IH ]; [ reflexivity | ].
  cbn [map combine]. now rewrite IH.
Qed.

Lemma validate_score_levels (r : ClinicalRecord) :
  completeness_score (validate r)
  = score_of_levels (map (field_level r) REQUIRED_FIELDS).
Proof.
  unfold validate, score_of_levels. cbn [completeness_score].
  now rewrite combine_levels, missing_fields_levels, compute_confidence_levels.
Qed.

Lemma present_count_levels (r : ClinicalRecord) (l : list string) :
  count_if (_is_field_present r) l
  = count_if (fun p => negb (is_absent (snd p)))
      (map (fun f => (f, field_level r f)) l).
Proof.
  unfold count_if. f_equal.
  induction l as [ | f l IH ]; [ reflexivity | ].
  cbn [filter map snd].
  rewrite is_absent_field_level, negb_involutive.
  destruct (_is_field_present r f); cbn [length]; now rewrite IH.
Qed.

Lemma spec_completeness_levels (r : ClinicalRecord) :
  spec_completeness r = spec_of_levels (map (field_level r) REQUIRED_FIELDS).
Proof.
  unfold spec_completeness, spec_of_levels.
  rewrite combine_levels.
  unfold present_required_fields, missing_critical_fields, required_confidences.
  rewrite present_count_levels.
  do 3 f_equal.
  - unfold count_if, CRITICAL_FIELDS, REQUIRED_FIELDS.
    cbn [map filter dict_get String.eqb Ascii.eqb Bool.eqb].
    now rewrite !is_absent_field_level.
  - unfold validate. cbn [confidence_by_field].
    rewrite compute_confidence_levels.
    reflexivity.
Qed.

Lemma scores_agree_all : for_all_six scores_agree = true.
Proof. vm_compute. reflexivity. Qed.

Lemma for_all_levels_spec (p : level -> bool) :
  for_all_levels p = true -> forall l, p l = true.
Proof.
  unfold for_all_levels, all_levels. cbn [forallb].
  intros H l. repeat (apply andb_true_iff in H; destruct H as [? H]).
  destruct l; assumption.
Qed.

Lemma for_all_six_spec
  (p : level -> level -> level -> level -> level -> level -> bool) :
  for_all_six p = true -> forall l1 l2 l3 l4 l5 l6, p l1 l2 l3 l4 l5 l6 = true.
Proof.
  unfold for_all_six. intros H l1 l2 l3 l4 l5 l6.
  apply (for_all_levels_spec _ (for_all_levels_spec _ (for_all_levels_spec _
          (for_all_levels_spec _ (for_all_levels_spec _
            (for_all_levels_spec _ H l1) l2) l3) l4) l5) l6).
Qed.

Lemma score_of_levels_spec (l1 l2 l3 l4 l5 l6 : level) :
  score_of_levels [l1; l2; l3; l4; l5; l6] = spec_of_levels [l1; l2; l3; l4; l5; l6].
Proof.
  apply FloatAxioms.Leibniz.eqb_spec.
  exact (for_all_six_spec scores_agree scores_agree_all l1 l2 l3 l4 l5 l6).
Qed.

Lemma filter_Subsequence {A : Type} (p : A -> bool) (l : list A) :
  Subsequence (filter p l) l.
Proof.
  induction l as [ | x l IH ]; cbn [filter]; [ constructor | ].
  destruct (p x); now constructor.
Qed.

(** C5.  The completeness score that [validate] returns is the decimal with
    three places nearest to the [spec_score] of the record, that is
    [0.5 * (present / 6) + 0.3 * (1 - missing_critical / 3) + 0.2 * mean],
    clamped to [0, 1]: the formula read in exact arithmetic, with [present]
    the number of required fields that are present, [missing_critical] the
    number of critical fields that are missing and [mean] the mean of the
    confidences of the six required fields (low 0.33, medium 0.66, high 1).
    The code computes it in binary64; both agree for every record. *)
Theorem completeness_score_formula (record : ClinicalRecord) :
  completeness_score (validate record) = spec_completeness record.
Proof.
  rewrite validate_score_levels, spec_completeness_levels.
  exact (score_of_levels_spec
           (field_level record "chief_complaint") (field_level record "hpi")
           (field_level record "assessment") (field_level record "plan")
           (field_level record "medications") (field_level record "allergies")).
Qed.

(** C9.  The flags of [validate]: the keys of [confidence_by_field] are the
    six required fields, in the order of their declaration; [missing_fields]
    is a subsequence of the required fields; and every missing field has
    confidence [low]. *)
Theorem validate_flags_shape (record : ClinicalRecord) :
  dict_keys (confidence_by_field (validate record))
  = ["chief_complaint"; "hpi"; "assessment"; "plan"; "medications"; "allergies"]
  /\ Subsequence (missing_fields (validate record)) REQUIRED_FIELDS
  /\ forall f, In f (missing_fields (validate record)) ->
               dict_get (confidence_by_field (validate record)) f = Some "low".
Proof.
  unfold validate. cbn [confidence_by_field missing_fields].
  rewrite compute_confidence_levels.
  split; [ reflexivity | ].
  split; [ apply filter_Subsequence | ].
  intros f Hf. apply filter_In in Hf. destruct Hf as [Hin Hmiss].
  assert (Hlow : label_of (field_level record f) = "low").
  { unfold field_level. now rewrite Hmiss. }
  unfold REQUIRED_FIELDS in Hin. cbn [In] in Hin.
  repeat (destruct Hin as [ <- | Hin ]; [ cbn; now rewrite Hlow | ]).
  contradiction.
Qed.

(** ** The repair loop *)

Lemma sequence_only_validation {A : Type} (elem : item -> result A) (l : list item) (e : exn) :
  (forall i e', elem i = Raise e' -> e' = ValidationError) ->
  sequence (map elem l) = Raise e -> e = ValidationError.
Proof.
  intros Helem. induction l as [ | i l IH ]; cbn [map sequence]; [ discriminate | ].
  destruct (elem i) as [ a | e' ] eqn:Hi; cbn [bind].
  - destruct (sequence (map elem l)) as [ t | e' ]; cbn [bind]; [ discriminate | ].
    intros H. injection H as <-. now apply IH.
  - intros H. injection H as <-. now apply (Helem i).
Qed.

Lemma as_optional_str_raises (v : option value) (e : exn) :
  as_optional_str v = Raise e -> e = ValidationError.
Proof.
  destruct v as [ [ | s | l | ] | ]; cbn; congruence.
Qed.

Lemma as_list_raises {A : Type} (elem : item -> result A) (v : option value) (e : exn) :
  (forall i e', elem i = Raise e' -> e' = ValidationError) ->
  as_list elem v = Raise e -> e = ValidationError.
Proof.
  intros Helem. destruct v as [ [ | s | l | ] | ]; cbn [as_list]; try congruence.
  now apply sequence_only_validation.
Qed.

Lemma model_validate_raises (data : dict value) (e : exn) :
  model_validate data = Raise e -> e = ValidationError.
Proof.
  unfold model_validate.
  repeat
    match goal with
    | |- bind ?r _ = Raise _ -> _ =>
        let H := fresh "H" in
        destruct r eqn:H; cbn [bind];
        [ | intros E; injection E as <-;
            first [ now apply as_optional_str_raises in H
                  | apply as_list_raises in H; [ exact H | ];
                    intros [] ?; cbn; congruence ] ]
    end.
  discriminate.
Qed.

Lemma apply_repair_raises
  (record : ClinicalRecord) (note_text : string) (fields : list string)
  (repair_fields : string -> ClinicalRecord -> list string -> string -> result (dict value))
  (locale : string) (e : exn) :
  _apply_repair record note_text fields repair_fields locale = Raise e ->
  e = ValidationError.
Proof.
  unfold _apply_repair.
  destruct (repair_fields note_text record fields locale); [ | discriminate ].
  apply model_validate_raises.
Qed.

(** Closes the four parts of the invariant below for a run that returned
    [r] with the flags of [r]. *)
Ltac returned r :=
  split; [ lia | split; [ lia | split; [ reflexivity | intros _; now exists r ] ] ].

(** The loop with an extractor, [remaining] iterations before the end of
    [range(max_repairs + 1)]. *)
Lemma repair_loop_invariant
  (ext : Extractor) (note_text locale : string) (max_repairs : Z)
  (remaining : nat) :
  forall (attempt : Z) (record : ClinicalRecord) (flags : option Flags) (nv nc : nat),
    attempt = (max_repairs + 1 - Z.of_nat remaining)%Z ->
    (remaining = 0 -> flags = Some (validate record)) ->
    let run := repair_loop (Some ext) note_text locale max_repairs
                 remaining attempt record flags nv nc in
    validations run <= nv + remaining
    /\ extractor_calls run <= nc + pred remaining
    /\ match outcome run with
       | Ok (r, fl) => fl = validate r
       | Raise e => e = ValidationError
       end
    /\ (validations run = nv + remaining ->
        exists r, outcome run = Ok (r, validate r)).
Proof.
  induction remaining as [ | k IH ]; intros attempt record flags nv nc Hat Hfl.
  - rewrite (Hfl eq_refl). cbn. returned record.
  - cbn [repair_loop].
    destruct (good_enough (validate record)).
    { cbn. returned record. }
    destruct (attempt <? max_repairs)%Z eqn:Hlt.
    + apply Z.ltb_lt in Hlt.
      destruct (negb (nonempty (fields_to_fix_of (validate record)))).
      { cbn. returned record. }
      destruct (_apply_repair record note_text (fields_to_fix_of (validate record))
                  (ext nc) locale) as [ record' | e ] eqn:Hrep.
      * specialize (IH (attempt + 1)%Z record' (Some (validate record)) (S nv) (S nc)).
        cbv zeta in IH.
        destruct IH as (Hv & Hc & Ho & Hcap); [ lia | lia | ].
        split; [ lia | split; [ lia | split; [ exact Ho | ] ] ].
        intros E. apply Hcap. lia.
      * cbn. apply apply_repair_raises in Hrep.
        split; [ lia | split; [ lia | split; [ exact Hrep | lia ] ] ].
    + specialize (IH (attempt + 1)%Z record (Some (validate record)) (S nv) nc).
      cbv zeta in IH.
      destruct IH as (Hv & Hc & Ho & Hcap); [ lia | reflexivity | ].
      split; [ lia | split; [ lia | split; [ exact Ho | ] ] ].
      intros E. apply Hcap. lia.
Qed.

Lemma sequence_map_ok {A : Type} (inj : A -> item) (elem : item -> result A) (l : list A) :
  (forall a, elem (inj a) = Ok a) -> sequence (map elem (map inj l)) = Ok l.
Proof.
  intros H. induction l as [ | a l IH ]; [ reflexivity | ].
  cbn [map sequence]. now rewrite H, IH.
Qed.

Lemma as_optional_str_of_optional (o : option string) :
  as_optional_str (Some (of_optional o)) = Ok o.
Proof. now destruct o. Qed.

(** A record is what its own dump validates to. *)
Lemma model_validate_model_dump (record : ClinicalRecord) :
  model_validate (model_dump record) = Ok record.
Proof.
  destruct record as [cc h a p m al rf fu ps].
  unfold model_validate, model_dump, schema_fields.
  cbn [map dict_get getattr String.eqb Ascii.eqb Bool.eqb
       chief_complaint hpi assessment plan medications allergies red_flags
       follow_up patient_summary_plain_language].
  rewrite !as_optional_str_of_optional. cbn [bind as_list].
  rewrite !sequence_map_ok by reflexivity.
  reflexivity.
Qed.

Lemma apply_repair_idle
  (record : ClinicalRecord) (note_text locale : string) (fields : list string) (n : nat) :
  _apply_repair record note_text fields (idle_extractor n) locale = Ok record.
Proof.
  unfold _apply_repair, idle_extractor. cbn [fold_left].
  apply model_validate_model_dump.
Qed.

Lemma repair_loop_idle
  (note_text locale : string) (max_repairs : Z) (record : ClinicalRecord)
  (remaining : nat) :
  forall (attempt : Z) (flags : option Flags) (nv nc : nat),
    (remaining = 0 -> flags = Some (validate record)) ->
    outcome (repair_loop (Some idle_extractor) note_text locale max_repairs
               remaining attempt record flags nv nc)
    = Ok (record, validate record).
Proof.
  induction remaining as [ | k IH ]; intros attempt flags nv nc Hfl.
  - now rewrite (Hfl eq_refl).
  - cbn [repair_loop].
    destruct (good_enough (validate record)); [ reflexivity | ].
    destruct (attempt <? max_repairs)%Z.
    + destruct (negb (nonempty (fields_to_fix_of (validate record)))); [ reflexivity | ].
      rewrite apply_repair_idle. now apply IH.
    + now apply IH.
Qed.

(** C6.  With [max_repairs = 2] and any extractor, [validate_and_repair]
    returns after at most 3 calls of [validate] and at most 2 calls of the
    extractor.  It never raises for a record that is still incomplete: the
    only exception that can escape is the [ValidationError] of a repair
    value that does not fit the schema, and a run that used all 3 passes
    returns its record with the flags of that record, whatever the score.
    An extractor that finds nothing gives back the record it was given. *)
Theorem repair_loop_bound
  (record : ClinicalRecord) (note_text locale : string) (extractor : Extractor) :
  let run := validate_and_repair record note_text (Some extractor) locale 2 in
  validations run <= 3
  /\ extractor_calls run <= 2
  /\ match outcome run with
     | Ok (r, fl) => fl = validate r
     | Raise e => e = ValidationError
     end
  /\ (validations run = 3 -> exists r, outcome run = Ok (r, validate r))
  /\ outcome (validate_and_repair record note_text (Some idle_extractor) locale 2)
     = Ok (record, validate record).
Proof.
  unfold validate_and_repair. change (Z.to_nat (2 + 1)) with 3.
  pose proof (repair_loop_invariant extractor note_text locale 2 3 0%Z record None 0 0
                eq_refl) as H.
  cbv zeta in H. destruct H as (Hv & Hc & Ho & Hcap); [ discriminate | ].
  split; [ exact Hv | split; [ exact Hc | split; [ exact Ho | split; [ exact Hcap | ] ] ] ].
  apply repair_loop_idle. discriminate.
Qed.

(** The bound is reached: an empty record and an extractor that finds
    nothing use the three passes and the two calls, and the record comes
    back with its score of 0.066. *)
Example idle_extractor_run :
  validate_and_repair ClinicalRecord_default "note" (Some idle_extractor) "en" 2
  = mkRun (Ok (ClinicalRecord_default, validate ClinicalRecord_default)) 3 2
  /\ completeness_score (validate ClinicalRecord_default) = 0.066%float.
Proof. vm_compute. split; reflexivity. Qed.

(** The loop without an extractor: every iteration validates the same
    record again. *)
Lemma repair_loop_no_extractor
  (note_text locale : string) (max_repairs : Z) (record : ClinicalRecord)
  (remaining : nat) :
  forall (attempt : Z) (flags : option Flags) (nv nc : nat),
    repair_loop None note_text locale max_repairs (S remaining) attempt record flags nv nc
    = mkRun (Ok (record, validate record))
        (nv + if good_enough (validate record) then 1 else S remaining) nc.
Proof.
  induction remaining as [ | k IH ]; intros attempt flags nv nc.
  - cbn [repair_loop]. destruct (good_enough (validate record)); f_equal; lia.
  - change (repair_loop None note_text locale max_repairs (S (S k)) attempt record flags nv nc)
      with (if good_enough (validate record)
            then mkRun (Ok (record, validate record)) (S nv) nc
            else repair_loop None note_text locale max_repairs (S k) (attempt + 1)%Z
                   record (Some (validate record)) (S nv) nc).
    rewrite IH. destruct (good_enough (validate record)); f_equal; lia.
Qed.

(** C7 (as the code has it).  Without an extractor, [validate_and_repair]
    returns the record it was given with the flags of [validate], and calls
    no extractor; it validates once when the record already passes (score at
    least 0.8 and no contradiction), and [max_repairs + 1] times otherwise,
    each time the same record. *)
Theorem no_extractor_result
  (record : ClinicalRecord) (note_text locale : string) (max_repairs : nat) :
  validate_and_repair record note_text None locale (Z.of_nat max_repairs)
  = mkRun (Ok (record, validate record))
      (if good_enough (validate record) then 1 else S max_repairs) 0.
Proof.
  unfold validate_and_repair.
  replace (Z.to_nat (Z.of_nat max_repairs + 1)) with (S max_repairs) by lia.
  apply repair_loop_no_extractor.
Qed.

(** C7 as stated fails: the default record, no extractor, default
    [max_repairs]: three validation passes, not one. *)
Lemma no_extractor_three_passes :
  validations
    (validate_and_repair ClinicalRecord_default "Test note text" None "en"
       MAX_REPAIR_ATTEMPTS)
  <> 1.
Proof. vm_compute. discriminate. Qed.

(** ** Text and bytes *)

Lemma utf8_decode_encode_char (c : ascii) (rest : bytes) :
  utf8_decode_char (utf8_char c ++ rest) = Some (c, rest).
Proof.
  destruct c as [[] [] [] [] [] [] [] []]; reflexivity.
Qed.

Lemma utf8_encode_inj (s1 s2 : string) :
  utf8_encode s1 = utf8_encode s2 -> s1 = s2.
Proof.
  revert s2. induction s1 as [ | c1 s1 IH ]; intros [ | c2 s2 ] H.
  - reflexivity.
  - apply (f_equal utf8_decode_char) in H. cbn [utf8_encode] in H.
    rewrite utf8_decode_encode_char in H. discriminate.
  - apply (f_equal utf8_decode_char) in H. cbn [utf8_encode] in H.
    rewrite utf8_decode_encode_char in H. discriminate.
  - apply (f_equal utf8_decode_char) in H. cbn [utf8_encode] in H.
    rewrite !utf8_decode_encode_char in H.
    injection H as -> H. f_equal. now apply IH.
Qed.

Lemma append_inj_l (p s1 s2 : string) : (p ++ s1 = p ++ s2)%string -> s1 = s2.
Proof.
  induction p as [ | c p IH ]; cbn [append]; [ trivial | ].
  intros H. injection H as H. now apply IH.
Qed.

(** ** The queue store *)

Lemma with_queue_items_id (s : Store) : with_queue_items s (queue_items s) = s.
Proof. now destruct s. Qed.

Lemma update_where_absent (note_id : string) (set : QueueItem.t -> QueueItem.t)
  (rows : list QueueItem.t) :
  filter (fun r => String.eqb (QueueItem.note_id r) note_id) rows = [] ->
  update_where note_id set rows = rows.
Proof.
  unfold update_where.
  induction rows as [ | r rows IH ]; [ reflexivity | ].
  cbn [filter map].
  destruct (String.eqb (QueueItem.note_id r) note_id); [ discriminate | ].
  intros H. now rewrite IH.
Qed.

(** C10.  For a [note_id] that has no row, [mark_syncing], [mark_synced],
    [mark_failed] and [reset_for_retry] return the store they were given:
    no row is created and none is changed. *)
Theorem mark_absent_noop (s : Store) (note_id reason now : string) :
  rows_with note_id s = [] ->
  mark_syncing note_id now s = s
  /\ mark_synced note_id now s = s
  /\ mark_failed note_id reason now s = s
  /\ reset_for_retry note_id now s = s.
Proof.
  unfold rows_with, mark_syncing, mark_synced, mark_failed, reset_for_retry.
  intros H. rewrite !update_where_absent by exact H.
  rewrite with_queue_items_id. auto.
Qed.

Lemma statuses_update_where (note_id st : string) (set : QueueItem.t -> QueueItem.t)
  (rows : list QueueItem.t) :
  (forall r, QueueItem.status (set r) = st) ->
  map QueueItem.status (update_where note_id set rows)
  = map (fun r => if String.eqb (QueueItem.note_id r) note_id
                  then st else QueueItem.status r) rows.
Proof.
  intros Hset. unfold update_where. rewrite map_map.
  apply map_ext. intros r.
  destruct (String.eqb (QueueItem.note_id r) note_id); [ apply Hset | reflexivity ].
Qed.

Lemma filter_insert_or_replace (row : QueueItem.t) (rows : list QueueItem.t) :
  filter (fun r => String.eqb (QueueItem.note_id r) (QueueItem.note_id row))
    (insert_or_replace row rows)
  = [row].
Proof.
  unfold insert_or_replace. rewrite filter_app. cbn [filter].
  rewrite String.eqb_refl.
  replace (filter _ (filter _ rows)) with (@nil QueueItem.t); [ reflexivity | ].
  induction rows as [ | r rows IH ]; [ reflexivity | ].
  cbn [filter].
  destruct (String.eqb (QueueItem.note_id r) (QueueItem.note_id row)) eqn:E;
    cbn [negb filter]; [ exact IH | ].
  now rewrite E.
Qed.

Lemma rows_with_enqueue (s : Store) (note_id : string) (payload : json)
  (mode uuid : string) (iv : bytes) (now : string) :
  rows_with note_id (snd (enqueue note_id payload mode uuid iv now s))
  = [QueueItem.mk note_id
       (DEVICE_ID settings ++ ":" ++ note_id ++ ":" ++ uuid)%string mode
       (TinkAEAD_encrypt iv (utf8_encode (json_dumps payload)) (utf8_encode note_id))
       "queued" None 0 now now].
Proof.
  unfold rows_with, enqueue. cbn [snd with_queue_items queue_items].
  apply (filter_insert_or_replace
           (QueueItem.mk note_id _ mode _ "queued" None 0 now now)).
Qed.

(** C1 (as the code has it).  The four transitions are updates of the row of
    the given [note_id] that do not look at its status: [mark_syncing],
    [mark_synced], [mark_failed] and [reset_for_retry] set it to [syncing],
    [synced], [failed] and [queued], from any status, [synced] included, and
    leave the status of every other row; [enqueue] replaces the rows of its
    [note_id] by one [queued] row.  So [synced] is written by [mark_synced]
    alone, and the path enqueue, [mark_syncing], [mark_synced] takes a note
    through [queued], [syncing], [synced]. *)
Theorem status_transitions (s : Store) (note_id reason now : string)
  (payload : json) (mode uuid : string) (iv : bytes) :
  let set_to st :=
    map (fun r => if String.eqb (QueueItem.note_id r) note_id
                  then st else QueueItem.status r) (queue_items s) in
  map QueueItem.status (queue_items (mark_syncing note_id now s)) = set_to "syncing"
  /\ map QueueItem.status (queue_items (mark_synced note_id now s)) = set_to "synced"
  /\ map QueueItem.status (queue_items (mark_failed note_id reason now s))
     = set_to "failed"
  /\ map QueueItem.status (queue_items (reset_for_retry note_id now s))
     = set_to "queued"
  /\ let s1 := snd (enqueue note_id payload mode uuid iv now s) in
     let s2 := mark_syncing note_id now s1 in
     let s3 := mark_synced note_id now s2 in
     statuses_of note_id s1 = ["queued"]
     /\ statuses_of note_id s2 = ["syncing"]
     /\ statuses_of note_id s3 = ["synced"].
Proof.
  cbv zeta.
  unfold mark_syncing, mark_synced, mark_failed, reset_for_retry.
  cbn [queue_items with_queue_items].
  rewrite (statuses_update_where note_id "syncing") by reflexivity.
  rewrite (statuses_update_where note_id "synced") by reflexivity.
  rewrite (statuses_update_where note_id "failed") by reflexivity.
  rewrite (statuses_update_where note_id "queued") by reflexivity.
  repeat (split; [ reflexivity | ]).
  assert (H1 := rows_with_enqueue s note_id payload mode uuid iv now).
  unfold statuses_of. rewrite H1. split; [ reflexivity | ].
  unfold rows_with in *. cbn [queue_items with_queue_items].
  unfold update_where. rewrite !map_map.
  set (rows := queue_items (snd (enqueue note_id payload mode uuid iv now s))) in *.
  clearbody rows.
  assert (Hstep : forall (f : QueueItem.t -> QueueItem.t) (l : list QueueItem.t),
             (forall r, QueueItem.note_id (f r) = QueueItem.note_id r) ->
             filter (fun r => String.eqb (QueueItem.note_id r) note_id)
               (map (fun r => if String.eqb (QueueItem.note_id r) note_id
                              then f r else r) l)
             = map f (filter (fun r => String.eqb (QueueItem.note_id r) note_id) l)).
  { intros f l Hf. induction l as [ | r l IH ]; [ reflexivity | ].
    cbn [map filter].
    destruct (String.eqb (QueueItem.note_id r) note_id) eqn:E.
    - rewrite Hf, E. cbn [map]. now rewrite IH.
    - now rewrite E. }
  split.
  - rewrite Hstep by reflexivity. now rewrite H1.
  - rewrite <- (map_map
                  (fun r => if String.eqb (QueueItem.note_id r) note_id
                            then set_status "syncing" now r else r)
                  (fun r => if String.eqb (QueueItem.note_id r) note_id
                            then set_status "synced" now r else r)).
    rewrite !Hstep by reflexivity. now rewrite H1.
Qed.

(** C4.  Two calls of [enqueue] for one [note_id] leave exactly one row for
    it: the row of the second call, with the ciphertext of the second
    payload, status [queued] and the key that the second call returned.
    Each key is [DEVICE_ID:note_id:uuid] for the uuid drawn in its call, so
    two calls that draw different uuids return different keys. *)
Theorem enqueue_twice (s : Store) (note_id : string)
  (payload1 : json) (mode1 uuid1 : string) (iv1 : bytes) (now1 : string)
  (payload2 : json) (mode2 uuid2 : string) (iv2 : bytes) (now2 : string) :
  uuid1 <> uuid2 ->
  let first := enqueue note_id payload1 mode1 uuid1 iv1 now1 s in
  let second := enqueue note_id payload2 mode2 uuid2 iv2 now2 (snd first) in
  rows_with note_id (snd second)
  = [QueueItem.mk note_id (fst second) mode2
       (TinkAEAD_encrypt iv2 (utf8_encode (json_dumps payload2)) (utf8_encode note_id))
       "queued" None 0 now2 now2]
  /\ fst first = (DEVICE_ID settings ++ ":" ++ note_id ++ ":" ++ uuid1)%string
  /\ fst second = (DEVICE_ID settings ++ ":" ++ note_id ++ ":" ++ uuid2)%string
  /\ fst first <> fst second.
Proof.
  intros Hne. cbv zeta.
  split; [ apply rows_with_enqueue | ].
  split; [ reflexivity | ].
  split; [ reflexivity | ].
  cbn [enqueue fst]. intros H. apply Hne.
  apply append_inj_l in H. cbn [append] in H. injection H as H.
  apply append_inj_l in H. cbn [append] in H. now injection H.
Qed.

(** *** The contract of the AEAD primitive

    What Tink documents for [Aead]: decryption under the associated data of
    the encryption gives the plaintext back, and fails under any other
    associated data. *)
Hypothesis aead_roundtrip :
  forall iv plaintext aad,
    aead_decrypt (aead_encrypt iv plaintext aad) aad = Some plaintext.
Hypothesis aead_binding :
  forall iv plaintext aad aad',
    aad <> aad' -> aead_decrypt (aead_encrypt iv plaintext aad) aad' = None.

(** C2.  Under the contract of the primitive, [TinkAEAD] decrypts what it
    encrypted under the same associated data, and raises under other
    associated data.  In the queue the associated data is the UTF-8
    encoding of the [note_id], at [enqueue] and at [decrypt_payload]: the
    ciphertext stored for a note decrypts to its payload under that
    [note_id], and [decrypt_payload] raises the integrity error under any
    other [note_id]. *)
Theorem aead_bound_to_note_id
  (plaintext aad aad' : bytes)
  (s : Store) (note_id note_id' : string) (payload : json)
  (mode uuid : string) (iv : bytes) (now : string) :
  aad <> aad' ->
  note_id <> note_id' ->
  json_loads (utf8_encode (json_dumps payload)) = Some payload ->
  TinkAEAD_decrypt (TinkAEAD_encrypt iv plaintext aad) aad = Ok plaintext
  /\ TinkAEAD_decrypt (TinkAEAD_encrypt iv plaintext aad) aad' = Raise TinkError
  /\ let stored :=
       map QueueItem.ciphertext
         (rows_with note_id (snd (enqueue note_id payload mode uuid iv now s))) in
     let ciphertext :=
       TinkAEAD_encrypt iv (utf8_encode (json_dumps payload)) (utf8_encode note_id) in
     stored = [ciphertext]
     /\ decrypt_payload note_id ciphertext = Ok payload
     /\ decrypt_payload note_id' ciphertext = Raise TinkError.
Proof.
  intros Haad Hid Hjson. cbv zeta.
  unfold TinkAEAD_decrypt, TinkAEAD_encrypt.
  rewrite aead_roundtrip, (aead_binding _ _ _ _ Haad).
  split; [ reflexivity | ]. split; [ reflexivity | ].
  rewrite rows_with_enqueue. split; [ reflexivity | ].
  unfold decrypt_payload, TinkAEAD_decrypt, TinkAEAD_encrypt.
  rewrite aead_roundtrip. cbn [bind]. rewrite Hjson. split; [ reflexivity | ].
  rewrite aead_binding; [ reflexivity | ].
  intros E. apply Hid. now apply utf8_encode_inj.
Qed.

(** *** Reading the queue *)

Lemma insert_desc_Permutation (x : QueueItem.t) (l : list QueueItem.t) :
  Permutation (insert_desc x l) (x :: l).
Proof.
  induction l as [ | y l IH ]; cbn [insert_desc]; [ reflexivity | ].
  destruct (String.ltb _ _); [ reflexivity | ].
  rewrite IH. apply perm_swap.
Qed.

Lemma insert_asc_Permutation (x : QueueItem.t) (l : list QueueItem.t) :
  Permutation (insert_asc x l) (x :: l).
Proof.
  induction l as [ | y l IH ]; cbn [insert_asc]; [ reflexivity | ].
  destruct (String.ltb _ _); [ reflexivity | ].
  rewrite IH. apply perm_swap.
Qed.

Lemma order_desc_Permutation (rows : list QueueItem.t) :
  Permutation (order_by_created_at_desc rows) rows.
Proof.
  unfold order_by_created_at_desc.
  rewrite (Permutation_rev rows) at 2.
  induction (rev rows) as [ | x l IH ]; cbn [fold_right]; [ reflexivity | ].
  now rewrite insert_desc_Permutation, IH.
Qed.

Lemma order_asc_Permutation (rows : list QueueItem.t) :
  Permutation (order_by_created_at_asc rows) rows.
Proof.
  unfold order_by_created_at_asc.
  rewrite (Permutation_rev rows) at 2.
  induction (rev rows) as [ | x l IH ]; cbn [fold_right]; [ reflexivity | ].
  now rewrite insert_asc_Permutation, IH.
Qed.

Lemma dict_get_set {V : Type} (d : dict V) (k k' : string) (v : V) :
  dict_get (dict_set d k v) k'
  = if String.eqb k k' then Some v else dict_get d k'.
Proof.
  induction d as [ | [k0 v0] d IH ]; cbn [dict_set dict_get]; [ reflexivity | ].
  destruct (String.eqb k0 k) eqn:E0.
  - apply String.eqb_eq in E0. subst k0. cbn [dict_get].
    now destruct (String.eqb k k').
  - cbn [dict_get]. rewrite IH.
    destruct (String.eqb k0 k') eqn:E1; [ | reflexivity ].
    destruct (String.eqb k k') eqn:E2; [ | reflexivity ].
    apply String.eqb_eq in E1, E2. subst. rewrite String.eqb_refl in E0. discriminate.
Qed.

Lemma dict_get_app {V : Type} (d e : dict V) (k : string) :
  dict_get (d ++ e) k
  = match dict_get d k with Some v => Some v | None => dict_get e k end.
Proof.
  induction d as [ | [k0 v0] d IH ]; cbn [app dict_get]; [ reflexivity | ].
  now destruct (String.eqb k0 k).
Qed.

(** [{**d, **e}[k]]: the last value that [e] gives to [k], else the value
    in [d]. *)
Lemma dict_get_update {V : Type} (e d : dict V) (k : string) :
  dict_get (dict_update d e) k
  = match dict_get (rev e) k with Some v => Some v | None => dict_get d k end.
Proof.
  unfold dict_update. revert d.
  induction e as [ | [k1 v1] e IH ]; intros d; cbn [fold_left rev]; [ reflexivity | ].
  rewrite IH, dict_get_app, dict_get_set. cbn [fst snd dict_get].
  destruct (dict_get (rev e) k); [ reflexivity | ].
  now destruct (String.eqb k1 k).
Qed.

Lemma decrypted_entry_spec (row : QueueItem.t) :
  entry_of_row row (decrypted_entry row).
Proof.
  unfold entry_of_row, decrypted_entry.
  destruct (decrypt_payload _ _) as [ [ | | | | | | payload ] | e ]; try reflexivity.
  split; [ reflexivity | apply dict_get_update ].
Qed.

(** C8.  [get_all_decrypted] returns one entry for each row of the queue
    (the rows taken in some order): the metadata of the row updated with the
    fields of its payload when the payload decrypts to an object, and the
    metadata with the marker [error: Decryption failed] otherwise.  The
    entry of a row is a function of that row alone, so a row that does not
    decrypt changes no other entry; the call reads the store and writes
    nothing. *)
Theorem get_all_decrypted_isolated (s : Store) :
  exists rows,
    Permutation rows (queue_items s)
    /\ Forall2 entry_of_row rows (get_all_decrypted s)
    /\ get_all_decrypted s = map decrypted_entry rows.
Proof.
  exists (order_by_created_at_desc (queue_items s)).
  split; [ apply order_desc_Permutation | ].
  split; [ | reflexivity ].
  unfold get_all_decrypted.
  induction (order_by_created_at_desc (queue_items s)) as [ | row rows IH ];
    cbn [map]; constructor; [ apply decrypted_entry_spec | exact IH ].
Qed.

(** ** The batch of the sync worker *)

Lemma prepare_item_built_from (row : QueueItem.t) (item : SyncItem.t) :
  prepare_item row = Ok item -> built_from row item.
Proof.
  intros H. split; [ exact H | ].
  unfold prepare_item in H.
  destruct (decrypt_payload _ _) as [ payload | ]; cbn [bind] in H; [ | discriminate ].
  destruct (pop_raw_note_text payload) as [ popped | ]; cbn [bind] in H; [ | discriminate ].
  destruct (getitem (snd popped) "record") as [ rj | ]; cbn [bind] in H; [ | discriminate ].
  destruct (getitem (snd popped) "flags") as [ fj | ]; cbn [bind] in H; [ | discriminate ].
  destruct (parse_record rj) as [ rec | ]; cbn [bind] in H; [ | discriminate ].
  destruct (parse_flags fj) as [ fl | ]; cbn [bind] in H; [ | discriminate ].
  destruct (String.eqb (QueueItem.mode row) "demo") eqn:Hmode.
  - cbn [parse_optional_str bind] in H. injection H as <-.
    cbn. auto.
  - destruct (parse_optional_str (fst popped)) as [ raw | ]; cbn [bind] in H;
      [ | discriminate ].
    injection H as <-. cbn. repeat split.
    intros Hdemo. rewrite Hdemo in Hmode. discriminate.
Qed.

Lemma prepare_batch_items (now : string) (pending : list QueueItem.t) :
  forall b : Batch,
    batch_items (fold_left (prepare_row now) pending b)
    = batch_items b ++ prepared_items pending.
Proof.
  induction pending as [ | row pending IH ]; intros b; cbn [fold_left].
  - unfold prepared_items. cbn [flat_map]. now rewrite app_nil_r.
  - rewrite IH. unfold prepared_items, prepare_row. cbn [flat_map].
    destruct (prepare_item row); cbn [batch_items]; [ | reflexivity ].
    now rewrite <- app_assoc.
Qed.

Lemma prepared_items_built_from (pending : list QueueItem.t) :
  Forall2 built_from (filter prepares pending) (prepared_items pending).
Proof.
  unfold prepared_items, prepares.
  induction pending as [ | row pending IH ]; cbn [filter flat_map]; [ constructor | ].
  destruct (prepare_item row) as [ item | ] eqn:H; cbn [app]; [ | exact IH ].
  constructor; [ now apply prepare_item_built_from | exact IH ].
Qed.

Lemma In_firstn {A : Type} (n : nat) (l : list A) (x : A) :
  In x (firstn n l) -> In x l.
Proof.
  revert l. induction n as [ | n IH ]; intros [ | y l ]; cbn [firstn In]; try tauto.
  intros [ H | H ]; [ now left | right; now apply IH ].
Qed.

Lemma get_pending_In (limit : Z) (s : Store) (row : QueueItem.t) :
  In row (get_pending limit s) -> In row (queue_items s).
Proof.
  unfold get_pending, sql_limit. intros H.
  assert (H' : In row (order_by_created_at_asc
                         (filter (fun r => String.eqb (QueueItem.status r) "queued")
                            (queue_items s)))).
  { destruct (limit <? 0)%Z; [ exact H | now apply In_firstn in H ]. }
  apply (Permutation_in _ (order_asc_Permutation _)) in H'.
  now apply filter_In in H'.
Qed.

Lemma Forall2_Forall_left {A B : Type} (R : A -> B -> Prop) (P : A -> Prop) (Q : B -> Prop)
  (l : list A) (l' : list B) :
  (forall a b, P a -> R a b -> Q b) -> Forall P l -> Forall2 R l l' -> Forall Q l'.
Proof.
  intros HR HP H. induction H as [ | a b l l' Hab H IH ]; constructor.
  - apply (HR a b); [ now inversion HP | exact Hab ].
  - apply IH. now inversion HP.
Qed.

Lemma demo_store_batch (now : string) (s : Store) :
  Forall (fun r => QueueItem.mode r = "demo") (queue_items s) ->
  Forall (fun item => SyncItem.raw_note_text item = None)
    (batch_items (outbound_batch now s)).
Proof.
  intros Hdemo. unfold outbound_batch, prepare_batch.
  rewrite prepare_batch_items. cbn [batch_items app].
  apply (Forall2_Forall_left built_from (fun r => QueueItem.mode r = "demo") _
           (filter prepares (get_pending (SYNC_BATCH_SIZE settings) s))).
  - intros row item Hrow (_ & _ & _ & H). now apply H.
  - apply Forall_forall. intros row Hin. apply filter_In in Hin.
    destruct Hin as [ Hin _ ]. apply get_pending_In in Hin.
    now apply (proj1 (Forall_forall _ _) Hdemo).
  - apply prepared_items_built_from.
Qed.

Lemma enqueue_demo (s : Store) (note_id : string) (payload : json)
  (uuid : string) (iv : bytes) (now : string) :
  Forall (fun r => QueueItem.mode r = "demo") (queue_items s) ->
  Forall (fun r => QueueItem.mode r = "demo")
    (queue_items (snd (enqueue note_id payload "demo" uuid iv now s))).
Proof.
  intros H. unfold enqueue, insert_or_replace. cbn [snd queue_items with_queue_items].
  apply Forall_app. split.
  - apply Forall_forall. intros r Hin. apply filter_In in Hin.
    now apply (proj1 (Forall_forall _ _) H).
  - now constructor.
Qed.

(** C3.  The items of the batch that [sync_batch] assembles are the items
    of the pending rows that could be prepared, in their order; the request
    that is sent carries exactly these items; and the item of a row in
    [demo] mode has [raw_note_text = None], whatever its payload held and
    whatever the mode of the settings.  In particular, after three notes
    were enqueued in [demo] mode into a new queue, every item of the batch
    has [raw_note_text = None]. *)
Theorem demo_raw_text_stripped
  (post : SyncRequest.t -> http_result) (now now' : string) (duration_ms : Z)
  (s : Store)
  (id1 id2 id3 : string) (payload1 payload2 payload3 : json)
  (uuid1 uuid2 uuid3 : string) (iv1 iv2 iv3 : bytes) (t1 t2 t3 : string) :
  let pending := get_pending (SYNC_BATCH_SIZE settings) s in
  let batch := outbound_batch now s in
  Forall2 built_from (filter prepares pending) (batch_items batch)
  /\ match snd (fst (sync_batch post now now' duration_ms s)) with
     | Some req => SyncRequest.items req = batch_items batch
     | None => True
     end
  /\ let s1 := snd (enqueue id1 payload1 "demo" uuid1 iv1 t1 init_db) in
     let s2 := snd (enqueue id2 payload2 "demo" uuid2 iv2 t2 s1) in
     let s3 := snd (enqueue id3 payload3 "demo" uuid3 iv3 t3 s2) in
     Forall (fun item => SyncItem.raw_note_text item = None)
       (batch_items (outbound_batch now s3)).
Proof.
  cbv zeta. split; [ | split ].
  - unfold outbound_batch, prepare_batch. rewrite prepare_batch_items.
    apply prepared_items_built_from.
  - unfold sync_batch, outbound_batch.
    destruct (negb (nonempty (get_pending (SYNC_BATCH_SIZE settings) s)));
      [ exact I | ].
    destruct (negb (nonempty (batch_items
                (prepare_batch (get_pending (SYNC_BATCH_SIZE settings) s) now s))));
      [ exact I | ].
    now destruct (post _).
  - apply demo_store_batch. do 3 apply enqueue_demo. constructor.
Qed.


(** ** Further properties of the queue store *)

Lemma update_where_map {B : Type} (col : QueueItem.t -> B) (note_id : string)
  (set : QueueItem.t -> QueueItem.t) (rows : list QueueItem.t) :
  map col (update_where note_id set rows)
  = map (fun r => if String.eqb (QueueItem.note_id r) note_id
                  then col (set r) else col r) rows.
Proof.
  unfold update_where. rewrite map_map. apply map_ext. intros r.
  now destruct (String.eqb (QueueItem.note_id r) note_id).
Qed.

Lemma update_where_identity (note_id : string) (set : QueueItem.t -> QueueItem.t)
  (rows : list QueueItem.t) :
  (forall r, row_identity (set r) = row_identity r) ->
  map row_identity (update_where note_id set rows) = map row_identity rows.
Proof.
  intros H. rewrite update_where_map. apply map_ext. intros r.
  now destruct (String.eqb (QueueItem.note_id r) note_id).
Qed.

Lemma rows_with_update_where (note_id : string) (set : QueueItem.t -> QueueItem.t)
  (rows : list QueueItem.t) :
  (forall r, QueueItem.note_id (set r) = QueueItem.note_id r) ->
  filter (fun r => String.eqb (QueueItem.note_id r) note_id) (update_where note_id set rows)
  = map set (filter (fun r => String.eqb (QueueItem.note_id r) note_id) rows).
Proof.
  intros Hset. unfold update_where.
  induction rows as [ | r rows IH ]; [ reflexivity | ].
  cbn [map filter].
  destruct (String.eqb (QueueItem.note_id r) note_id) eqn:E.
  - rewrite Hset, E. cbn [map]. now rewrite IH.
  - now rewrite E.
Qed.

Lemma rows_with_fail_and_retry (note_id reason now : string) (s : Store) :
  rows_with note_id (fail_and_retry note_id reason now s)
  = map (fun r =>
           QueueItem.mk (QueueItem.note_id r) (QueueItem.idempotency_key r)
             (QueueItem.mode r) (QueueItem.ciphertext r) "queued" (Some reason)
             (QueueItem.retry_count r + 1)%Z (QueueItem.created_at r) now)
        (rows_with note_id s).
Proof.
  unfold rows_with, fail_and_retry, reset_for_retry, mark_failed.
  cbn [queue_items with_queue_items].
  rewrite !rows_with_update_where by reflexivity.
  rewrite map_map. reflexivity.
Qed.

Lemma iter_fail_and_retry (note_id reason now : string) (s : Store) (n : nat) :
  map (fun r => (QueueItem.status r, QueueItem.fail_reason r, QueueItem.retry_count r,
                 row_identity r))
    (rows_with note_id (Nat.iter (S n) (fail_and_retry note_id reason now) s))
  = map (fun r => ("queued", Some reason, (QueueItem.retry_count r + Z.of_nat (S n))%Z,
                   row_identity r))
      (rows_with note_id s).
Proof.
  induction n as [ | n IH ].
  - change (Nat.iter 1 (fail_and_retry note_id reason now) s)
      with (fail_and_retry note_id reason now s).
    rewrite rows_with_fail_and_retry, map_map. reflexivity.
  - change (Nat.iter (S (S n)) (fail_and_retry note_id reason now) s)
      with (fail_and_retry note_id reason now
              (Nat.iter (S n) (fail_and_retry note_id reason now) s)).
    rewrite rows_with_fail_and_retry, map_map.
    cbn [QueueItem.status QueueItem.fail_reason QueueItem.retry_count row_identity
         QueueItem.note_id QueueItem.idempotency_key QueueItem.mode QueueItem.ciphertext
         QueueItem.created_at].
    set (g := fun r => (QueueItem.status r, QueueItem.fail_reason r,
                        QueueItem.retry_count r, row_identity r)) in IH.
    transitivity
      (map (fun p : string * option string * Z * (string * string * string * bytes * string) =>
              ("queued", Some reason, (snd (fst p) + 1)%Z, snd p))
         (map g (rows_with note_id
                   (Nat.iter (S n) (fail_and_retry note_id reason now) s)))).
    { rewrite map_map. reflexivity. }
    rewrite IH, map_map. apply map_ext. intros r. cbn [fst snd].
    replace (Z.of_nat (S (S n))) with (Z.of_nat (S n) + 1)%Z by lia.
    now rewrite Z.add_assoc.
Qed.

(** X8.  Retry bookkeeping adds up: after [n + 1] rounds of [mark_failed]
    and [reset_for_retry] on a note, its row is [queued] again, holds the
    last reason, its [retry_count] has grown by exactly [n + 1], and its
    [note_id], idempotency key, mode, ciphertext and [created_at] are the
    ones it had. *)
Theorem retry_count_accumulates (note_id reason now : string) (s : Store) (n : nat) :
  map (fun r => (QueueItem.status r, QueueItem.fail_reason r, QueueItem.retry_count r,
                 row_identity r))
    (rows_with note_id (Nat.iter (S n) (fail_and_retry note_id reason now) s))
  = map (fun r => ("queued", Some reason, (QueueItem.retry_count r + Z.of_nat (S n))%Z,
                   row_identity r))
      (rows_with note_id s).
Proof. apply iter_fail_and_retry. Qed.

Lemma rows_with_enqueue_other (s : Store) (note_id other : string) (payload : json)
  (mode uuid : string) (iv : bytes) (now : string) :
  other <> note_id ->
  rows_with other (snd (enqueue note_id payload mode uuid iv now s)) = rows_with other s.
Proof.
  intros Hne. unfold rows_with, enqueue, insert_or_replace.
  cbn [snd queue_items with_queue_items QueueItem.note_id].
  rewrite filter_app. cbn [filter QueueItem.note_id].
  destruct (String.eqb_spec note_id other) as [ E | _ ]; [ now symmetry in E | ].
  rewrite app_nil_r.
  induction (queue_items s) as [ | r rows IH ]; [ reflexivity | ].
  cbn [filter].
  destruct (String.eqb_spec (QueueItem.note_id r) note_id) as [ E | _ ]; cbn [negb filter].
  - rewrite IH. destruct (String.eqb_spec (QueueItem.note_id r) other) as [ E' | _ ];
      [ congruence | reflexivity ].
  - destruct (String.eqb (QueueItem.note_id r) other); now rewrite IH.
Qed.

(** X9.  Saving a note does not disturb another one: [enqueue] leaves the
    rows of every other [note_id] as they were, status, retry count and
    ciphertext included. *)
Theorem enqueue_keeps_other_notes (s : Store) (note_id other : string) (payload : json)
  (mode uuid : string) (iv : bytes) (now : string) :
  other <> note_id ->
  rows_with other (snd (enqueue note_id payload mode uuid iv now s)) = rows_with other s.
Proof. apply rows_with_enqueue_other. Qed.


(** *** Order of the rows read *)

Lemma ltb_leb (s1 s2 : string) : String.ltb s1 s2 = true -> String.leb s1 s2 = true.
Proof. unfold String.ltb, String.leb. now destruct (String.compare s1 s2). Qed.

Lemma ltb_false_leb (s1 s2 : string) :
  String.ltb s1 s2 = false -> String.leb s2 s1 = true.
Proof.
  unfold String.ltb, String.leb. rewrite (String.compare_antisym s1 s2).
  now destruct (String.compare s2 s1).
Qed.

Lemma insert_asc_Sorted (x : QueueItem.t) (l : list QueueItem.t) :
  Sorted oldest_first l -> Sorted oldest_first (insert_asc x l).
Proof.
  induction l as [ | y l IH ]; intros Hs; cbn [insert_asc].
  - repeat constructor.
  - destruct (String.ltb (QueueItem.created_at x) (QueueItem.created_at y)) eqn:E.
    + constructor; [ exact Hs | constructor; now apply ltb_leb ].
    + apply Sorted_inv in Hs. destruct Hs as [ Hs Hhd ].
      constructor; [ now apply IH | ].
      destruct l as [ | z l ]; cbn [insert_asc].
      * constructor. now apply ltb_false_leb.
      * destruct (String.ltb (QueueItem.created_at x) (QueueItem.created_at z)).
        -- constructor. now apply ltb_false_leb.
        -- constructor. now inversion Hhd.
Qed.

Lemma insert_desc_Sorted (x : QueueItem.t) (l : list QueueItem.t) :
  Sorted newest_first l -> Sorted newest_first (insert_desc x l).
Proof.
  induction l as [ | y l IH ]; intros Hs; cbn [insert_desc].
  - repeat constructor.
  - destruct (String.ltb (QueueItem.created_at y) (QueueItem.created_at x)) eqn:E.
    + constructor; [ exact Hs | constructor; now apply ltb_leb ].
    + apply Sorted_inv in Hs. destruct Hs as [ Hs Hhd ].
      constructor; [ now apply IH | ].
      destruct l as [ | z l ]; cbn [insert_desc].
      * constructor. now apply ltb_false_leb.
      * destruct (String.ltb (QueueItem.created_at z) (QueueItem.created_at x)).
        -- constructor. now apply ltb_false_leb.
        -- constructor. now inversion Hhd.
Qed.

Lemma order_asc_Sorted (rows : list QueueItem.t) :
  Sorted oldest_first (order_by_created_at_asc rows).
Proof.
  unfold order_by_created_at_asc.
  induction (rev rows) as [ | x l IH ]; cbn [fold_right]; [ constructor | ].
  now apply insert_asc_Sorted.
Qed.

Lemma order_desc_Sorted (rows : list QueueItem.t) :
  Sorted newest_first (order_by_created_at_desc rows).
Proof.
  unfold order_by_created_at_desc.
  induction (rev rows) as [ | x l IH ]; cbn [fold_right]; [ constructor | ].
  now apply insert_desc_Sorted.
Qed.

Lemma firstn_Sorted {A : Type} (R : A -> A -> Prop) (n : nat) (l : list A) :
  Sorted R l -> Sorted R (firstn n l).
Proof.
  revert l. induction n as [ | n IH ]; intros [ | x l ] Hs; cbn [firstn];
    try constructor.
  - apply IH. now apply Sorted_inv in Hs.
  - apply Sorted_inv in Hs. destruct Hs as [ _ Hhd ].
    destruct n; destruct l; cbn [firstn]; constructor. now inversion Hhd.
Qed.

Lemma get_pending_prefix (limit : Z) (s : Store) :
  exists rest, get_pending (-1) s = get_pending limit s ++ rest.
Proof.
  unfold get_pending, sql_limit. cbn [Z.ltb Z.compare].
  destruct (limit <? 0)%Z.
  - exists []. now rewrite app_nil_r.
  - eexists. symmetry. apply firstn_skipn.
Qed.

(** X10.  [get_pending] is first in, first out: the rows it returns are
    rows of the queue with status [queued], in the order of their
    [created_at]; they are the first rows of the answer without a limit,
    which holds every queued row once; and there are [limit] of them, or
    all if fewer are queued or [limit] is negative. *)
Theorem get_pending_fifo (limit : Z) (s : Store) :
  let queued :=
    filter (fun r => String.eqb (QueueItem.status r) "queued") (queue_items s) in
  Sorted oldest_first (get_pending limit s)
  /\ Forall (fun r => QueueItem.status r = "queued" /\ In r (queue_items s))
       (get_pending limit s)
  /\ (exists rest, get_pending (-1) s = get_pending limit s ++ rest)
  /\ Permutation (get_pending (-1) s) queued
  /\ length (get_pending limit s)
     = if (limit <? 0)%Z then length queued
       else Nat.min (Z.to_nat limit) (length queued).
Proof.
  cbv zeta. split; [ | split; [ | split; [ | split ] ] ].
  - unfold get_pending, sql_limit.
    destruct (limit <? 0)%Z; [ apply order_asc_Sorted | ].
    apply firstn_Sorted, order_asc_Sorted.
  - apply Forall_forall. intros r Hin. split; [ | now apply get_pending_In in Hin ].
    unfold get_pending, sql_limit in Hin.
    assert (H : In r (order_by_created_at_asc
                        (filter (fun r => String.eqb (QueueItem.status r) "queued")
                           (queue_items s)))).
    { destruct (limit <? 0)%Z; [ exact Hin | now apply In_firstn in Hin ]. }
    apply (Permutation_in _ (order_asc_Permutation _)) in H.
    apply filter_In in H. now apply String.eqb_eq.
  - apply get_pending_prefix.
  - unfold get_pending, sql_limit. cbn [Z.ltb Z.compare]. apply order_asc_Permutation.
  - unfold get_pending, sql_limit.
    pose proof (Permutation_length
                  (order_asc_Permutation
                     (filter (fun r => String.eqb (QueueItem.status r) "queued")
                        (queue_items s)))) as Hlen.
    destruct (limit <? 0)%Z; [ exact Hlen | ].
    now rewrite length_firstn, Hlen.
Qed.

(** *** Counts *)

Lemma status_counts_fold (st : string) (rows : list QueueItem.t) :
  forall acc : dict Z,
    dict_get
      (fold_left
         (fun counts r =>
            dict_set counts (QueueItem.status r)
              (match dict_get counts (QueueItem.status r) with
               | Some n => n + 1
               | None => 1
               end)%Z) rows acc) st
    = let c := Z.of_nat (length (filter (fun r => String.eqb (QueueItem.status r) st) rows)) in
      if (c =? 0)%Z then dict_get acc st
      else Some (match dict_get acc st with Some n => n + c | None => c end)%Z.
Proof.
  induction rows as [ | r rows IH ]; intros acc; [ reflexivity | ].
  cbn [fold_left filter]. rewrite IH. cbv zeta. rewrite dict_get_set.
  destruct (String.eqb (QueueItem.status r) st) eqn:E.
  - apply String.eqb_eq in E. subst st. cbn [length].
    set (c := length (filter _ rows)).
    destruct (Z.of_nat c =? 0)%Z eqn:Ec.
    + apply Z.eqb_eq in Ec.
      replace (Z.of_nat (S c) =? 0)%Z with false by (symmetry; apply Z.eqb_neq; lia).
      f_equal. destruct (dict_get acc (QueueItem.status r)); lia.
    + replace (Z.of_nat (S c) =? 0)%Z with false by (symmetry; apply Z.eqb_neq; lia).
      f_equal. destruct (dict_get acc (QueueItem.status r)); lia.
  - reflexivity.
Qed.

(** X11.  [get_status_counts] counts right: the number it gives for a
    status is the number of rows with that status, and a status that no row
    has is no key of the result. *)
Theorem status_counts_exact (s : Store) (st : string) :
  dict_get (get_status_counts s) st
  = if (count_status st s =? 0)%Z then None else Some (count_status st s).
Proof.
  unfold get_status_counts, count_status. rewrite status_counts_fold. reflexivity.
Qed.

(** X12.  The two listings show the newest row first: both
    [get_all_items_metadata] and [get_all_decrypted] give one entry for each
    row, the rows taken by descending [created_at]; and no entry of the
    metadata listing has a [ciphertext]. *)
Theorem listings_newest_first (s : Store) :
  exists rows,
    Permutation rows (queue_items s)
    /\ Sorted newest_first rows
    /\ get_all_items_metadata s = map items_metadata_row rows
    /\ get_all_decrypted s = map decrypted_entry rows
    /\ Forall (fun entry => dict_get entry "ciphertext" = None
                            /\ dict_keys entry
                               = ["note_id"; "idempotency_key"; "mode"; "status";
                                  "fail_reason"; "created_at"; "updated_at";
                                  "retry_count"])
         (get_all_items_metadata s).
Proof.
  exists (order_by_created_at_desc (queue_items s)).
  split; [ apply order_desc_Permutation | ].
  split; [ apply order_desc_Sorted | ].
  split; [ reflexivity | ]. split; [ reflexivity | ].
  unfold get_all_items_metadata. apply Forall_forall. intros e Hin.
  apply in_map_iff in Hin. destruct Hin as (r & <- & _). split; reflexivity.
Qed.


(** ** What a batch does to the queue *)

Lemma apply_writes_app (ws1 ws2 : list (string * string)) (st nid : string) :
  apply_writes (ws1 ++ ws2) st nid = apply_writes ws2 (apply_writes ws1 st nid) nid.
Proof. unfold apply_writes. apply fold_left_app. Qed.

(** An operation whose effect on the statuses is the list of writes [ws]. *)
Definition writes_of (f : Store -> Store) (ws : list (string * string)) : Prop :=
  forall s,
    map id_status (queue_items (f s))
    = map (fun r => (QueueItem.note_id r,
                     apply_writes ws (QueueItem.status r) (QueueItem.note_id r)))
        (queue_items s).

Lemma writes_of_id : writes_of (fun s => s) [].
Proof. intros s. reflexivity. Qed.

Lemma writes_of_compose (f g : Store -> Store) (ws1 ws2 : list (string * string)) :
  writes_of f ws1 -> writes_of g ws2 -> writes_of (fun s => g (f s)) (ws1 ++ ws2).
Proof.
  intros Hf Hg s. rewrite Hg.
  transitivity
    (map (fun p : string * string => (fst p, apply_writes ws2 (snd p) (fst p)))
       (map id_status (queue_items (f s)))).
  { rewrite map_map. reflexivity. }
  rewrite Hf, map_map. apply map_ext. intros r. cbn [fst snd].
  now rewrite apply_writes_app.
Qed.

Lemma writes_of_update (note_id st : string) (set : QueueItem.t -> QueueItem.t) :
  (forall r, QueueItem.note_id (set r) = QueueItem.note_id r) ->
  (forall r, QueueItem.status (set r) = st) ->
  writes_of (fun s => with_queue_items s (update_where note_id set (queue_items s)))
    [(note_id, st)].
Proof.
  intros Hid Hst s. cbn [queue_items with_queue_items]. unfold id_status.
  rewrite update_where_map. apply map_ext. intros r.
  unfold apply_writes. cbn [fold_left fst snd]. rewrite Hid, Hst.
  now destruct (String.eqb (QueueItem.note_id r) note_id).
Qed.

Lemma writes_of_mark_syncing (nid now : string) :
  writes_of (mark_syncing nid now) [(nid, "syncing")].
Proof. now apply writes_of_update. Qed.

Lemma writes_of_mark_synced (nid now : string) :
  writes_of (mark_synced nid now) [(nid, "synced")].
Proof. now apply writes_of_update. Qed.

Lemma writes_of_mark_failed (nid reason now : string) :
  writes_of (mark_failed nid reason now) [(nid, "failed")].
Proof. now apply writes_of_update. Qed.

Lemma writes_of_log (f : Store -> Store) (ws : list (string * string))
  (nid : string) (ok : bool) (code : option Z) (msg : option string) (d : option Z) :
  writes_of f ws -> writes_of (fun s => log_sync_attempt nid ok code msg d (f s)) ws.
Proof. intros H s. exact (H s). Qed.

Lemma writes_of_ext (f g : Store -> Store) (ws : list (string * string)) :
  (forall s, f s = g s) -> writes_of f ws -> writes_of g ws.
Proof. intros E H s. rewrite <- E. apply H. Qed.

(** A loop over a list, each step with its own writes. *)
Lemma writes_of_fold {A : Type} (step : Store -> A -> Store)
  (w : A -> list (string * string)) (l : list A) :
  (forall a, writes_of (fun s => step s a) (w a)) ->
  writes_of (fun s => fold_left step l s) (flat_map w l).
Proof.
  intros Hstep. induction l as [ | a l IH ]; cbn [fold_left flat_map].
  - apply writes_of_id.
  - apply (writes_of_compose (fun s => step s a) (fun s => fold_left step l s));
      [ apply Hstep | exact IH ].
Qed.

Lemma flat_map_singleton {A B : Type} (f : A -> B) (l : list A) :
  flat_map (fun a => [f a]) l = map f l.
Proof. induction l as [ | a l IH ]; cbn [flat_map map app]; now rewrite ?IH. Qed.

Lemma prepare_batch_fold (now : string) (pending : list QueueItem.t) :
  forall b,
    batch_store (fold_left (prepare_row now) pending b)
    = fold_left
        (fun s row =>
           let s1 := mark_syncing (QueueItem.note_id row) now s in
           match prepare_item row with
           | Ok _ => s1
           | Raise e => mark_failed (QueueItem.note_id row) (exn_str e) now s1
           end)
        pending (batch_store b).
Proof.
  induction pending as [ | row pending IH ]; intros b; [ reflexivity | ].
  cbn [fold_left]. rewrite IH. f_equal.
  unfold prepare_row. now destruct (prepare_item row).
Qed.

Lemma prepare_batch_note_ids (now : string) (pending : list QueueItem.t) :
  forall b,
    batch_note_ids (fold_left (prepare_row now) pending b)
    = batch_note_ids b ++ map QueueItem.note_id (filter prepares pending).
Proof.
  induction pending as [ | row pending IH ]; intros b; cbn [fold_left filter].
  - now rewrite app_nil_r.
  - rewrite IH. unfold prepare_row, prepares.
    destruct (prepare_item row); cbn [batch_note_ids map]; [ | reflexivity ].
    now rewrite <- app_assoc.
Qed.

Lemma writes_of_prepare (now : string) (pending : list QueueItem.t) :
  writes_of (fun s => batch_store (prepare_batch pending now s)) (prepare_writes pending).
Proof.
  apply (writes_of_ext
           (fun s => fold_left
                       (fun s row =>
                          let s1 := mark_syncing (QueueItem.note_id row) now s in
                          match prepare_item row with
                          | Ok _ => s1
                          | Raise e => mark_failed (QueueItem.note_id row) (exn_str e) now s1
                          end) pending s)).
  { intros s. unfold prepare_batch. now rewrite prepare_batch_fold. }
  unfold prepare_writes. apply writes_of_fold. intros row. unfold prepares.
  destruct (prepare_item row) as [ item | e ].
  - apply writes_of_mark_syncing.
  - apply (writes_of_compose (mark_syncing (QueueItem.note_id row) now)
             (mark_failed (QueueItem.note_id row) (exn_str e) now)
             [(QueueItem.note_id row, "syncing")] [(QueueItem.note_id row, "failed")]).
    + apply writes_of_mark_syncing.
    + apply writes_of_mark_failed.
Qed.


Lemma sync_batch_statuses (post : SyncRequest.t -> http_result)
  (now now' : string) (duration_ms : Z) (s : Store) :
  map id_status (queue_items (snd (sync_batch post now now' duration_ms s)))
  = map (fun r => (QueueItem.note_id r,
                   apply_writes (sync_batch_writes post s) (QueueItem.status r)
                     (QueueItem.note_id r)))
      (queue_items s).
Proof.
  unfold sync_batch, sync_batch_writes.
  generalize (get_pending (SYNC_BATCH_SIZE settings) s). intros pending.
  pose proof (writes_of_prepare now pending) as Hprep.
  assert (Hitems : batch_items (prepare_batch pending now s) = prepared_items pending).
  { unfold prepare_batch. now rewrite prepare_batch_items. }
  assert (Hids : batch_note_ids (prepare_batch pending now s)
                 = map QueueItem.note_id (filter prepares pending)).
  { unfold prepare_batch. now rewrite prepare_batch_note_ids. }
  destruct (nonempty pending) eqn:Epe; cbn [negb].
  2:{ destruct pending; [ reflexivity | discriminate ]. }
  rewrite Hitems, Hids.
  destruct (nonempty (prepared_items pending)) eqn:Ene; cbn [negb snd].
  2:{ rewrite app_nil_r. apply Hprep. }
  set (req := SyncRequest.mk (DEVICE_ID settings) (MODE settings) (prepared_items pending)).
  destruct (post req) as [ e | code synced failed ]; cbn [snd answer_writes].
  - apply (writes_of_compose
             (fun s => batch_store (prepare_batch pending now s))
             (fun s => fold_left (apply_error e duration_ms now')
                         (map QueueItem.note_id (filter prepares pending)) s)
             _ _ Hprep).
    rewrite <- (flat_map_singleton (fun nid : string => (nid, "failed"))).
    apply writes_of_fold. intros nid.
    apply (writes_of_log (mark_failed nid (exn_str e) now')), writes_of_mark_failed.
  - apply (writes_of_compose
             (fun s => batch_store (prepare_batch pending now s))
             (fun s => fold_left (apply_failed code duration_ms now') failed
                         (fold_left (apply_synced code duration_ms now') synced s))
             _ _ Hprep).
    apply (writes_of_compose
             (fun s => fold_left (apply_synced code duration_ms now') synced s)
             (fun s => fold_left (apply_failed code duration_ms now') failed s)).
    + rewrite <- (flat_map_singleton (fun nid : string => (nid, "synced"))).
      apply writes_of_fold. intros nid.
      apply (writes_of_log (mark_synced nid now')), writes_of_mark_synced.
    + rewrite <- (flat_map_singleton
                    (fun fail : option string * option string =>
                       (match fst fail with Some n => n | None => "" end, "failed"))).
      apply writes_of_fold. intros fail.
      unfold apply_failed. cbv zeta.
      apply (writes_of_log
               (mark_failed (match fst fail with Some n => n | None => "" end)
                  (match snd fail with Some r => r | None => "unknown" end) now')),
        writes_of_mark_failed.
Qed.

(** The last write decides. *)
Lemma apply_writes_not_in (ws : list (string * string)) (st nid : string) :
  ~ In nid (map fst ws) -> apply_writes ws st nid = st.
Proof.
  revert st. induction ws as [ | w ws IH ]; intros st H; [ reflexivity | ].
  unfold apply_writes. cbn [fold_left]. cbn [map In] in H.
  destruct (String.eqb_spec nid (fst w)) as [ E | _ ].
  - exfalso. apply H. now left.
  - apply IH. intros Hin. apply H. now right.
Qed.


Lemma apply_writes_never (ws : list (string * string)) (st nid v : string) :
  Forall (fun w => snd w <> v) ws -> apply_writes ws st nid = v ->
  st = v /\ ~ In nid (map fst ws).
Proof.
  revert st. induction ws as [ | w ws IH ]; intros st Hall H.
  - split; [ exact H | intros [] ].
  - apply Forall_cons_iff in Hall. destruct Hall as [ Hw Hws ].
    unfold apply_writes in H. cbn [fold_left] in H.
    fold (apply_writes ws (if String.eqb nid (fst w) then snd w else st) nid) in H.
    destruct (IH _ Hws H) as [ Hst Hout ].
    destruct (String.eqb_spec nid (fst w)) as [ E | NE ].
    + now elim Hw.
    + split; [ assumption | ]. cbn [map In]. intros [ E | Hin ]; [ now elim NE | ].
      now apply Hout.
Qed.

Lemma prepare_writes_ids (pending : list QueueItem.t) (nid : string) :
  In nid (map fst (prepare_writes pending)) <-> In nid (map QueueItem.note_id pending).
Proof.
  unfold prepare_writes.
  induction pending as [ | p pending IH ]; [ reflexivity | ].
  cbn [flat_map map]. rewrite map_app, in_app_iff, IH. cbn [map In fst].
  destruct (prepares p); cbn [map In fst]; tauto.
Qed.

Lemma prepare_writes_same (pending : list QueueItem.t) (nid st : string) (ok : bool) :
  (forall p, In p pending -> QueueItem.note_id p = nid -> prepares p = ok) ->
  In nid (map QueueItem.note_id pending) ->
  apply_writes (prepare_writes pending) st nid = if ok then "syncing" else "failed".
Proof.
  revert st. unfold prepare_writes.
  induction pending as [ | p pending IH ]; intros st Hall Hin; [ destruct Hin | ].
  cbn [flat_map]. rewrite apply_writes_app.
  destruct (in_dec string_dec nid (map QueueItem.note_id pending)) as [ Hin' | Hout ].
  - apply IH; [ | exact Hin' ]. intros q Hq. apply Hall. now right.
  - rewrite (apply_writes_not_in (flat_map _ pending));
      [ | intros H; apply Hout; now apply prepare_writes_ids ].
    destruct Hin as [ E | Hin ]; [ | contradiction ].
    pose proof (Hall p (or_introl eq_refl) E) as Hp. rewrite Hp.
    unfold apply_writes. rewrite E.
    destruct ok; cbn [fold_left fst snd]; now rewrite !String.eqb_refl.
Qed.

Lemma answer_writes_not_queued (answer : http_result) (ids : list string) :
  Forall (fun w : string * string => snd w <> "queued") (answer_writes answer ids).
Proof.
  destruct answer as [ e | code synced failed ]; cbn [answer_writes];
    rewrite ?Forall_app; repeat split; apply Forall_forall; intros w Hw;
    apply in_map_iff in Hw; destruct Hw as (x & <- & _); discriminate.
Qed.

Lemma prepare_writes_not_queued (pending : list QueueItem.t) :
  Forall (fun w : string * string => snd w <> "queued") (prepare_writes pending).
Proof.
  unfold prepare_writes. apply Forall_flat_map, Forall_forall. intros p _.
  constructor; [ discriminate | ].
  destruct (prepares p); constructor; [ discriminate | constructor ].
Qed.

(** X13.  [sync_batch] takes every row it picks out of the queue: whatever
    the endpoint answers, a note that is still [queued] after the batch was
    [queued] before it and was not among the rows that [get_pending] gave
    to the batch. *)
Theorem sync_batch_drains (post : SyncRequest.t -> http_result)
  (now now' : string) (duration_ms : Z) (s : Store) (note_id : string) :
  In (note_id, "queued")
    (map id_status (queue_items (snd (sync_batch post now now' duration_ms s)))) ->
  In (note_id, "queued") (map id_status (queue_items s))
  /\ ~ In note_id (map QueueItem.note_id (get_pending (SYNC_BATCH_SIZE settings) s)).
Proof.
  rewrite sync_batch_statuses. intros H.
  apply in_map_iff in H. destruct H as (r & E & Hr).
  injection E as E1 E2. subst note_id.
  apply apply_writes_never in E2.
  - destruct E2 as [ Hst Hout ]. split.
    + apply in_map_iff. exists r. unfold id_status. now rewrite Hst.
    + intros Hin. apply Hout. unfold sync_batch_writes.
      rewrite map_app, in_app_iff. left. now apply prepare_writes_ids.
  - unfold sync_batch_writes. apply Forall_app. split.
    + apply prepare_writes_not_queued.
    + destruct (nonempty _); [ apply answer_writes_not_queued | constructor ].
Qed.


Lemma prepared_items_length (pending : list QueueItem.t) :
  length (prepared_items pending) = length (filter prepares pending).
Proof.
  unfold prepared_items, prepares.
  induction pending as [ | p pending IH ]; [ reflexivity | ].
  cbn [flat_map filter]. destruct (prepare_item p); cbn [app length]; now rewrite IH.
Qed.

Lemma list_in_In (x : string) (l : list string) : list_in x l = true <-> In x l.
Proof.
  unfold list_in. rewrite existsb_exists. split.
  - intros (y & Hy & E). apply String.eqb_eq in E. now subst.
  - intros H. exists x. split; [ exact H | apply String.eqb_refl ].
Qed.

Lemma sent_ids_pending (pending : list QueueItem.t) (nid : string) :
  In nid (map QueueItem.note_id (filter prepares pending)) ->
  In nid (map QueueItem.note_id pending).
Proof.
  intros H. apply in_map_iff in H. destruct H as (p & E & Hp).
  apply filter_In in Hp. apply in_map_iff. exists p. tauto.
Qed.


Lemma NoDup_map_eq {A B : Type} (f : A -> B) (l : list A) (a b : A) :
  NoDup (map f l) -> In a l -> In b l -> f a = f b -> a = b.
Proof.
  induction l as [ | x l IH ]; intros Hnd Ha Hb E; [ destruct Ha | ].
  cbn [map] in Hnd. apply NoDup_cons_iff in Hnd. destruct Hnd as [ Hx Hnd ].
  destruct Ha as [ -> | Ha ], Hb as [ -> | Hb ].
  - reflexivity.
  - elim Hx. rewrite E. now apply in_map.
  - elim Hx. rewrite <- E. now apply in_map.
  - now apply IH.
Qed.

(** The store after [sync_batch] keeps the identity of every row and only
    appends to the audit table. *)
Definition keeps_rows (f : Store -> Store) (n : nat) : Prop :=
  forall s,
    map row_identity (queue_items (f s)) = map row_identity (queue_items s)
    /\ exists new, sync_attempts (f s) = sync_attempts s ++ new /\ length new = n.

Lemma keeps_rows_id : keeps_rows (fun s => s) 0.
Proof. intros s. split; [ reflexivity | ]. exists []. now rewrite app_nil_r. Qed.

Lemma keeps_rows_compose (f g : Store -> Store) (n m : nat) :
  keeps_rows f n -> keeps_rows g m -> keeps_rows (fun s => g (f s)) (n + m).
Proof.
  intros Hf Hg s. destruct (Hf s) as (Hf1 & new1 & Hf2 & Hf3).
  destruct (Hg (f s)) as (Hg1 & new2 & Hg2 & Hg3). split.
  - now rewrite Hg1.
  - exists (new1 ++ new2). rewrite Hg2, Hf2, <- app_assoc, length_app. now subst.
Qed.

Lemma keeps_rows_update (note_id : string) (set : QueueItem.t -> QueueItem.t) :
  (forall r, row_identity (set r) = row_identity r) ->
  keeps_rows (fun s => with_queue_items s (update_where note_id set (queue_items s))) 0.
Proof.
  intros H s. cbn [queue_items sync_attempts with_queue_items]. split.
  - now apply update_where_identity.
  - exists []. now rewrite app_nil_r.
Qed.

Lemma keeps_rows_log (nid : string) (ok : bool) (code : option Z)
  (msg : option string) (d : option Z) :
  keeps_rows (log_sync_attempt nid ok code msg d) 1.
Proof. intros s. split; [ reflexivity | ]. now eexists. Qed.

Lemma keeps_rows_fold {A : Type} (step : Store -> A -> Store) (n : nat) (l : list A) :
  (forall a, keeps_rows (fun s => step s a) n) ->
  keeps_rows (fun s => fold_left step l s) (length l * n).
Proof.
  intros Hstep. induction l as [ | a l IH ]; cbn [fold_left length Nat.mul].
  - apply keeps_rows_id.
  - apply (keeps_rows_compose (fun s => step s a) (fun s => fold_left step l s));
      [ apply Hstep | exact IH ].
Qed.

Lemma keeps_rows_ext (f g : Store -> Store) (n m : nat) :
  (forall s, f s = g s) -> n = m -> keeps_rows f n -> keeps_rows g m.
Proof. intros E <- H s. rewrite <- E. apply H. Qed.

Lemma keeps_rows_mark_failed (nid reason now : string) :
  keeps_rows (mark_failed nid reason now) 0.
Proof. now apply keeps_rows_update. Qed.

Lemma keeps_rows_mark_syncing (nid now : string) :
  keeps_rows (mark_syncing nid now) 0.
Proof. now apply keeps_rows_update. Qed.

Lemma keeps_rows_mark_synced (nid now : string) :
  keeps_rows (mark_synced nid now) 0.
Proof. now apply keeps_rows_update. Qed.

Lemma keeps_rows_prepare (now : string) (pending : list QueueItem.t) :
  keeps_rows (fun s => batch_store (prepare_batch pending now s)) 0.
Proof.
  apply (keeps_rows_ext
           (fun s => fold_left
                       (fun s row =>
                          let s1 := mark_syncing (QueueItem.note_id row) now s in
                          match prepare_item row with
                          | Ok _ => s1
                          | Raise e => mark_failed (QueueItem.note_id row) (exn_str e) now s1
                          end) pending s) _ (length pending * 0)).
  { intros s. unfold prepare_batch. now rewrite prepare_batch_fold. }
  { now rewrite Nat.mul_0_r. }
  apply keeps_rows_fold. intros row. destruct (prepare_item row) as [ item | e ].
  - apply keeps_rows_mark_syncing.
  - apply (keeps_rows_compose (mark_syncing (QueueItem.note_id row) now)
             (mark_failed (QueueItem.note_id row) (exn_str e) now) 0 0).
    + apply keeps_rows_mark_syncing.
    + apply keeps_rows_mark_failed.
Qed.

(** The rows and the audit table through a batch. *)
Lemma sync_batch_rows_audit (post : SyncRequest.t -> http_result)
  (now now' : string) (duration_ms : Z) (s : Store) :
  let '(summary, request, s') := sync_batch post now now' duration_ms s in
  map row_identity (queue_items s') = map row_identity (queue_items s)
  /\ exists new,
       sync_attempts s' = sync_attempts s ++ new
       /\ Z.of_nat (length new)
          = match request with
            | Some _ => (synced_count summary + failed_count summary)%Z
            | None => 0%Z
            end.
Proof.
  unfold sync_batch.
  generalize (get_pending (SYNC_BATCH_SIZE settings) s). intros pending.
  pose proof (keeps_rows_prepare now pending) as Hprep.
  destruct (nonempty pending); cbn [negb].
  2:{ split; [ reflexivity | ]. exists []. now rewrite app_nil_r. }
  destruct (nonempty (batch_items (prepare_batch pending now s))); cbn [negb].
  2:{ destruct (Hprep s) as (H1 & new & H2 & H3). split; [ exact H1 | ].
      exists new. now rewrite H2, H3. }
  set (b := prepare_batch pending now s) in *.
  destruct (post _) as [ e | code synced failed ].
  - cbn [synced_count failed_count].
    destruct (keeps_rows_compose _
                (fun s => fold_left (apply_error e duration_ms now')
                            (batch_note_ids b) s) _ _ Hprep
                (keeps_rows_fold _ 1 _
                   (fun nid => keeps_rows_compose _ _ _ _
                                 (keeps_rows_mark_failed nid (exn_str e) now')
                                 (keeps_rows_log nid false None (Some (exn_str e))
                                    (Some duration_ms)))) s)
      as (H1 & new & H2 & H3).
    split; [ exact H1 | ]. exists new. split; [ exact H2 | ]. rewrite H3. lia.
  - cbn [synced_count failed_count].
    destruct (keeps_rows_compose _
                (fun s => fold_left (apply_failed code duration_ms now') failed
                            (fold_left (apply_synced code duration_ms now') synced s))
                _ _ Hprep
                (keeps_rows_compose
                   (fun s => fold_left (apply_synced code duration_ms now') synced s)
                   (fun s => fold_left (apply_failed code duration_ms now') failed s)
                   _ _
                   (keeps_rows_fold _ 1 _
                      (fun nid => keeps_rows_compose _ _ _ _
                                    (keeps_rows_mark_synced nid now')
                                    (keeps_rows_log nid true (Some code) None
                                       (Some duration_ms))))
                   (keeps_rows_fold _ 1 _
                      (fun fail =>
                         keeps_rows_compose _ _ _ _
                           (keeps_rows_mark_failed
                              (match fst fail with Some n => n | None => "" end)
                              (match snd fail with Some r => r | None => "unknown" end)
                              now')
                           (keeps_rows_log _ false (Some code)
                              (Some (match snd fail with Some r => r | None => "unknown" end))
                              (Some duration_ms))))) s)
      as (H1 & new & H2 & H3).
    split; [ exact H1 | ]. exists new. split; [ exact H2 | ]. rewrite H3. lia.
Qed.

(** X15.  [sync_batch] neither adds nor removes nor re-encrypts a row: the
    [note_id], idempotency key, mode, ciphertext and [created_at] of every
    row are as before, in the same order.  The audit table only grows, and
    by one record for each note that the summary counts when a request was
    sent; rows that fail in preparation leave no audit record. *)
Theorem sync_batch_keeps_rows (post : SyncRequest.t -> http_result)
  (now now' : string) (duration_ms : Z) (s : Store) :
  let '(summary, request, s') := sync_batch post now now' duration_ms s in
  map row_identity (queue_items s') = map row_identity (queue_items s)
  /\ exists new,
       sync_attempts s' = sync_attempts s ++ new
       /\ Z.of_nat (length new)
          = match request with
            | Some _ => (synced_count summary + failed_count summary)%Z
            | None => 0%Z
            end.
Proof. apply sync_batch_rows_audit. Qed.

(** A batch whose answer names no note. *)
Lemma unanswered_batch (post : SyncRequest.t -> http_result) (now now' : string)
  (duration_ms : Z) (s : Store) :
  (forall items,
      exists status_code,
        post (SyncRequest.mk (DEVICE_ID settings) (MODE settings) items)
        = HttpResponse status_code [] []) ->
  NoDup (map QueueItem.note_id (queue_items s)) ->
  let s' := snd (sync_batch post now now' duration_ms s) in
  map id_status (queue_items s')
  = map (fun r =>
           (QueueItem.note_id r,
            if list_in (QueueItem.note_id r)
                 (map QueueItem.note_id (get_pending (SYNC_BATCH_SIZE settings) s))
            then (if prepares r then "syncing" else "failed")
            else QueueItem.status r))
      (queue_items s)
  /\ sync_attempts s' = sync_attempts s.
Proof.
  intros Hpost Hnd s'. split.
  - subst s'. rewrite sync_batch_statuses. apply map_ext_in. intros r Hr. f_equal.
    unfold sync_batch_writes.
    pose proof (fun p => get_pending_In (SYNC_BATCH_SIZE settings) s p) as Hsub.
    revert Hsub. generalize (get_pending (SYNC_BATCH_SIZE settings) s).
    intros pending Hsub.
    destruct (Hpost (prepared_items pending)) as (code & ->).
    cbn [answer_writes map app].
    replace (if nonempty (prepared_items pending) then [] else [])
      with (@nil (string * string)) by now destruct (nonempty _).
    rewrite app_nil_r.
    destruct (list_in (QueueItem.note_id r) (map QueueItem.note_id pending)) eqn:Ein.
    + apply list_in_In in Ein. apply prepare_writes_same; [ | exact Ein ].
      intros p Hp E. f_equal.
      apply (NoDup_map_eq QueueItem.note_id (queue_items s)); auto.
    + apply apply_writes_not_in. intros H. apply prepare_writes_ids in H.
      apply list_in_In in H. congruence.
  - subst s'. unfold sync_batch.
    generalize (get_pending (SYNC_BATCH_SIZE settings) s). intros pending.
    destruct (keeps_rows_prepare now pending s) as (_ & new & H2 & H3).
    destruct new; [ rewrite app_nil_r in H2 | discriminate ].
    destruct (nonempty pending); cbn [negb snd]; [ | reflexivity ].
    destruct (nonempty (batch_items (prepare_batch pending now s)));
      cbn [negb snd]; [ | exact H2 ].
    destruct (Hpost (batch_items (prepare_batch pending now s))) as (code & ->).
    exact H2.
Qed.

(** X16.  An answer that names no note (a rejection of the whole request
    such as 403 or 422, whose body has neither [synced] nor [failed]) is
    not treated as a failure: with one row for each [note_id], every row of
    the batch that could be prepared is left in status [syncing], the rows
    that could not are [failed], no other row changes, and nothing is
    written to the audit table. *)
Theorem unanswered_batch_left_syncing (status_code : Z) (now now' : string)
  (duration_ms : Z) (s : Store) :
  NoDup (map QueueItem.note_id (queue_items s)) ->
  let s' := snd (sync_batch (fun _ => HttpResponse status_code [] [])
                   now now' duration_ms s) in
  map id_status (queue_items s')
  = map (fun r =>
           (QueueItem.note_id r,
            if list_in (QueueItem.note_id r)
                 (map QueueItem.note_id (get_pending (SYNC_BATCH_SIZE settings) s))
            then (if prepares r then "syncing" else "failed")
            else QueueItem.status r))
      (queue_items s)
  /\ sync_attempts s' = sync_attempts s.
Proof.
  intros Hnd. apply unanswered_batch; [ | exact Hnd ].
  intros items. now exists status_code.
Qed.


(** ** The sync endpoint *)

Lemma path_eqb_eq (p q : path) : path_eqb p q = true <-> p = q.
Proof.
  revert q. induction p as [ | a p IH ]; intros [ | b q ]; cbn [path_eqb];
    try (split; [ discriminate | discriminate ]); [ tauto | ].
  rewrite Bool.andb_true_iff, String.eqb_eq, IH. split.
  - now intros [ -> -> ].
  - intros E. now injection E.
Qed.

Lemma path_eqb_refl (p : path) : path_eqb p p = true.
Proof. now apply path_eqb_eq. Qed.

Lemma doc_get_set (fs : Firestore) (p q : path) (d : document) :
  doc_get (doc_set fs p d) q = if path_eqb p q then Some d else doc_get fs q.
Proof. reflexivity. Qed.

(** What the [try] block leaves in the store: every document was there
    before or was written for the item, and no path is lost. *)
Definition grows_for (STORE_RAW_NOTES_PROD : bool) (mode : Mode) (uid : string)
  (item : SyncItem.t) (fs fs' : Firestore) : Prop :=
  (forall p d, doc_get fs' p = Some d ->
               doc_get fs p = Some d
               \/ written_for STORE_RAW_NOTES_PROD mode uid item p d)
  /\ (forall p, is_some (doc_get fs p) = true -> is_some (doc_get fs' p) = true).

Lemma grows_for_refl (S : bool) (mode : Mode) (uid : string) (item : SyncItem.t)
  (fs : Firestore) : grows_for S mode uid item fs fs.
Proof. split; auto. Qed.

Lemma grows_for_set (S : bool) (mode : Mode) (uid : string) (item : SyncItem.t)
  (fs fs' : Firestore) (p : path) (d : document) :
  grows_for S mode uid item fs fs' ->
  written_for S mode uid item p d ->
  grows_for S mode uid item fs (doc_set fs' p d).
Proof.
  intros [ H1 H2 ] Hw. split.
  - intros q d'. rewrite doc_get_set. destruct (path_eqb p q) eqn:E.
    + apply path_eqb_eq in E. subst q. intros [= <-]. now right.
    + apply H1.
  - intros q Hq. rewrite doc_get_set. destruct (path_eqb p q); [ reflexivity | auto ].
Qed.

Lemma sync_item_try_grows (S : bool) (fault : firestore_call -> option string)
  (now : firestore_call -> string) (mode : Mode) (uid : string) (item : SyncItem.t)
  (fs : Firestore) :
  refused mode item = false ->
  grows_for S mode uid item fs
    (fst (sync_item_try S fault now mode uid item fs)).
Proof.
  intros Href. unfold sync_item_try, check_idempotency_key, save_encounter_from_sync,
    save_encounter, save_raw_note, save_idempotency_key, attempt.
  destruct (fault CheckKey); [ apply grows_for_refl | ].
  destruct (is_some (doc_get fs _)); [ apply grows_for_refl | ].
  destruct (fault SaveEncounter); [ apply grows_for_refl | ].
  cbn [StructuredResult.note_id].
  assert (H1 : grows_for S mode uid item fs
                 (doc_set fs (encounter_path uid mode (SyncItem.note_id item))
                    (EncounterDoc
                       (StructuredResult.mk (SyncItem.note_id item)
                          (SyncItem.created_at item) (SyncItem.schema_version item)
                          (SyncItem.record item) (SyncItem.flags item)
                          (ModelInfo.mk "medgemma" "4b-v1.5" "local"))))).
  { apply grows_for_set; [ apply grows_for_refl | ]. split; [ exact Href | ].
    cbn. auto. }
  destruct mode, S, (SyncItem.raw_note_text item) as [ note_text | ] eqn:Eraw;
    try (destruct (fault SaveKey); [ exact H1 | ];
         apply grows_for_set; [ exact H1 | ]; split; [ exact Href | now split ]).
  destruct (fault SaveRawNote); [ exact H1 | ].
  assert (H2 : grows_for true prod uid item fs
                 (doc_set
                    (doc_set fs (encounter_path uid prod (SyncItem.note_id item))
                       (EncounterDoc
                          (StructuredResult.mk (SyncItem.note_id item)
                             (SyncItem.created_at item) (SyncItem.schema_version item)
                             (SyncItem.record item) (SyncItem.flags item)
                             (ModelInfo.mk "medgemma" "4b-v1.5" "local"))))
                    (raw_note_path uid (SyncItem.note_id item))
                    (RawNoteDoc (SyncItem.note_id item) note_text (now SaveRawNote)))).
  { apply grows_for_set; [ exact H1 | ]. split; [ exact Href | ]. cbn. auto. }
  destruct (fault SaveKey); [ exact H2 | ].
  apply grows_for_set; [ exact H2 | ]. split; [ exact Href | now split ].
Qed.

(** An item that the [try] block passes has its key in the store. *)
Lemma sync_item_try_key (S : bool) (fault : firestore_call -> option string)
  (now : firestore_call -> string) (mode : Mode) (uid : string) (item : SyncItem.t)
  (fs : Firestore) :
  snd (sync_item_try S fault now mode uid item fs) = None ->
  is_some (doc_get (fst (sync_item_try S fault now mode uid item fs))
             (key_path uid (SyncItem.idempotency_key item))) = true.
Proof.
  unfold sync_item_try, check_idempotency_key, save_encounter_from_sync,
    save_encounter, save_raw_note, save_idempotency_key, attempt.
  destruct (fault CheckKey); [ discriminate | ].
  destruct (is_some (doc_get fs _)) eqn:Ekey; [ intros _; exact Ekey | ].
  destruct (fault SaveEncounter); [ discriminate | ].
  destruct mode, S, (SyncItem.raw_note_text item);
    try (destruct (fault SaveKey); [ discriminate | ];
         intros _; cbn [fst]; rewrite doc_get_set, path_eqb_refl; reflexivity).
  destruct (fault SaveRawNote); [ discriminate | ].
  destruct (fault SaveKey); [ discriminate | ].
  intros _. cbn [fst]. now rewrite doc_get_set, path_eqb_refl.
Qed.

(** The invariant of the loop. *)
Record sync_invariant (S : bool) (mode : Mode) (uid : string)
  (items : list SyncItem.t) (fs : Firestore) (st : SyncState) : Prop :=
  { inv_answered :
      Permutation (synced st ++ map fst (failed st)) (map SyncItem.note_id items);
    inv_provenance :
      forall p d, doc_get (firestore st) p = Some d ->
                  doc_get fs p = Some d
                  \/ exists item, In item items /\ written_for S mode uid item p d;
    inv_keys :
      forall nid, In nid (synced st) ->
                  exists item,
                    In item items /\ SyncItem.note_id item = nid
                    /\ refused mode item = false
                    /\ is_some (doc_get (firestore st)
                                  (key_path uid (SyncItem.idempotency_key item))) = true }.

Lemma sync_invariant_start (S : bool) (mode : Mode) (uid : string) (fs : Firestore) :
  sync_invariant S mode uid [] fs (mkSyncState [] [] fs).
Proof. split; cbn; [ constructor | auto | intros ? [] ]. Qed.

Lemma sync_item_invariant (S : bool) (fault : firestore_call -> option string)
  (now : firestore_call -> string) (mode : Mode) (uid : string)
  (done : list SyncItem.t) (item : SyncItem.t) (fs : Firestore) (st : SyncState) :
  sync_invariant S mode uid done fs st ->
  sync_invariant S mode uid (done ++ [item]) fs
    (sync_item S fault now mode uid st item).
Proof.
  intros [ Hans Hprov Hkeys ]. unfold sync_item.
  assert (Hweak : forall p d,
             (doc_get fs p = Some d
              \/ exists it, In it done /\ written_for S mode uid it p d) ->
             doc_get fs p = Some d
             \/ exists it, In it (done ++ [item]) /\ written_for S mode uid it p d).
  { intros p d [ H | (it & Hin & Hw) ]; [ now left | right ].
    exists it. split; [ apply in_or_app; now left | exact Hw ]. }
  assert (Hkeep : forall fs', 
             (forall p, is_some (doc_get (firestore st) p) = true ->
                        is_some (doc_get fs' p) = true) ->
             forall nid, In nid (synced st) ->
               exists it, In it (done ++ [item]) /\ SyncItem.note_id it = nid
                          /\ refused mode it = false
                          /\ is_some (doc_get fs'
                                        (key_path uid (SyncItem.idempotency_key it))) = true).
  { intros fs' Hmono nid Hnid. destruct (Hkeys nid Hnid) as (it & Hin & E & Hr & Hk).
    exists it. repeat split; auto. apply in_or_app. now left. }
  destruct (refused mode item) eqn:Href.
  - split; cbn [synced failed firestore].
    + rewrite !map_app, app_assoc. cbn [map fst].
      now apply Permutation_app_tail.
    + intros p d H. apply Hweak. now apply Hprov.
    + apply Hkeep. auto.
  - pose proof (sync_item_try_grows S fault now mode uid item (firestore st) Href)
      as [ Hg1 Hg2 ].
    pose proof (sync_item_try_key S fault now mode uid item (firestore st)) as Hkey.
    destruct (sync_item_try S fault now mode uid item (firestore st))
      as [ fs' [ text | ] ]; cbn [fst snd] in *; split; cbn [synced failed firestore].
    + rewrite !map_app, app_assoc. cbn [map fst].
      now apply Permutation_app_tail.
    + intros p d H. destruct (Hg1 p d H) as [ H' | Hw ].
      * apply Hweak. now apply Hprov.
      * right. exists item. split; [ apply in_or_app; right; now left | exact Hw ].
    + now apply Hkeep.
    + rewrite map_app. cbn [map].
      apply Permutation_trans
        with ((synced st ++ map fst (failed st)) ++ [SyncItem.note_id item]).
      * rewrite <- !app_assoc. apply Permutation_app_head, Permutation_app_comm.
      * now apply Permutation_app_tail.
    + intros p d H. destruct (Hg1 p d H) as [ H' | Hw ].
      * apply Hweak. now apply Hprov.
      * right. exists item. split; [ apply in_or_app; right; now left | exact Hw ].
    + intros nid Hnid. apply in_app_or in Hnid. destruct Hnid as [ Hnid | [ <- | [] ] ].
      * now apply Hkeep.
      * exists item. repeat split; auto. apply in_or_app. right. now left.
Qed.

Lemma sync_items_invariant (S : bool) (faults : nat -> firestore_call -> option string)
  (clock : nat -> firestore_call -> string) (mode : Mode) (uid : string)
  (fs : Firestore) (items : list SyncItem.t) :
  forall (i : nat) (done : list SyncItem.t) (st : SyncState),
    sync_invariant S mode uid done fs st ->
    sync_invariant S mode uid (done ++ items) fs
      (sync_items S faults clock mode uid i items st).
Proof.
  induction items as [ | item items IH ]; intros i done st H; cbn [sync_items].
  - now rewrite app_nil_r.
  - replace (done ++ item :: items) with ((done ++ [item]) ++ items)
      by now rewrite <- app_assoc.
    apply IH. now apply sync_item_invariant.
Qed.

Lemma sync_invariant_holds (S : bool) (faults : nat -> firestore_call -> option string)
  (clock : nat -> firestore_call -> string) (mode : Mode) (items : list SyncItem.t)
  (user : User) (fs : Firestore) (st : SyncState) :
  sync S faults clock mode items user fs = Some st ->
  sync_invariant S mode (uid user) items fs st.
Proof.
  unfold sync. intros H.
  assert (E : st = sync_items S faults clock mode (uid user) 0 items
                     (mkSyncState [] [] fs)).
  { destruct mode, (is_anonymous user); congruence. }
  subst st. apply (sync_items_invariant S faults clock mode (uid user) fs items 0 []).
  apply sync_invariant_start.
Qed.

(** X17.  The endpoint answers for every item once: unless it refuses the
    whole request with 403 (an anonymous user in [prod] mode), the
    [note_id]s of [synced] together with those of [failed] are the
    [note_id]s of the items of the request, each as often as it was sent,
    whichever calls of Firestore fail. *)
Theorem sync_answers_every_item (STORE_RAW_NOTES_PROD : bool)
  (faults : nat -> firestore_call -> option string)
  (clock : nat -> firestore_call -> string) (mode : Mode) (items : list SyncItem.t)
  (user : User) (fs : Firestore) :
  match sync STORE_RAW_NOTES_PROD faults clock mode items user fs with
  | None => mode = prod /\ is_anonymous user = true
  | Some st =>
      Permutation (synced st ++ map fst (failed st)) (map SyncItem.note_id items)
  end.
Proof.
  pose proof (sync_invariant_holds STORE_RAW_NOTES_PROD faults clock mode items user fs)
    as H.
  destruct (sync _ _ _ _ _ _ _) as [ st | ] eqn:E.
  - apply (inv_answered _ _ _ _ _ _ (H st eq_refl)).
  - unfold sync in E. destruct mode, (is_anonymous user); try discriminate. now split.
Qed.

(** X18.  The endpoint writes only what the request brings, and only in the
    caller's own namespace: a document of the store after [sync] was there
    before, or it is the encounter, the key or the raw note of an item of
    the request, under the [uid] of the caller and the collection of the
    mode.  A raw note is written only in [prod] mode with
    [STORE_RAW_NOTES_PROD] set, from an item that carries the text; an item
    refused in [demo] mode writes nothing. *)
Theorem sync_writes_provenance (STORE_RAW_NOTES_PROD : bool)
  (faults : nat -> firestore_call -> option string)
  (clock : nat -> firestore_call -> string) (mode : Mode) (items : list SyncItem.t)
  (user : User) (fs : Firestore) (st : SyncState) (p : path) (d : document) :
  sync STORE_RAW_NOTES_PROD faults clock mode items user fs = Some st ->
  doc_get (firestore st) p = Some d ->
  doc_get fs p = Some d
  \/ exists item,
       In item items /\ written_for STORE_RAW_NOTES_PROD mode (uid user) item p d.
Proof.
  intros H. apply (inv_provenance _ _ _ _ _ _ (sync_invariant_holds _ _ _ _ _ _ _ _ H)).
Qed.

(** X19.  An item is reported as synced only when its idempotency key is on
    record: every [note_id] in [synced] belongs to an item of the request
    that was not refused and whose key document exists in the store that
    the request leaves, even if calls of Firestore failed on the way. *)
Theorem synced_items_have_keys (STORE_RAW_NOTES_PROD : bool)
  (faults : nat -> firestore_call -> option string)
  (clock : nat -> firestore_call -> string) (mode : Mode) (items : list SyncItem.t)
  (user : User) (fs : Firestore) (st : SyncState) (note_id : string) :
  sync STORE_RAW_NOTES_PROD faults clock mode items user fs = Some st ->
  In note_id (synced st) ->
  exists item,
    In item items /\ SyncItem.note_id item = note_id
    /\ refused mode item = false
    /\ is_some (doc_get (firestore st)
                  (key_path (uid user) (SyncItem.idempotency_key item))) = true.
Proof.
  intros H. apply (inv_keys _ _ _ _ _ _ (sync_invariant_holds _ _ _ _ _ _ _ _ H)).
Qed.


Lemma sync_item_try_known (S : bool) (now : firestore_call -> string) (mode : Mode)
  (uid : string) (item : SyncItem.t) (fs : Firestore) :
  is_some (doc_get fs (key_path uid (SyncItem.idempotency_key item))) = true ->
  sync_item_try S (fun _ => None) now mode uid item fs = (fs, None).
Proof.
  intros H. unfold sync_item_try, check_idempotency_key, attempt. now rewrite H.
Qed.

Lemma sync_item_try_no_fault (S : bool) (now : firestore_call -> string) (mode : Mode)
  (uid : string) (item : SyncItem.t) (fs : Firestore) :
  snd (sync_item_try S (fun _ => None) now mode uid item fs) = None.
Proof.
  unfold sync_item_try, check_idempotency_key, save_encounter_from_sync,
    save_encounter, save_raw_note, save_idempotency_key, attempt.
  destruct (is_some (doc_get fs _)); [ reflexivity | ].
  now destruct mode, S, (SyncItem.raw_note_text item).
Qed.

Lemma sync_items_no_faults (S : bool) (clock : nat -> firestore_call -> string)
  (mode : Mode) (uid : string) (items : list SyncItem.t) :
  forall (i : nat) (st : SyncState),
    let st' := sync_items S no_faults clock mode uid i items st in
    synced st' = synced st ++ accepted mode items
    /\ failed st' = failed st ++ refusals mode items
    /\ (forall p, is_some (doc_get (firestore st) p) = true ->
                  is_some (doc_get (firestore st') p) = true)
    /\ (forall item, In item items -> refused mode item = false ->
                     is_some (doc_get (firestore st')
                                (key_path uid (SyncItem.idempotency_key item))) = true).
Proof.
  unfold accepted, refusals.
  induction items as [ | item items IH ]; intros i st; cbn [sync_items].
  - cbn [filter map]. rewrite !app_nil_r. repeat split; auto; try now intros ? [].
  - destruct (IH (Datatypes.S i) (sync_item S (no_faults i) (clock i) mode uid st item))
      as (H1 & H2 & H3 & H4). clear IH.
    cbv zeta. rewrite H1, H2. clear H1 H2. cbn [filter]. unfold sync_item at 1 2.
    unfold no_faults at 1 2. 
    destruct (refused mode item) eqn:Href; cbn [negb map synced failed].
    + repeat split.
      * now rewrite <- app_assoc.
      * intros p Hp. apply H3. unfold sync_item. now rewrite Href.
      * intros it [ <- | Hin ] Hr; [ congruence | now apply H4 ].
    + pose proof (sync_item_try_no_fault S (clock i) mode uid item (firestore st)) as Hn.
      pose proof (sync_item_try_key S (fun _ => None) (clock i) mode uid item
                    (firestore st) Hn) as Hk.
      pose proof (sync_item_try_grows S (fun _ => None) (clock i) mode uid item
                    (firestore st) Href) as [ _ Hmono ].
      assert (Est : firestore (sync_item S (no_faults i) (clock i) mode uid st item)
                    = fst (sync_item_try S (fun _ => None) (clock i) mode uid item
                             (firestore st))).
      { unfold sync_item, no_faults. rewrite Href.
        destruct (sync_item_try _ _ _ _ _ _ _) as [ fs' [ text | ] ]; reflexivity. }
      destruct (sync_item_try S (fun _ => None) (clock i) mode uid item (firestore st))
        as [ fs' [ text | ] ]; [ discriminate | ]. cbn [fst snd synced failed] in *.
      repeat split.
      * now rewrite <- app_assoc.
      * intros p Hp. apply H3. rewrite Est. now apply Hmono.
      * intros it [ <- | Hin ] Hr; [ | now apply H4 ].
        apply H3. now rewrite Est.
Qed.

Lemma sync_items_known (S : bool) (clock : nat -> firestore_call -> string)
  (mode : Mode) (uid : string) (items : list SyncItem.t) :
  forall (i : nat) (st : SyncState),
    (forall item, In item items -> refused mode item = false ->
                  is_some (doc_get (firestore st)
                             (key_path uid (SyncItem.idempotency_key item))) = true) ->
    sync_items S no_faults clock mode uid i items st
    = mkSyncState (synced st ++ accepted mode items) (failed st ++ refusals mode items)
        (firestore st).
Proof.
  unfold accepted, refusals.
  induction items as [ | item items IH ]; intros i st Hkeys; cbn [sync_items].
  - cbn [filter map]. rewrite !app_nil_r. now destruct st.
  - assert (Est : firestore (sync_item S (no_faults i) (clock i) mode uid st item)
                  = firestore st
                  /\ synced (sync_item S (no_faults i) (clock i) mode uid st item)
                     = synced st ++ (if refused mode item then []
                                     else [SyncItem.note_id item])
                  /\ failed (sync_item S (no_faults i) (clock i) mode uid st item)
                     = failed st
                       ++ (if refused mode item
                           then [(SyncItem.note_id item,
                                  "raw_note_text must be null in demo mode")]
                           else [])).
    { unfold sync_item, no_faults. destruct (refused mode item) eqn:Href.
      - cbn [synced failed firestore]. now rewrite app_nil_r.
      - rewrite sync_item_try_known by (apply Hkeys; [ now left | exact Href ]).
        cbn [synced failed firestore]. now rewrite app_nil_r. }
    destruct Est as (E1 & E2 & E3).
    rewrite IH.
    + rewrite E1, E2, E3. cbn [filter].
      destruct (refused mode item); cbn [negb map]; now rewrite <- !app_assoc.
    + intros it Hin Hr. rewrite E1. apply Hkeys; [ now right | exact Hr ].
Qed.

(** X20.  Sending a request again changes nothing: when no call of
    Firestore fails, [sync] on the store that a request left gives the same
    two lists as the first time and leaves the store as it is, whatever the
    time of the second call. *)
Theorem sync_replay_noop (STORE_RAW_NOTES_PROD : bool)
  (clock clock' : nat -> firestore_call -> string) (mode : Mode)
  (items : list SyncItem.t) (user : User) (fs : Firestore) :
  match sync STORE_RAW_NOTES_PROD no_faults clock mode items user fs with
  | None => sync STORE_RAW_NOTES_PROD no_faults clock' mode items user fs = None
  | Some st =>
      sync STORE_RAW_NOTES_PROD no_faults clock' mode items user (firestore st) = Some st
  end.
Proof.
  unfold sync.
  pose proof (sync_items_no_faults STORE_RAW_NOTES_PROD clock mode (uid user) items 0
                (mkSyncState [] [] fs)) as (H1 & H2 & _ & H4).
  cbn [synced failed app] in H1, H2.
  assert (Hreplay :
            sync_items STORE_RAW_NOTES_PROD no_faults clock' mode (uid user) 0 items
              (mkSyncState [] []
                 (firestore
                    (sync_items STORE_RAW_NOTES_PROD no_faults clock mode (uid user) 0
                       items (mkSyncState [] [] fs))))
            = sync_items STORE_RAW_NOTES_PROD no_faults clock mode (uid user) 0 items
                (mkSyncState [] [] fs)).
  { rewrite sync_items_known by exact H4. cbn [synced failed firestore app].
    rewrite <- H1, <- H2. now destruct (sync_items _ _ clock _ _ _ _ _). }
  destruct mode, (is_anonymous user); try reflexivity; now rewrite Hreplay.
Qed.


(** ** The worker against the endpoint *)

Lemma apply_writes_last (P : string -> Prop) (ws : list (string * string))
  (st nid : string) :
  Forall (fun w => P (snd w)) ws -> In nid (map fst ws) ->
  P (apply_writes ws st nid).
Proof.
  revert st. induction ws as [ | w ws IH ]; intros st Hall Hin; [ destruct Hin | ].
  apply Forall_cons_iff in Hall. destruct Hall as [ Hw Hws ].
  unfold apply_writes. cbn [fold_left].
  fold (apply_writes ws (if String.eqb nid (fst w) then snd w else st) nid).
  destruct (in_dec string_dec nid (map fst ws)) as [ Hin' | Hout ].
  - now apply IH.
  - rewrite (apply_writes_not_in ws _ nid Hout).
    destruct Hin as [ E | Hin ]; [ | contradiction ].
    now rewrite <- E, String.eqb_refl.
Qed.

Lemma prepared_items_note_ids (pending : list QueueItem.t) :
  map SyncItem.note_id (prepared_items pending)
  = map QueueItem.note_id (filter prepares pending).
Proof.
  pose proof (prepared_items_built_from pending) as H.
  induction H as [ | row item rows items Hb _ IH ]; [ reflexivity | ].
  cbn [map]. rewrite IH. f_equal. now destruct Hb as (_ & E & _).
Qed.

Lemma get_pending_length (limit : Z) (s : Store) :
  (0 <= limit)%Z -> (length (get_pending limit s) <= Z.to_nat limit)%nat.
Proof.
  intros H. unfold get_pending, sql_limit.
  destruct (Z.ltb_spec limit 0); [ lia | ]. apply firstn_le_length.
Qed.

Lemma answer_writes_ids (code : Z) (st : SyncState) (ids : list string) (nid : string) :
  In nid (map fst
            (answer_writes
               (HttpResponse code (synced st)
                  (map (fun fail : string * string => (Some (fst fail), Some (snd fail)))
                     (failed st)))
               ids))
  <-> In nid (synced st ++ map fst (failed st)).
Proof.
  cbn [answer_writes]. rewrite map_app, !map_map. cbn [fst].
  now rewrite map_id.
Qed.

Lemma answer_writes_final (answer : http_result) (ids : list string) :
  Forall (fun w : string * string => snd w = "synced" \/ snd w = "failed")
    (answer_writes answer ids).
Proof.
  destruct answer as [ e | code synced failed ]; cbn [answer_writes];
    rewrite ?Forall_app; repeat split; apply Forall_forall; intros w Hw;
    apply in_map_iff in Hw; destruct Hw as (x & <- & _); cbn [snd]; auto.
Qed.

(** X21.  A batch that the endpoint accepts is settled: when the mode of
    the worker is a mode of the endpoint, the user may use it (not an
    anonymous user in [prod]) and the batch size is between 0 and 50, every
    row that [get_pending] gave to the batch ends as [synced] or [failed],
    none is left [syncing] or [queued], and the other rows keep their
    status, whichever calls of Firestore fail. *)
Theorem accepted_batch_settles (STORE_RAW_NOTES_PROD : bool)
  (faults : nat -> firestore_call -> option string)
  (clock : nat -> firestore_call -> string) (user : User) (fs : Firestore)
  (mode : Mode) (now now' : string) (duration_ms : Z) (s : Store)
  (note_id st : string) :
  Mode_of_value (MODE settings) = Some mode ->
  mode = demo \/ is_anonymous user = false ->
  (0 <= SYNC_BATCH_SIZE settings <= 50)%Z ->
  In (note_id, st)
    (map id_status
       (queue_items
          (snd (sync_batch (post_sync STORE_RAW_NOTES_PROD faults clock user fs)
                  now now' duration_ms s)))) ->
  if list_in note_id (map QueueItem.note_id (get_pending (SYNC_BATCH_SIZE settings) s))
  then st = "synced" \/ st = "failed"
  else In (note_id, st) (map id_status (queue_items s)).
Proof.
  intros Hmode Huser Hsize. rewrite sync_batch_statuses. intros H.
  apply in_map_iff in H. destruct H as (r & E & Hr). injection E as E1 E2.
  subst note_id st. unfold sync_batch_writes.
  pose proof (get_pending_length (SYNC_BATCH_SIZE settings) s (proj1 Hsize)) as Hlen.
  revert Hlen. generalize (get_pending (SYNC_BATCH_SIZE settings) s).
  intros pending Hlen.
  set (nid := QueueItem.note_id r).
  set (req := SyncRequest.mk (DEVICE_ID settings) (MODE settings) (prepared_items pending)).
  assert (Hpost : exists state,
             post_sync STORE_RAW_NOTES_PROD faults clock user fs req
             = HttpResponse 200 (synced state)
                 (map (fun fail : string * string => (Some (fst fail), Some (snd fail)))
                    (failed state))
             /\ Permutation (synced state ++ map fst (failed state))
                  (map QueueItem.note_id (filter prepares pending))).
  { unfold post_sync, req. cbn [SyncRequest.mode SyncRequest.items]. rewrite Hmode.
    assert (Hle : (50 <? length (prepared_items pending))%nat = false).
    { apply Nat.ltb_ge. rewrite prepared_items_length.
      pose proof (filter_length_le prepares pending). lia. }
    rewrite Hle.
    pose proof (sync_invariant_holds STORE_RAW_NOTES_PROD faults clock mode
                  (prepared_items pending) user fs) as Hinv.
    destruct (sync _ _ _ _ _ _ _) as [ state | ] eqn:Esync.
    - exists state. split; [ reflexivity | ].
      rewrite <- prepared_items_note_ids.
      apply (inv_answered _ _ _ _ _ _ (Hinv state eq_refl)).
    - exfalso. unfold sync in Esync.
      destruct Huser as [ Hd | Ha ]; [ subst mode; discriminate | ].
      rewrite Ha in Esync. destruct mode; discriminate. }
  destruct Hpost as (state & Hpost & Hperm). rewrite Hpost. clear Hpost.
  rewrite apply_writes_app.
  destruct (list_in nid (map QueueItem.note_id pending)) eqn:Ein.
  - apply list_in_In in Ein.
    destruct (in_dec string_dec nid (map QueueItem.note_id (filter prepares pending)))
      as [ Hsent | Hnot ].
    + assert (Hne : nonempty (prepared_items pending) = true).
      { pose proof (prepared_items_length pending) as Hl.
        destruct (prepared_items pending); [ | reflexivity ].
        destruct (filter prepares pending); [ destruct Hsent | discriminate ]. }
      rewrite Hne.
      apply (apply_writes_last (fun v => v = "synced" \/ v = "failed")).
      * apply answer_writes_final.
      * apply answer_writes_ids. apply (Permutation_in _ (Permutation_sym Hperm) Hsent).
    + rewrite apply_writes_not_in.
      * right. apply (prepare_writes_same pending nid _ false); [ | exact Ein ].
        intros p Hp E. destruct (prepares p) eqn:Ep; [ | reflexivity ].
        elim Hnot. apply in_map_iff. exists p. split; [ exact E | ].
        apply filter_In. now split.
      * destruct (nonempty (prepared_items pending)); [ | intros [] ].
        intros H. apply answer_writes_ids in H. apply Hnot.
        apply (Permutation_in _ Hperm H).
  - assert (Hout : ~ In nid (map QueueItem.note_id pending)).
    { intros H. apply list_in_In in H. congruence. }
    rewrite apply_writes_not_in.
    + rewrite apply_writes_not_in.
      * apply in_map_iff. now exists r.
      * intros H. apply Hout. now apply prepare_writes_ids.
    + destruct (nonempty (prepared_items pending)); [ | intros [] ].
      intros H. apply answer_writes_ids in H. apply Hout.
      apply sent_ids_pending. apply (Permutation_in _ Hperm H).
Qed.

(** X22.  A worker in [prod] mode that the endpoint sees as an anonymous
    user (the worker sends no [Authorization] header, so it is the guest
    user) never gets a note through: the endpoint refuses every request
    (403, or 422 for more than 50 items), and with one row for each
    [note_id] every row of the batch that could be prepared is left in
    status [syncing], with nothing written to the audit table. *)
Theorem prod_guest_batch_stuck (STORE_RAW_NOTES_PROD : bool)
  (faults : nat -> firestore_call -> option string)
  (clock : nat -> firestore_call -> string) (user : User) (fs : Firestore)
  (now now' : string) (duration_ms : Z) (s : Store) :
  MODE settings = "prod" ->
  is_anonymous user = true ->
  NoDup (map QueueItem.note_id (queue_items s)) ->
  let s' := snd (sync_batch (post_sync STORE_RAW_NOTES_PROD faults clock user fs)
                   now now' duration_ms s) in
  map id_status (queue_items s')
  = map (fun r =>
           (QueueItem.note_id r,
            if list_in (QueueItem.note_id r)
                 (map QueueItem.note_id (get_pending (SYNC_BATCH_SIZE settings) s))
            then (if prepares r then "syncing" else "failed")
            else QueueItem.status r))
      (queue_items s)
  /\ sync_attempts s' = sync_attempts s.
Proof.
  intros Hmode Hanon Hnd. apply unanswered_batch; [ | exact Hnd ].
  intros items. unfold post_sync. cbn [SyncRequest.mode SyncRequest.items].
  rewrite Hmode. change (Mode_of_value "prod") with (Some prod). cbv iota beta.
  destruct (50 <? length items)%nat; [ now exists 422%Z | ].
  unfold sync. rewrite Hanon. now exists 403%Z.
Qed.


(** ** From [local_save] to the batch *)

(** X23.  What is saved is what is sent.  If the codecs invert each other
    on the saved values (the cipher decrypts what it encrypted, [json.loads]
    reads back the dumped payload, and validation reads back the dumped
    record and flags), then the row that [local_save] queues for a note is
    prepared by the worker into an item with that very record and those
    flags, the [note_id], the time of saving and the idempotency key that
    [local_save] answered; the item carries the text of the note only when
    the mode is [prod], [STORE_RAW_NOTES] is set and the text is not empty. *)
Theorem saved_note_is_sent (STORE_RAW_NOTES : bool) (s : Store) (note_id : string)
  (record : ClinicalRecord) (flags : Flags) (note_text : option string)
  (uuid : string) (iv : bytes) (now : string) :
  json_loads
    (utf8_encode (json_dumps (JObj (save_payload STORE_RAW_NOTES record flags note_text))))
  = Some (JObj (save_payload STORE_RAW_NOTES record flags note_text)) ->
  parse_record (ClinicalRecord_dump record) = Ok record ->
  parse_flags (Flags_dump flags) = Ok flags ->
  exists (idempotency_key : string) (s' : Store),
    local_save STORE_RAW_NOTES (Some s) note_id record flags note_text uuid iv now
    = Some ([("status", JStr "queued"); ("note_id", JStr note_id);
             ("idempotency_key", JStr idempotency_key)], s')
    /\ map QueueItem.status (rows_with note_id s') = ["queued"]
    /\ map prepare_item (rows_with note_id s')
       = [Ok (SyncItem.mk note_id record flags now "1.0.0" idempotency_key
                (sent_note_text STORE_RAW_NOTES note_text))].
Proof.
  intros Hloads Hrecord Hflags. unfold local_save. do 2 eexists.
  split; [ reflexivity | ]. rewrite rows_with_enqueue. cbn [map QueueItem.status].
  split; [ reflexivity | ]. f_equal.
  unfold prepare_item, decrypt_payload, TinkAEAD_decrypt, TinkAEAD_encrypt.
  cbn [QueueItem.note_id QueueItem.ciphertext QueueItem.mode QueueItem.created_at
         QueueItem.idempotency_key].
  rewrite aead_roundtrip. cbn [bind]. rewrite Hloads. cbn [bind pop_raw_note_text].
  unfold save_payload, sent_note_text, enqueue. cbn [fst].
  destruct note_text as [ text | ].
  - destruct (String.eqb (MODE settings) "prod") eqn:Emode; cbn [andb].
    + apply String.eqb_eq in Emode. rewrite Emode.
      destruct STORE_RAW_NOTES, (String.eqb text ""); cbn [negb andb];
        cbn; rewrite ?Hrecord, ?Hflags; reflexivity.
    + cbn. rewrite Hrecord. cbn. rewrite Hflags. cbn.
      now destruct (String.eqb (MODE settings) "demo").
  - cbn. rewrite Hrecord. cbn. rewrite Hflags. cbn.
    now destruct (String.eqb (MODE settings) "demo").
Qed.


(** ** Sending a note again *)

Lemma prepare_item_identity (r r' : QueueItem.t) :
  row_identity r = row_identity r' -> prepare_item r = prepare_item r'.
Proof.
  unfold row_identity. intros E. injection E as E1 E2 E3 E4 E5.
  unfold prepare_item. now rewrite E1, E2, E3, E4, E5.
Qed.

Lemma map_filter_through {A B C : Type} (f : A -> B) (g : A -> C) (p : A -> bool)
  (l l' : list A) :
  (forall a b, f a = f b -> p a = p b /\ g a = g b) ->
  map f l = map f l' ->
  map g (filter p l) = map g (filter p l').
Proof.
  intros Hfac. revert l'. induction l as [ | a l IH ]; intros [ | b l' ] E;
    try discriminate; [ reflexivity | ].
  cbn [map] in E. injection E as Eab El. destruct (Hfac a b Eab) as [ Hp Hg ].
  cbn [filter]. rewrite <- Hp. destruct (p a); cbn [map]; rewrite ?Hg; now rewrite (IH l').
Qed.

(** X24.  A note that is sent again is the same upload.  Whatever a batch
    did to the queue, [reset_for_retry] makes the rows of the note [queued]
    again, and the worker prepares from them exactly the items it prepared
    before the batch, with the same idempotency keys. *)
Theorem retried_note_same_item (post : SyncRequest.t -> http_result)
  (now now' now'' : string) (duration_ms : Z) (s : Store) (note_id : string) :
  let s' := reset_for_retry note_id now''
              (snd (sync_batch post now now' duration_ms s)) in
  map prepare_item (rows_with note_id s') = map prepare_item (rows_with note_id s)
  /\ Forall (fun r => QueueItem.status r = "queued") (rows_with note_id s').
Proof.
  intros s'. split.
  - unfold rows_with.
    apply (map_filter_through row_identity).
    + intros a b E. split; [ | now apply prepare_item_identity ].
      unfold row_identity in E. now injection E as ->.
    + subst s'. unfold reset_for_retry. cbn [queue_items with_queue_items].
      rewrite update_where_identity by reflexivity.
      pose proof (sync_batch_rows_audit post now now' duration_ms s) as H.
      destruct (sync_batch post now now' duration_ms s) as [ [ summary request ] s1 ].
      apply H.
  - subst s'. unfold rows_with, reset_for_retry. cbn [queue_items with_queue_items].
    rewrite rows_with_update_where by reflexivity.
    apply Forall_forall. intros r Hr. apply in_map_iff in Hr.
    now destruct Hr as (r0 & <- & _).
Qed.

End Local.

(** ** The stand-in primitive meets the contract *)

Lemma byte_eqb_refl (b : byte) : Byte.eqb b b = true.
Proof. now apply Byte.byte_dec_lb. Qed.

Lemma PlainAEAD_roundtrip (iv plaintext aad : bytes) :
  PlainAEAD.decrypt (PlainAEAD.encrypt iv plaintext aad) aad = Some plaintext.
Proof.
  unfold PlainAEAD.encrypt.
  induction aad as [ | a aad IH ]; cbn [flat_map app PlainAEAD.decrypt].
  - now rewrite byte_eqb_refl.
  - rewrite !byte_eqb_refl. exact IH.
Qed.

Lemma PlainAEAD_binding (iv plaintext aad aad' : bytes) :
  aad <> aad' ->
  PlainAEAD.decrypt (PlainAEAD.encrypt iv plaintext aad) aad' = None.
Proof.
  unfold PlainAEAD.encrypt. revert aad'.
  induction aad as [ | a aad IH ]; intros [ | a' aad' ] Hne;
    cbn [flat_map app PlainAEAD.decrypt].
  - congruence.
  - destruct plaintext; reflexivity.
  - reflexivity.
  - rewrite byte_eqb_refl. cbn [andb].
    destruct (Byte.eqb a' a) eqn:E; [ | reflexivity ].
    apply Byte.byte_dec_bl in E. subst a'.
    apply IH. congruence.
Qed.

(** ** Instances *)

(** C1 as stated fails: on a row whose status is [synced], [mark_syncing],
    [mark_failed] and [reset_for_retry] each change the status; and
    [mark_synced] takes a [queued] row to [synced] without [syncing]. *)
Lemma synced_not_terminal :
  statuses_of "note-001" Sample.synced_store = ["synced"]
  /\ statuses_of "note-001"
       (mark_syncing "note-001" "2026-01-01 00:01:00" Sample.synced_store)
     = ["syncing"]
  /\ statuses_of "note-001"
       (mark_failed "note-001" "timeout" "2026-01-01 00:01:00" Sample.synced_store)
     = ["failed"]
  /\ statuses_of "note-001"
       (reset_for_retry "note-001" "2026-01-01 00:01:00" Sample.synced_store)
     = ["queued"]
  /\ statuses_of "note-001" Sample.queued_store = ["queued"]
  /\ statuses_of "note-001"
       (mark_synced "note-001" "2026-01-01 00:01:00" Sample.queued_store)
     = ["synced"].
Proof. repeat split. Qed.

Lemma mark_absent_noop_witness :
  rows_with "note-404" Sample.queued_store = []
  /\ mark_syncing "note-404" "2026-01-01 00:01:00" Sample.queued_store
     = Sample.queued_store
  /\ mark_synced "note-404" "2026-01-01 00:01:00" Sample.queued_store
     = Sample.queued_store
  /\ mark_failed "note-404" "timeout" "2026-01-01 00:01:00" Sample.queued_store
     = Sample.queued_store
  /\ reset_for_retry "note-404" "2026-01-01 00:01:00" Sample.queued_store
     = Sample.queued_store.
Proof.
  split; [ reflexivity | ].
  apply (mark_absent_noop Sample.queued_store "note-404" "timeout"
           "2026-01-01 00:01:00").
  reflexivity.
Defined.

Lemma enqueue_twice_witness :
  let first :=
    enqueue PlainAEAD.encrypt Sample.json_dumps Sample.settings
      "note-001" JNull "prod" "0001" [] "2026-01-01 00:00:00" init_db in
  let second :=
    enqueue PlainAEAD.encrypt Sample.json_dumps Sample.settings
      "note-001" Sample.payload "prod" "0002" [] "2026-01-01 00:00:09" (snd first) in
  "0001" <> "0002"
  /\ map QueueItem.idempotency_key (rows_with "note-001" (snd second))
     = ["local-dev-001:note-001:0002"]
  /\ fst first <> fst second.
Proof.
  cbv zeta.
  assert (Hne : "0001" <> "0002") by discriminate.
  pose proof (enqueue_twice PlainAEAD.encrypt Sample.json_dumps Sample.settings
                init_db "note-001" JNull "prod" "0001" [] "2026-01-01 00:00:00"
                Sample.payload "prod" "0002" [] "2026-01-01 00:00:09" Hne) as H.
  cbv zeta in H. destruct H as (Hrows & _ & _ & Hkeys).
  split; [ exact Hne | ]. split; [ | exact Hkeys ].
  rewrite Hrows. reflexivity.
Defined.

Lemma aead_bound_to_note_id_witness :
  let ciphertext :=
    TinkAEAD_encrypt PlainAEAD.encrypt []
      (utf8_encode (Sample.json_dumps Sample.payload)) (utf8_encode "note-001") in
  decrypt_payload PlainAEAD.decrypt Sample.json_loads "note-001" ciphertext
  = Ok Sample.payload
  /\ decrypt_payload PlainAEAD.decrypt Sample.json_loads "note-002" ciphertext
     = Raise TinkError.
Proof.
  cbv zeta.
  assert (Haad : ["001"%byte] <> ["002"%byte]) by discriminate.
  assert (Hid : "note-001" <> "note-002") by discriminate.
  pose proof (aead_bound_to_note_id PlainAEAD.encrypt PlainAEAD.decrypt
                Sample.json_dumps Sample.json_loads Sample.settings
                PlainAEAD_roundtrip PlainAEAD_binding
                [] ["001"%byte] ["002"%byte] init_db "note-001" "note-002"
                Sample.payload "prod" "0001" [] "2026-01-01 00:00:00"
                Haad Hid eq_refl) as H.
  cbv zeta in H. destruct H as (_ & _ & _ & Hsame & Hother).
  split; [ exact Hsame | exact Hother ].
Defined.

(** Three notes saved in [demo] mode, each payload with raw note text: the
    batch has three items, none of them with raw note text.  The same notes
    in [prod] mode keep it. *)
Example demo_batch_of_three :
  let save mode id t s :=
    snd (enqueue PlainAEAD.encrypt Sample.json_dumps Sample.settings
           id Sample.payload mode "0001" [] t s) in
  let batch mode :=
    outbound_batch PlainAEAD.decrypt Sample.json_loads Sample.parse_record
      Sample.parse_flags Sample.exn_str Sample.settings "2026-01-01 00:01:00"
      (save mode "note-003" "2026-01-01 00:00:03"
         (save mode "note-002" "2026-01-01 00:00:02"
            (save mode "note-001" "2026-01-01 00:00:01" init_db))) in
  map (fun i => (SyncItem.note_id i, SyncItem.raw_note_text i)) (batch_items (batch "demo"))
  = [("note-001", None); ("note-002", None); ("note-003", None)]
  /\ map SyncItem.raw_note_text (batch_items (batch "prod"))
     = [Some "Patient reports chest pain"; Some "Patient reports chest pain";
        Some "Patient reports chest pain"].
Proof. vm_compute. split; reflexivity. Qed.

(* ================================================================== *)
(** * Part III: further properties of the code                         *)
(* ================================================================== *)

(** ** The score of the validator *)

Lemma score_in_range_all : for_all_six score_in_range = true.
Proof. vm_compute. reflexivity. Qed.

Lemma critical_absent_below_all : for_all_six critical_absent_below = true.
Proof. vm_compute. reflexivity. Qed.

Lemma all_present_above_all : for_all_six all_present_above = true.
Proof. vm_compute. reflexivity. Qed.

Lemma validate_score_six (r : ClinicalRecord) :
  completeness_score (validate r)
  = score_of_levels
      [field_level r "chief_complaint"; field_level r "hpi";
       field_level r "assessment"; field_level r "plan";
       field_level r "medications"; field_level r "allergies"].
Proof. apply validate_score_levels. Qed.

(** X1.  The completeness score of every record lies between 0.066 (the
    score of the empty record) and 1. *)
Theorem completeness_score_range (record : ClinicalRecord) :
  PrimFloat.leb 0.066%float (completeness_score (validate record)) = true
  /\ PrimFloat.leb (completeness_score (validate record)) 1%float = true.
Proof.
  rewrite validate_score_six.
  pose proof (for_all_six_spec score_in_range score_in_range_all
                (field_level record "chief_complaint") (field_level record "hpi")
                (field_level record "assessment") (field_level record "plan")
                (field_level record "medications") (field_level record "allergies")) as H.
  unfold score_in_range in H. cbv zeta in H.
  now apply andb_true_iff in H.
Qed.

(** X2.  A record that lacks a critical field ([medications], [allergies]
    or [assessment]) scores below the threshold of 0.8, whatever its other
    fields hold: [validate_and_repair] never accepts it as it is. *)
Theorem critical_field_missing_below_threshold
  (record : ClinicalRecord) (f : string) :
  In f CRITICAL_FIELDS ->
  _is_field_present record f = false ->
  PrimFloat.ltb (completeness_score (validate record)) COMPLETENESS_THRESHOLD = true
  /\ good_enough (validate record) = false.
Proof.
  intros Hin Hmiss.
  assert (Habs : is_absent (field_level record f) = true).
  { rewrite is_absent_field_level, Hmiss. reflexivity. }
  unfold good_enough. rewrite validate_score_six.
  pose proof (for_all_six_spec critical_absent_below critical_absent_below_all
                (field_level record "chief_complaint") (field_level record "hpi")
                (field_level record "assessment") (field_level record "plan")
                (field_level record "medications") (field_level record "allergies")) as H.
  unfold critical_absent_below in H.
  unfold CRITICAL_FIELDS in Hin. cbn [In] in Hin.
  destruct Hin as [ <- | [ <- | [ <- | [] ] ] ]; rewrite Habs in H;
    rewrite ?orb_true_r in H; cbn [orb] in H;
    apply andb_true_iff in H; destruct H as [ H1 H2 ];
    apply negb_true_iff in H2; rewrite H1, H2; split; reflexivity.
Qed.

Lemma list_field_level (r : ClinicalRecord) (f : string) :
  In f CRITICAL_FIELDS -> list_level (field_level r f) = true.
Proof.
  unfold CRITICAL_FIELDS. cbn [In].
  intros [ <- | [ <- | [ <- | [] ] ] ];
    unfold field_level, _is_field_present;
    cbn [getattr String.eqb Ascii.eqb Bool.eqb].
  - now destruct (medications r).
  - now destruct (allergies r).
  - now destruct (assessment r).
Qed.

Lemma missing_nil_present (r : ClinicalRecord) (f : string) :
  missing_fields (validate r) = [] -> In f REQUIRED_FIELDS ->
  is_absent (field_level r f) = false.
Proof.
  unfold validate. cbn [missing_fields]. intros Hnil Hin.
  rewrite is_absent_field_level.
  destruct (negb (_is_field_present r f)) eqn:E; [ | reflexivity ].
  assert (H : In f (filter (fun f => negb (_is_field_present r f)) REQUIRED_FIELDS)).
  { apply filter_In. now split. }
  rewrite Hnil in H. destruct H.
Qed.

(** X3.  A record with no missing required field scores at least 0.933, so
    it passes the threshold: only a contradiction can send it to repair. *)
Theorem no_missing_field_passes (record : ClinicalRecord) :
  missing_fields (validate record) = [] ->
  PrimFloat.leb 0.933%float (completeness_score (validate record)) = true
  /\ good_enough (validate record) = negb (nonempty (contradictions (validate record))).
Proof.
  intros Hnil.
  pose proof (for_all_six_spec all_present_above all_present_above_all
                (field_level record "chief_complaint") (field_level record "hpi")
                (field_level record "assessment") (field_level record "plan")
                (field_level record "medications") (field_level record "allergies")) as H.
  unfold all_present_above in H.
  rewrite !(missing_nil_present record _ Hnil) in H by (cbn; tauto).
  rewrite !list_field_level in H by (cbn; tauto).
  cbn [orb andb negb] in H. apply andb_true_iff in H. destruct H as [ H1 H2 ].
  unfold good_enough. rewrite validate_score_six, H1, H2. split; reflexivity.
Qed.

(** ** Merging a repair answer *)

Lemma getattr_not_schema (r : ClinicalRecord) (k : string) :
  ~ In k schema_fields -> getattr r k = VNone.
Proof.
  unfold schema_fields, getattr. cbn [In]. intros H.
  repeat match goal with
         | |- (if String.eqb k ?name then _ else _) = _ =>
             destruct (String.eqb_spec k name) as [ -> | _ ]; [ exfalso; tauto | ]
         end.
  reflexivity.
Qed.

Lemma dict_get_model_dump (r : ClinicalRecord) (k : string) :
  In k schema_fields -> dict_get (model_dump r) k = Some (getattr r k).
Proof.
  unfold schema_fields. cbn [In].
  intros H. repeat (destruct H as [ <- | H ]; [ reflexivity | ]). destruct H.
Qed.

Lemma merge_field_get (data : dict value) (fv : string * value) (k : string) :
  fst fv <> k -> dict_get (merge_field data fv) k = dict_get data k.
Proof.
  destruct fv as [ f v ]. cbn [fst]. intros Hne. unfold merge_field.
  destruct (dict_has data f && negb (is_none v)); [ | reflexivity ].
  destruct (is_unknown v); [ reflexivity | ].
  rewrite dict_get_set.
  destruct (String.eqb_spec f k); [ contradiction | reflexivity ].
Qed.

Lemma fold_merge_get (repaired : dict value) (k : string) :
  ~ In k (dict_keys repaired) ->
  forall data, dict_get (fold_left merge_field repaired data) k = dict_get data k.
Proof.
  unfold dict_keys.
  induction repaired as [ | fv repaired IH ]; intros Hk data; [ reflexivity | ].
  cbn [fold_left map In] in *.
  rewrite IH by tauto. apply merge_field_get. tauto.
Qed.

Lemma sequence_map_inv {A : Type} (inj : A -> item) (elem : item -> result A)
  (l : list item) (a : list A) :
  (forall i x, elem i = Ok x -> i = inj x) ->
  sequence (map elem l) = Ok a -> l = map inj a.
Proof.
  intros Helem. revert a.
  induction l as [ | i l IH ]; intros a; cbn [map sequence].
  - intros H. injection H as <-. reflexivity.
  - destruct (elem i) as [ x | ] eqn:Hi; cbn [bind]; [ | discriminate ].
    destruct (sequence (map elem l)) as [ t | ]; cbn [bind]; [ | discriminate ].
    intros H. injection H as <-. cbn [map].
    now rewrite (Helem i x Hi), (IH t eq_refl).
Qed.

Lemma as_optional_str_inv (v : value) (o : option string) :
  as_optional_str (Some v) = Ok o -> v = of_optional o.
Proof.
  destruct v; cbn; intros H; try discriminate; now injection H as <-.
Qed.

Lemma as_list_inv {A : Type} (inj : A -> item) (elem : item -> result A)
  (v : value) (a : list A) :
  (forall i x, elem i = Ok x -> i = inj x) ->
  as_list elem (Some v) = Ok a -> v = VList (map inj a).
Proof.
  intros Helem. destruct v as [ | | l | ]; cbn [as_list]; try discriminate.
  intros H. f_equal. now apply (sequence_map_inv inj elem).
Qed.

(** What [model_validate] accepts is the dump of its result, field by
    field. *)
Lemma model_validate_getattr (data : dict value) (r : ClinicalRecord) (k : string) (v : value) :
  model_validate data = Ok r -> In k schema_fields ->
  dict_get data k = Some v -> getattr r k = v.
Proof.
  unfold model_validate. intros H Hin Hk.
  destruct (as_optional_str (dict_get data "chief_complaint")) as [ cc | ] eqn:H1;
    cbn [bind] in H; [ | discriminate ].
  destruct (as_optional_str (dict_get data "hpi")) as [ h | ] eqn:H2;
    cbn [bind] in H; [ | discriminate ].
  destruct (as_list as_problem (dict_get data "assessment")) as [ a | ] eqn:H3;
    cbn [bind] in H; [ | discriminate ].
  destruct (as_optional_str (dict_get data "plan")) as [ p | ] eqn:H4;
    cbn [bind] in H; [ | discriminate ].
  destruct (as_list as_medication (dict_get data "medications")) as [ m | ] eqn:H5;
    cbn [bind] in H; [ | discriminate ].
  destruct (as_list as_allergy (dict_get data "allergies")) as [ al | ] eqn:H6;
    cbn [bind] in H; [ | discriminate ].
  destruct (as_list as_str (dict_get data "red_flags")) as [ rf | ] eqn:H7;
    cbn [bind] in H; [ | discriminate ].
  destruct (as_optional_str (dict_get data "follow_up")) as [ fu | ] eqn:H8;
    cbn [bind] in H; [ | discriminate ].
  destruct (as_optional_str (dict_get data "patient_summary_plain_language"))
    as [ ps | ] eqn:H9; cbn [bind] in H; [ | discriminate ].
  injection H as <-.
  unfold schema_fields in Hin. cbn [In] in Hin.
  repeat (destruct Hin as [ <- | Hin ];
          [ rewrite Hk in *; cbn;
            first [ symmetry; now apply as_optional_str_inv
                  | symmetry; apply (as_list_inv IProblem as_problem);
                    [ intros [] ? E; cbn in E; congruence | assumption ]
                  | symmetry; apply (as_list_inv IMedication as_medication);
                    [ intros [] ? E; cbn in E; congruence | assumption ]
                  | symmetry; apply (as_list_inv IAllergy as_allergy);
                    [ intros [] ? E; cbn in E; congruence | assumption ]
                  | symmetry; apply (as_list_inv IStr as_str);
                    [ intros [] ? E; cbn in E; congruence | assumption ] ]
          | ]).
  destruct Hin.
Qed.

Lemma apply_repair_keeps
  (record r' : ClinicalRecord) (note_text locale : string) (fields : list string)
  (repair_fields : string -> ClinicalRecord -> list string -> string -> result (dict value))
  (repaired : dict value) (k : string) :
  repair_fields note_text record fields locale = Ok repaired ->
  _apply_repair record note_text fields repair_fields locale = Ok r' ->
  ~ In k (dict_keys repaired) ->
  getattr r' k = getattr record k.
Proof.
  unfold _apply_repair. intros Hrep H Hk. rewrite Hrep in H.
  destruct (in_dec string_dec k schema_fields) as [ Hin | Hout ].
  - apply (model_validate_getattr _ _ _ _ H Hin).
    rewrite fold_merge_get by exact Hk. now apply dict_get_model_dump.
  - now rewrite !getattr_not_schema.
Qed.

(** X4.  A repair changes only the fields that the extractor answered for:
    when [_apply_repair] returns a record, every attribute whose name is no
    key of the answer is the attribute of the record it was given. *)
Theorem apply_repair_untouched
  (record r' : ClinicalRecord) (note_text locale : string) (fields : list string)
  (repair_fields : string -> ClinicalRecord -> list string -> string -> result (dict value))
  (repaired : dict value) (k : string) :
  repair_fields note_text record fields locale = Ok repaired ->
  _apply_repair record note_text fields repair_fields locale = Ok r' ->
  ~ In k (dict_keys repaired) ->
  getattr r' k = getattr record k.
Proof. apply apply_repair_keeps. Qed.

Lemma dict_has_model_dump (r : ClinicalRecord) (f : string) :
  ~ In f schema_fields -> dict_has (model_dump r) f = false.
Proof.
  intros H. unfold dict_has.
  destruct (dict_get (model_dump r) f) as [ v | ] eqn:E; [ | reflexivity ].
  exfalso. apply H. unfold model_dump in E. clear H.
  induction schema_fields as [ | g l IH ]; cbn [map dict_get] in E; [ discriminate | ].
  destruct (String.eqb g f) eqn:Eg.
  - left. now apply String.eqb_eq.
  - right. now apply IH.
Qed.

Lemma merge_ignored (r : ClinicalRecord) (fv : string * value) :
  ignored_entry fv -> merge_field (model_dump r) fv = model_dump r.
Proof.
  destruct fv as [ f v ]. unfold ignored_entry, merge_field. cbn [fst snd].
  intros [ H | [ -> | H ] ].
  - now rewrite dict_has_model_dump.
  - cbn. now rewrite andb_false_r.
  - rewrite H. now destruct (dict_has (model_dump r) f && negb (is_none v)).
Qed.

(** X5.  An answer that tells nothing new is discarded: if every entry of
    the extractor's answer is for a name outside the schema, is [None], or
    is the text [unknown] (in any case, with any blanks around it), or if
    the extractor raises, [_apply_repair] returns the record it was given. *)
Theorem apply_repair_nothing_new
  (record : ClinicalRecord) (note_text locale : string) (fields : list string)
  (repair_fields : string -> ClinicalRecord -> list string -> string -> result (dict value)) :
  match repair_fields note_text record fields locale with
  | Ok repaired => Forall ignored_entry repaired
  | Raise _ => True
  end ->
  _apply_repair record note_text fields repair_fields locale = Ok record.
Proof.
  unfold _apply_repair.
  destruct (repair_fields note_text record fields locale) as [ repaired | e ];
    [ | reflexivity ].
  intros H.
  replace (fold_left merge_field repaired (model_dump record)) with (model_dump record).
  - apply model_validate_model_dump.
  - induction H as [ | fv repaired Hfv H IH ]; [ reflexivity | ].
    cbn [fold_left]. now rewrite merge_ignored.
Qed.

(** ** The local extractor in the repair loop *)

Lemma dict_set_In {V : Type} (d : dict V) (k k' : string) (v v' : V) :
  In (k', v') (dict_set d k v) -> (k', v') = (k, v) \/ In (k', v') d.
Proof.
  induction d as [ | [k0 v0] d IH ]; cbn [dict_set In].
  - intros [ H | [] ]. left. now symmetry.
  - destruct (String.eqb_spec k0 k) as [ -> | _ ]; cbn [In].
    + intros [ H | H ]; [ left; now symmetry | right; now right ].
    + intros [ H | H ]; [ right; now left | ].
      destruct (IH H); [ now left | right; now right ].
Qed.

(** The answer of the local extractor: values of the extracted record,
    none of them [None], for requested fields only. *)
Lemma local_answer_entries (full : ClinicalRecord) (fields : list string) :
  forall acc : dict value,
    Forall (fun fv => snd fv = getattr full (fst fv) /\ In (fst fv) fields) acc ->
    Forall (fun fv => snd fv = getattr full (fst fv) /\ In (fst fv) fields)
      (fold_left
         (fun result field =>
            if String.eqb field "contradictions" then result
            else
              match getattr full field with
              | VNone => result
              | val => dict_set result field val
              end)
         fields acc).
Proof.
  assert (Hgen : forall (l : list string) (acc : dict value),
             incl l fields ->
             Forall (fun fv => snd fv = getattr full (fst fv) /\ In (fst fv) fields) acc ->
             Forall (fun fv => snd fv = getattr full (fst fv) /\ In (fst fv) fields)
               (fold_left
                  (fun result field =>
                     if String.eqb field "contradictions" then result
                     else
                       match getattr full field with
                       | VNone => result
                       | val => dict_set result field val
                       end)
                  l acc)).
  { induction l as [ | f l IH ]; intros acc Hincl Hacc; [ exact Hacc | ].
    cbn [fold_left]. apply IH; [ intros x Hx; apply Hincl; now right | ].
    destruct (String.eqb f "contradictions"); [ exact Hacc | ].
    assert (Hset : Forall (fun fv => snd fv = getattr full (fst fv) /\ In (fst fv) fields)
                     (dict_set acc f (getattr full f))).
    { apply Forall_forall. intros [k v] Hin. apply dict_set_In in Hin.
      destruct Hin as [ E | Hin ].
      - injection E as -> ->. cbn [fst snd]. split; [ reflexivity | apply Hincl; now left ].
      - now apply (proj1 (Forall_forall _ _) Hacc). }
    destruct (getattr full f); [ exact Hacc | exact Hset | exact Hset | exact Hset ]. }
  intros acc. apply Hgen. apply incl_refl.
Qed.

Lemma merge_copy (full r : ClinicalRecord) (f : string) :
  merge_field (model_dump r) (f, getattr full f) = model_dump r
  \/ merge_field (model_dump r) (f, getattr full f) = model_dump (copy_field full r f).
Proof.
  destruct (in_dec string_dec f schema_fields) as [ Hin | Hout ].
  - unfold merge_field.
    destruct (dict_has (model_dump r) f && negb (is_none (getattr full f)));
      [ | now left ].
    destruct (is_unknown (getattr full f)); [ now left | right ].
    unfold schema_fields in Hin. cbn [In] in Hin.
    repeat (destruct Hin as [ <- | Hin ]; [ reflexivity | ]). destruct Hin.
  - left. apply merge_ignored. left. exact Hout.
Qed.

Lemma fold_merge_local (full : ClinicalRecord) (fields : list string) (repaired : dict value) :
  Forall (fun fv => snd fv = getattr full (fst fv) /\ In (fst fv) fields) repaired ->
  forall r, exists r', fold_left merge_field repaired (model_dump r) = model_dump r'.
Proof.
  induction 1 as [ | [f v] repaired [Hv _] _ IH ]; intros r; cbn [fold_left].
  - now exists r.
  - cbn [fst snd] in Hv. subst v.
    destruct (merge_copy full r f) as [ -> | -> ]; apply IH.
Qed.

Lemma local_answer_keys (full : ClinicalRecord) (fields : list string) (repaired : dict value)
  (k : string) :
  Forall (fun fv => snd fv = getattr full (fst fv) /\ In (fst fv) fields) repaired ->
  ~ In k fields -> ~ In k (dict_keys repaired).
Proof.
  intros H Hk Hin. unfold dict_keys in Hin. apply in_map_iff in Hin.
  destruct Hin as ([f v] & <- & Hin).
  apply (proj1 (Forall_forall _ _) H) in Hin. cbn [fst] in *. tauto.
Qed.

Lemma local_repair_ok
  (extract : string -> string -> result ClinicalRecord)
  (record : ClinicalRecord) (note_text locale : string) (fields : list string) :
  exists r',
    _apply_repair record note_text fields (local_repair_fields extract) locale = Ok r'
    /\ forall k, ~ In k fields -> getattr r' k = getattr record k.
Proof.
  destruct (local_repair_fields extract note_text record fields locale)
    as [ repaired | e ] eqn:Hrep.
  - assert (H : exists full,
               Forall (fun fv => snd fv = getattr full (fst fv) /\ In (fst fv) fields)
                 repaired).
    { unfold local_repair_fields in Hrep.
      destruct (extract note_text locale) as [ full | ]; cbn [bind] in Hrep;
        [ | discriminate ].
      exists full. injection Hrep as <-. apply local_answer_entries. constructor. }
    destruct H as [ full Hall ].
    destruct (fold_merge_local full fields repaired Hall record) as [ r' Hr' ].
    assert (Hok : _apply_repair record note_text fields (local_repair_fields extract) locale
                  = Ok r').
    { unfold _apply_repair. rewrite Hrep, Hr'. apply model_validate_model_dump. }
    exists r'. split; [ exact Hok | ].
    intros k Hk. apply (apply_repair_keeps _ _ _ _ _ _ _ _ Hrep Hok).
    now apply (local_answer_keys full fields).
  - exists record. split; [ | reflexivity ].
    unfold _apply_repair. now rewrite Hrep.
Qed.

(** X6.  A repair by the local extractor never fails and stays within the
    request: whatever [extract] finds (or if it raises), [_apply_repair]
    returns a record, and every attribute that was not among the fields to
    repair is the attribute of the record it was given. *)
Theorem local_repair_safe
  (extract : string -> string -> result ClinicalRecord)
  (record : ClinicalRecord) (note_text locale : string) (fields : list string) :
  exists r',
    _apply_repair record note_text fields (local_repair_fields extract) locale = Ok r'
    /\ forall k, ~ In k fields -> getattr r' k = getattr record k.
Proof. apply local_repair_ok. Qed.

Lemma repair_loop_returns
  (ext : Extractor) (note_text locale : string) (max_repairs : Z) :
  (forall record fields n,
      exists r', _apply_repair record note_text fields (ext n) locale = Ok r') ->
  forall (remaining : nat) (attempt : Z) (record : ClinicalRecord)
         (flags : option Flags) (nv nc : nat),
    (remaining = 0 -> flags <> None) ->
    exists r fl,
      outcome (repair_loop (Some ext) note_text locale max_repairs
                 remaining attempt record flags nv nc) = Ok (r, fl).
Proof.
  intros Hext. induction remaining as [ | k IH ]; intros attempt record flags nv nc Hfl.
  - destruct flags as [ fl | ]; [ now exists record, fl | now destruct Hfl ].
  - cbn [repair_loop].
    destruct (good_enough (validate record)); [ now exists record, (validate record) | ].
    destruct (attempt <? max_repairs)%Z.
    + destruct (negb (nonempty (fields_to_fix_of (validate record))));
        [ now exists record, (validate record) | ].
      destruct (Hext record (fields_to_fix_of (validate record)) nc) as [ r' -> ].
      apply IH. discriminate.
    + apply IH. discriminate.
Qed.

(** X7.  With the local extractor, [validate_and_repair] always returns:
    for every [max_repairs >= 0] it gives back a record with the flags of
    that record, after at most [max_repairs + 1] validations and at most
    [max_repairs] calls of the extractor. *)
Theorem local_extractor_always_returns
  (extract : string -> string -> result ClinicalRecord)
  (record : ClinicalRecord) (note_text locale : string) (max_repairs : nat) :
  let run := validate_and_repair record note_text (Some (LocalExtractor extract))
               locale (Z.of_nat max_repairs) in
  (exists r, outcome run = Ok (r, validate r))
  /\ validations run <= S max_repairs
  /\ extractor_calls run <= max_repairs.
Proof.
  cbv zeta. unfold validate_and_repair.
  replace (Z.to_nat (Z.of_nat max_repairs + 1)) with (S max_repairs) by lia.
  pose proof (repair_loop_invariant (LocalExtractor extract) note_text locale
                (Z.of_nat max_repairs) (S max_repairs) 0%Z record None 0 0) as H.
  cbv zeta in H. destruct H as (Hv & Hc & Ho & _); [ lia | discriminate | ].
  destruct (repair_loop_returns (LocalExtractor extract) note_text locale
              (Z.of_nat max_repairs)
              (fun record fields n =>
                 match local_repair_ok extract record note_text locale fields with
                 | ex_intro _ r' (conj H _) => ex_intro _ r' H
                 end)
              (S max_repairs) 0%Z record None 0 0) as (r & fl & Hout); [ discriminate | ].
  rewrite Hout in Ho. subst fl.
  split; [ now exists r | ]. split; [ exact Hv | ]. cbn [pred] in Hc. lia.
Qed.

(** ** Instances of the properties of Part III *)

Lemma critical_field_missing_below_threshold_witness :
  In "medications" CRITICAL_FIELDS
  /\ _is_field_present ClinicalRecord_default "medications" = false
  /\ ltb (completeness_score (validate ClinicalRecord_default)) COMPLETENESS_THRESHOLD
     = true
  /\ good_enough (validate ClinicalRecord_default) = false.
Proof.
  assert (H1 : In "medications" CRITICAL_FIELDS) by (left; reflexivity).
  assert (H2 : _is_field_present ClinicalRecord_default "medications" = false)
    by reflexivity.
  split; [ exact H1 | ]. split; [ exact H2 | ].
  exact (critical_field_missing_below_threshold ClinicalRecord_default "medications"
           H1 H2).
Defined.

Lemma no_missing_field_passes_witness :
  missing_fields (validate complete_record) = []
  /\ leb 0.933 (completeness_score (validate complete_record)) = true
  /\ good_enough (validate complete_record)
     = negb (nonempty (contradictions (validate complete_record))).
Proof.
  assert (H : missing_fields (validate complete_record) = [])
    by (vm_compute; reflexivity).
  split; [ exact H | ].
  exact (no_missing_field_passes complete_record H).
Defined.

(** An extractor that answers for the plan only. *)
Definition plan_only : string -> ClinicalRecord -> list string -> string
                       -> result (dict value) :=
  fun _ _ _ _ => Ok [("plan", VStr "Rest and fluids")].

Lemma apply_repair_untouched_witness :
  _apply_repair ClinicalRecord_default "note" ["plan"; "hpi"] plan_only "en"
  = Ok (mkClinicalRecord None None [] (Some "Rest and fluids") [] [] [] None None)
  /\ getattr (mkClinicalRecord None None [] (Some "Rest and fluids") [] [] [] None None)
       "hpi"
     = getattr ClinicalRecord_default "hpi".
Proof.
  assert (H1 : plan_only "note" ClinicalRecord_default ["plan"; "hpi"] "en"
               = Ok [("plan", VStr "Rest and fluids")]) by reflexivity.
  assert (H2 : _apply_repair ClinicalRecord_default "note" ["plan"; "hpi"] plan_only "en"
               = Ok (mkClinicalRecord None None [] (Some "Rest and fluids") [] [] []
                       None None)) by reflexivity.
  assert (H3 : ~ In "hpi" (dict_keys [("plan", VStr "Rest and fluids")])).
  { intros [ H | [] ]. discriminate H. }
  split; [ exact H2 | ].
  exact (apply_repair_untouched ClinicalRecord_default _ "note" "en" ["plan"; "hpi"]
           plan_only _ "hpi" H1 H2 H3).
Defined.

(** An extractor that has nothing to tell: a field it does not know, a
    field without a value and a field outside the schema. *)
Definition tells_nothing : string -> ClinicalRecord -> list string -> string
                           -> result (dict value) :=
  fun _ _ _ _ => Ok [("plan", VNone); ("insurance", VStr "none")].

Lemma apply_repair_nothing_new_witness :
  Forall ignored_entry [("plan", VNone); ("insurance", VStr "none")]
  /\ _apply_repair complete_record "note" ["plan"] tells_nothing "en"
     = Ok complete_record.
Proof.
  assert (H : Forall ignored_entry [("plan", VNone); ("insurance", VStr "none")]).
  { constructor; [ right; left; reflexivity | ].
    constructor; [ | constructor ]. left. cbn.
    intros Hin. repeat (destruct Hin as [ Hin | Hin ]; [ discriminate Hin | ]).
    exact Hin. }
  split; [ exact H | ].
  exact (apply_repair_nothing_new complete_record "note" "en" ["plan"] tells_nothing H).
Defined.

Lemma enqueue_keeps_other_notes_witness :
  "note-001" <> "note-002"
  /\ rows_with "note-001"
       (snd (enqueue PlainAEAD.encrypt Sample.json_dumps Sample.settings
               "note-002" Sample.payload "prod" "0002" [] "2026-01-01 00:00:09"
               Sample.queued_store))
     = rows_with "note-001" Sample.queued_store.
Proof.
  assert (Hne : "note-001" <> "note-002") by discriminate.
  split; [ exact Hne | ].
  exact (enqueue_keeps_other_notes PlainAEAD.encrypt Sample.json_dumps Sample.settings
           Sample.queued_store "note-002" "note-001" Sample.payload "prod" "0002" []
           "2026-01-01 00:00:09" Hne).
Defined.

(** A queue of two notes and a worker that sends one note at a time. *)
Definition one_at_a_time : LocalSettings := mkLocalSettings "prod" "local-dev-001" 1.

Definition later_row : QueueItem.t :=
  QueueItem.mk "note-002" "local-dev-001:note-002:0002" "prod"
    (PlainAEAD.encrypt [] (utf8_encode "payload") (utf8_encode "note-002"))
    "queued" None 0 "2026-01-01 00:10:00" "2026-01-01 00:10:00".

Definition two_notes : Store := mkStore [Sample.row "note-001" "queued"; later_row] [].

Lemma sync_batch_drains_witness :
  let s' :=
    snd (sync_batch PlainAEAD.decrypt Sample.json_loads Sample.parse_record
           Sample.parse_flags Sample.exn_str one_at_a_time
           (fun _ => HttpError TinkError) "2026-01-01 00:11:00" "2026-01-01 00:11:01"
           12 two_notes) in
  In ("note-002", "queued") (map id_status (queue_items s'))
  /\ In ("note-002", "queued") (map id_status (queue_items two_notes))
  /\ ~ In "note-002" (map QueueItem.note_id (get_pending 1 two_notes)).
Proof.
  cbv zeta.
  assert (H : In ("note-002", "queued")
                (map id_status
                   (queue_items
                      (snd (sync_batch PlainAEAD.decrypt Sample.json_loads
                              Sample.parse_record Sample.parse_flags Sample.exn_str
                              one_at_a_time (fun _ => HttpError TinkError)
                              "2026-01-01 00:11:00" "2026-01-01 00:11:01" 12
                              two_notes))))).
  { vm_compute. right. left. reflexivity. }
  split; [ exact H | ].
  exact (sync_batch_drains PlainAEAD.decrypt Sample.json_loads Sample.parse_record
           Sample.parse_flags Sample.exn_str one_at_a_time
           (fun _ => HttpError TinkError) "2026-01-01 00:11:00" "2026-01-01 00:11:01"
           12 two_notes "note-002" H).
Defined.

Lemma unanswered_batch_left_syncing_witness :
  NoDup (map QueueItem.note_id (queue_items Sample.queued_store))
  /\ map id_status
       (queue_items
          (snd (sync_batch PlainAEAD.decrypt Sample.json_loads Sample.parse_record
                  Sample.parse_flags Sample.exn_str Sample.settings
                  (fun _ => HttpResponse 403 [] []) "2026-01-01 00:11:00"
                  "2026-01-01 00:11:01" 12 Sample.queued_store)))
     = [("note-001", "syncing")].
Proof.
  assert (Hnd : NoDup (map QueueItem.note_id (queue_items Sample.queued_store))).
  { constructor; [ intros [] | constructor ]. }
  split; [ exact Hnd | ].
  exact (proj1 (unanswered_batch_left_syncing PlainAEAD.decrypt Sample.json_loads
                  Sample.parse_record Sample.parse_flags Sample.exn_str Sample.settings
                  403 "2026-01-01 00:11:00" "2026-01-01 00:11:01" 12
                  Sample.queued_store Hnd)).
Defined.

(** A request of one item, a signed-in user and a guest. *)
Definition sample_item : SyncItem.t :=
  SyncItem.mk "note-001" complete_record (validate complete_record)
    "2026-01-01 00:00:00" "1.0.0" "local-dev-001:note-001:0001" None.

Definition clinician : User := mkUser "uid-1" "6bd7a1f5c2e04b19" false.
Definition guest : User := mkUser "demo-guest-0a1b2c3d4e5f" "1f0e9d8c7b6a5f4e" true.

Definition sample_clock : nat -> firestore_call -> string :=
  fun _ _ => "2026-01-01T00:11:00+00:00".

Lemma sync_writes_provenance_witness :
  let st := sync_items false no_faults sample_clock demo (uid guest) 0 [sample_item]
              (mkSyncState [] [] []) in
  let p := key_path (uid guest) "local-dev-001:note-001:0001" in
  let d := KeyDoc "note-001" "2026-01-01T00:11:00+00:00" in
  sync false no_faults sample_clock demo [sample_item] guest [] = Some st
  /\ doc_get (firestore st) p = Some d
  /\ (doc_get [] p = Some d
      \/ exists item,
           In item [sample_item] /\ written_for false demo (uid guest) item p d).
Proof.
  cbv zeta.
  assert (H1 : sync false no_faults sample_clock demo [sample_item] guest []
               = Some (sync_items false no_faults sample_clock demo (uid guest) 0
                         [sample_item] (mkSyncState [] [] []))) by reflexivity.
  assert (H2 : doc_get
                 (firestore
                    (sync_items false no_faults sample_clock demo (uid guest) 0
                       [sample_item] (mkSyncState [] [] [])))
                 (key_path (uid guest) "local-dev-001:note-001:0001")
               = Some (KeyDoc "note-001" "2026-01-01T00:11:00+00:00"))
    by (vm_compute; reflexivity).
  split; [ exact H1 | ]. split; [ exact H2 | ].
  exact (sync_writes_provenance false no_faults sample_clock demo [sample_item] guest []
           _ _ _ H1 H2).
Defined.

Lemma synced_items_have_keys_witness :
  let st := sync_items true no_faults sample_clock prod (uid clinician) 0 [sample_item]
              (mkSyncState [] [] []) in
  sync true no_faults sample_clock prod [sample_item] clinician [] = Some st
  /\ In "note-001" (synced st)
  /\ exists item,
       In item [sample_item] /\ SyncItem.note_id item = "note-001"
       /\ refused prod item = false
       /\ is_some (doc_get (firestore st)
                     (key_path (uid clinician) (SyncItem.idempotency_key item))) = true.
Proof.
  cbv zeta.
  assert (H1 : sync true no_faults sample_clock prod [sample_item] clinician []
               = Some (sync_items true no_faults sample_clock prod (uid clinician) 0
                         [sample_item] (mkSyncState [] [] []))) by reflexivity.
  assert (H2 : In "note-001"
                 (synced
                    (sync_items true no_faults sample_clock prod (uid clinician) 0
                       [sample_item] (mkSyncState [] [] [])))).
  { vm_compute. left. reflexivity. }
  split; [ exact H1 | ]. split; [ exact H2 | ].
  exact (synced_items_have_keys true no_faults sample_clock prod [sample_item] clinician
           [] _ "note-001" H1 H2).
Defined.

Lemma accepted_batch_settles_witness :
  let s' :=
    snd (sync_batch PlainAEAD.decrypt Sample.json_loads Sample.parse_record
           Sample.parse_flags Sample.exn_str Sample.settings
           (post_sync false no_faults sample_clock clinician [])
           "2026-01-01 00:11:00" "2026-01-01 00:11:01" 12 Sample.queued_store) in
  Mode_of_value (MODE Sample.settings) = Some prod
  /\ (prod = demo \/ is_anonymous clinician = false)
  /\ (0 <= SYNC_BATCH_SIZE Sample.settings <= 50)%Z
  /\ In ("note-001", "synced") (map id_status (queue_items s'))
  /\ ("synced" = "synced" \/ "synced" = "failed").
Proof.
  cbv zeta.
  assert (H1 : Mode_of_value (MODE Sample.settings) = Some prod) by reflexivity.
  assert (H2 : prod = demo \/ is_anonymous clinician = false) by (right; reflexivity).
  assert (H3 : (0 <= SYNC_BATCH_SIZE Sample.settings <= 50)%Z) by (cbn; lia).
  assert (H4 : In ("note-001", "synced")
                 (map id_status
                    (queue_items
                       (snd (sync_batch PlainAEAD.decrypt Sample.json_loads
                               Sample.parse_record Sample.parse_flags Sample.exn_str
                               Sample.settings
                               (post_sync false no_faults sample_clock clinician [])
                               "2026-01-01 00:11:00" "2026-01-01 00:11:01" 12
                               Sample.queued_store))))).
  { vm_compute. left. reflexivity. }
  split; [ exact H1 | ]. split; [ exact H2 | ]. split; [ exact H3 | ].
  split; [ exact H4 | ].
  exact (accepted_batch_settles PlainAEAD.decrypt Sample.json_loads Sample.parse_record
           Sample.parse_flags Sample.exn_str Sample.settings false no_faults
           sample_clock clinician [] prod "2026-01-01 00:11:00" "2026-01-01 00:11:01"
           12 Sample.queued_store "note-001" "synced" H1 H2 H3 H4).
Defined.

Lemma prod_guest_batch_stuck_witness :
  MODE Sample.settings = "prod"
  /\ is_anonymous guest = true
  /\ NoDup (map QueueItem.note_id (queue_items Sample.queued_store))
  /\ map id_status
       (queue_items
          (snd (sync_batch PlainAEAD.decrypt Sample.json_loads Sample.parse_record
                  Sample.parse_flags Sample.exn_str Sample.settings
                  (post_sync false no_faults sample_clock guest [])
                  "2026-01-01 00:11:00" "2026-01-01 00:11:01" 12
                  Sample.queued_store)))
     = [("note-001", "syncing")].
Proof.
  assert (H1 : MODE Sample.settings = "prod") by reflexivity.
  assert (H2 : is_anonymous guest = true) by reflexivity.
  assert (H3 : NoDup (map QueueItem.note_id (queue_items Sample.queued_store))).
  { constructor; [ intros [] | constructor ]. }
  split; [ exact H1 | ]. split; [ exact H2 | ]. split; [ exact H3 | ].
  exact (proj1 (prod_guest_batch_stuck PlainAEAD.decrypt Sample.json_loads
                  Sample.parse_record Sample.parse_flags Sample.exn_str Sample.settings
                  false no_faults sample_clock guest [] "2026-01-01 00:11:00"
                  "2026-01-01 00:11:01" 12 Sample.queued_store H1 H2 H3)).
Defined.

(** A note saved with its text, and codecs that read it back. *)
Definition saved_text : option string := Some "Patient reports chest pain".

Definition saved_payload : json :=
  JObj (save_payload Sample.settings true complete_record (validate complete_record)
          saved_text).

Definition loads_saved (b : bytes) : option json :=
  if Sample.bytes_eqb b (utf8_encode "payload") then Some saved_payload else None.

Definition parse_saved_record (j : json) : result ClinicalRecord :=
  match j with
  | JObj _ => Ok complete_record
  | _ => Raise ValidationError
  end.

Definition parse_saved_flags (j : json) : result Flags :=
  match j with
  | JObj _ => Ok (validate complete_record)
  | _ => Raise ValidationError
  end.

Lemma saved_note_is_sent_witness :
  loads_saved (utf8_encode (Sample.json_dumps saved_payload)) = Some saved_payload
  /\ parse_saved_record (ClinicalRecord_dump complete_record) = Ok complete_record
  /\ parse_saved_flags (Flags_dump (validate complete_record))
     = Ok (validate complete_record)
  /\ exists (idempotency_key : string) (s' : Store),
       local_save PlainAEAD.encrypt Sample.json_dumps Sample.settings true
         (Some init_db) "note-001" complete_record (validate complete_record)
         saved_text "0001" [] "2026-01-01 00:00:00"
       = Some ([("status", JStr "queued"); ("note_id", JStr "note-001");
                ("idempotency_key", JStr idempotency_key)], s')
       /\ map QueueItem.status (rows_with "note-001" s') = ["queued"]
       /\ map (prepare_item PlainAEAD.decrypt loads_saved parse_saved_record
                 parse_saved_flags)
            (rows_with "note-001" s')
          = [Ok (SyncItem.mk "note-001" complete_record (validate complete_record)
                   "2026-01-01 00:00:00" "1.0.0" idempotency_key
                   (sent_note_text Sample.settings true saved_text))].
Proof.
  assert (H1 : loads_saved (utf8_encode (Sample.json_dumps saved_payload))
               = Some saved_payload) by reflexivity.
  assert (H2 : parse_saved_record (ClinicalRecord_dump complete_record)
               = Ok complete_record) by reflexivity.
  assert (H3 : parse_saved_flags (Flags_dump (validate complete_record))
               = Ok (validate complete_record)) by reflexivity.
  split; [ exact H1 | ]. split; [ exact H2 | ]. split; [ exact H3 | ].
  exact (saved_note_is_sent PlainAEAD.encrypt PlainAEAD.decrypt Sample.json_dumps
           loads_saved parse_saved_record parse_saved_flags Sample.settings
           PlainAEAD_roundtrip true init_db "note-001" complete_record
           (validate complete_record) saved_text "0001" [] "2026-01-01 00:00:00"
           H1 H2 H3).
Defined.
